(** * Shape detection: region extraction and geometric classification

    A shallow embedding of the pixel pipeline of [ShapeDetector]
    (src/main.ts, the class that owns [binaryMatrix] and [visited]):
    [initializeBinaryMatrix], [initializeVisited], [floodFill],
    [analyzeShape] and [detectShapes], and proofs about it.

    Conventions of the embedding.
    - JavaScript numbers that only ever hold integers (coordinates, sizes,
      channel values, pixel counts) are [Z]; numbers that hold fractions
      (centroid, ratios, perimeter, confidence) are real numbers [R], so
      rounding of IEEE doubles is idealised away.  Comparisons, on which
      the classification rests, are exact in both readings.
    - The mutable fields of the detector object are a record [Detector];
      every method is a function from the detector state to the next state
      and a result.
    - Arrays are lists, read with stdpp's lookup and written with its
      in-place update.
    - [detectShapes] is [async] but awaits nothing; it is a plain function
      here, and the two clock readings it takes are arguments.
    - The [while] loop of [floodFill] is a fixpoint on a bound for its
      number of rounds and returns [None] when the bound is hit, so every
      function that calls it returns an option; [runScan_spec] shows that
      [detectShapes] returns on every image. *)

From Stdlib Require Import ZArith Reals Lra Lia.
From stdpp Require Import base tactics option list.

Local Open Scope Z_scope.

(** ** Data model *)

(** A pixel coordinate object [{x, y}]. *)
Record Pixel : Type := mkPixel { px : Z; py : Z }.

#[global] Instance Pixel_eq_dec : EqDecision Pixel.
Proof. solve_decision. Defined.

(** [ImageData]: dimensions and the flat RGBA byte buffer
    ([Uint8ClampedArray], four entries per pixel, row-major). *)
Record ImageData : Type := mkImageData {
  img_width : Z;
  img_height : Z;
  img_data : list Z
}.

(** The boolean grids [boolean[][]]: a list of rows. *)
Abbreviation Matrix := (list (list bool)).

(** The mutable fields of the detector object. *)
Record Detector : Type := mkDetector {
  imageData : option ImageData;
  width : Z;
  height : Z;
  data : option (list Z);
  binaryMatrix : Matrix;
  visited : Matrix
}.

(** The state of a freshly constructed detector (the field initialisers). *)
Definition newDetector : Detector :=
  mkDetector None 0 0 None [] [].

Definition set_binaryMatrix (m : Matrix) (s : Detector) : Detector :=
  mkDetector (imageData s) (width s) (height s) (data s) m (visited s).

Definition set_visited (m : Matrix) (s : Detector) : Detector :=
  mkDetector (imageData s) (width s) (height s) (data s) (binaryMatrix s) m.

(** ** Reading and writing the grids *)

(** [m[y][x]] used as a condition.  A missing cell reads [undefined], which
    is falsy.  The code reads a grid only at [0 <= y < height] and
    [0 <= x < width], where the cell exists (see [wf_matrix] below). *)
Definition mat_get (m : Matrix) (x y : Z) : bool :=
  match m !! Z.to_nat y with
  | Some row => default false (row !! Z.to_nat x)
  | None => false
  end.

(** [m[y][x] = b], at a cell that exists. *)
Definition mat_set (m : Matrix) (x y : Z) (b : bool) : Matrix :=
  alter (fun row => <[Z.to_nat x := b]> row) (Z.to_nat y) m.

(** ** Binarizer: [initializeBinaryMatrix] *)

(** [data[i]] for a typed array: [undefined] outside the buffer. *)
Definition byteAt (d : list Z) (i : Z) : option Z :=
  if i <? 0 then None else d !! Z.to_nat i.

(** [v < 240] where [v] may be [undefined]: the comparison with
    [undefined] is false. *)
Definition lt240 (v : option Z) : bool :=
  match v with
  | Some n => n <? 240
  | None => false
  end.

(** The loop body: [isForeground] of the pixel at column [x], row [y]. *)
Definition isForegroundAt (d : list Z) (w x y : Z) : bool :=
  let i := (y * w + x) * 4 in
  let r := byteAt d i in
  let g := byteAt d (i + 1) in
  let b := byteAt d (i + 2) in
  lt240 r || lt240 g || lt240 b.

Definition initializeBinaryMatrix (s : Detector) : Detector :=
  match data s with
  | None => s
  | Some d =>
      set_binaryMatrix
        (map (fun y => map (fun x => isForegroundAt d (width s) x y)
                           (seqZ 0 (width s)))
             (seqZ 0 (height s)))
        s
  end.

(** ** [initializeVisited] *)

Definition initializeVisited (s : Detector) : Detector :=
  set_visited
    (map (fun _ => replicate (Z.to_nat (width s)) false) (seqZ 0 (height s)))
    s.

(** ** Region extractor: [floodFill] *)

Definition dx : list Z := [-1; 0; 1; -1; 1; -1; 0; 1].
Definition dy : list Z := [-1; -1; -1; 0; 0; 1; 1; 1].

(** The guard of the inner [if]: in bounds, foreground, not yet visited.
    [&&] is lazy on both sides, so the grids are read only in bounds. *)
Definition canVisit (w h : Z) (bm vis : Matrix) (nx ny : Z) : bool :=
  (0 <=? nx) && (nx <? w) && (0 <=? ny) && (ny <? h)
  && mat_get bm nx ny && negb (mat_get vis nx ny).

(** One round of the [for (let i = 0; i < 8; i++)] loop, on the pair of
    the visited grid and the queue. *)
Definition visitNeighbour (w h : Z) (bm : Matrix) (x y : Z)
    (st : Matrix * list Pixel) (i : nat) : Matrix * list Pixel :=
  let nx := x + dx !!! i in
  let ny := y + dy !!! i in
  if canVisit w h bm (fst st) nx ny
  then (mat_set (fst st) nx ny true, snd st ++ [mkPixel nx ny])
  else st.

(** The [while (queue.length > 0)] loop.  [fuel] bounds the number of
    rounds; [None] means the bound was hit with a non-empty queue
    ([floodLoop_enough_fuel] shows this never happens in [detectShapes]). *)
Fixpoint floodLoop (fuel : nat) (w h : Z) (bm vis : Matrix)
    (queue pixels : list Pixel) : option (Matrix * list Pixel) :=
  match queue with
  | [] => Some (vis, pixels)
  | p :: queue' =>
      match fuel with
      | O => None
      | S fuel' =>
          let st := foldl (visitNeighbour w h bm (px p) (py p))
                          (vis, queue') (seq 0 8) in
          floodLoop fuel' w h bm (fst st) (snd st) (pixels ++ [p])
      end
  end.

Definition floodFill (s : Detector) (startX startY : Z)
    : option (Detector * list Pixel) :=
  let vis0 := mat_set (visited s) startX startY true in
  match floodLoop (Z.to_nat (width s * height s)) (width s) (height s)
                  (binaryMatrix s) vis0 [mkPixel startX startY] [] with
  | Some (vis, pixels) => Some (set_visited vis s, pixels)
  | None => None
  end.

(** ** Feature calculator and classifier: [analyzeShape] *)

Inductive ShapeType : Type := circle | square | rectangle | triangle | pentagon.

#[global] Instance ShapeType_eq_dec : EqDecision ShapeType.
Proof. solve_decision. Defined.

Record BoundingBox : Type := mkBoundingBox {
  bb_x : Z;
  bb_y : Z;
  bb_width : Z;
  bb_height : Z
}.

Record DetectedShape : Type := mkDetectedShape {
  shape_type : ShapeType;
  confidence : R;
  boundingBox : BoundingBox;
  center : R * R;
  area : Z
}.

#[global] Instance Rlt_decision (a b : R) : Decision (a < b)%R := Rlt_dec a b.
#[global] Instance Rgt_decision (a b : R) : Decision (a > b)%R := Rgt_dec a b.

(** The running values of the first loop of [analyzeShape]. *)
Record Bounds : Type := mkBounds {
  minX : Z; minY : Z; maxX : Z; maxY : Z; sumX : Z; sumY : Z
}.

Definition boundsStep (b : Bounds) (p : Pixel) : Bounds :=
  mkBounds (Z.min (minX b) (px p)) (Z.min (minY b) (py p))
           (Z.max (maxX b) (px p)) (Z.max (maxY b) (py p))
           (sumX b + px p) (sumY b + py p).

Definition boundsOf (w h : Z) (pixels : list Pixel) : Bounds :=
  foldl boundsStep (mkBounds w h 0 0 0 0) pixels.

(** The body of the perimeter loop at index [i]. *)
Definition perimeterStep (pixels : list Pixel) (perimeter : R) (i : nat) : R :=
  let next := ((i + 1) mod length pixels)%nat in
  match pixels !! next, pixels !! i with
  | Some q, Some p =>
      let ddx := px q - px p in
      let ddy := py q - py p in
      (perimeter + sqrt (IZR (ddx * ddx + ddy * ddy)))%R
  | _, _ => perimeter
  end.

Definition perimeterOf (pixels : list Pixel) : R :=
  foldl (perimeterStep pixels) 0%R (seq 0 (length pixels)).

Definition circularityOf (areaN : Z) (perimeter : R) : R :=
  if decide (perimeter > 0)%R
  then (4 * PI * IZR areaN / (perimeter * perimeter))%R
  else 0%R.

(** The [if / else if] chain that picks [type] and [confidence]. *)
Definition classify (circularity aspectRatio extent : R) : ShapeType * R :=
  if bool_decide (circularity > 0.85)%R then
    (circle, Rmin 0.99 circularity)
  else if bool_decide (Rabs (aspectRatio - 1) < 0.2)%R
          && bool_decide (extent > 0.7)%R then
    (square, (0.85 * extent)%R)
  else if bool_decide (extent > 0.6)%R then
    (rectangle, (0.8 * extent)%R)
  else if bool_decide (extent < 0.6)%R then
    (triangle, (0.7 * (1 - extent))%R)
  else
    (pentagon, 0.6%R).

(** [Math.log10] on a positive argument. *)
Definition log10 (x : R) : R := (ln x / ln 10)%R.

Definition sizePenalty (areaN : Z) : R :=
  Rmin 1 (log10 (IZR areaN / 100) / 2 + 0.8)%R.

(** The confidence after the penalty and the clamp. *)
Definition finalConfidence (conf : R) (areaN : Z) : R :=
  Rmax 0.1 (Rmin 0.99 (conf * sizePenalty areaN)).

(** The local variables of [analyzeShape] when it reaches the final
    cutoff test. *)
Record Locals : Type := mkLocals {
  l_bounds : Bounds;
  l_width : Z;
  l_height : Z;
  l_centerX : R;
  l_centerY : R;
  l_area : Z;
  l_aspectRatio : R;
  l_extent : R;
  l_perimeter : R;
  l_circularity : R;
  l_type : ShapeType;
  l_rawConfidence : R;  (* [confidence] as the classification chain sets it *)
  l_confidence : R      (* [confidence] after the penalty and the clamp *)
}.

(** The body of [analyzeShape] between the size test at its head and the
    cutoff test at its end. *)
Definition analyzeLocals (s : Detector) (pixels : list Pixel) : Locals :=
  let b := boundsOf (width s) (height s) pixels in
  let bwidth := maxX b - minX b + 1 in
  let bheight := maxY b - minY b + 1 in
  let centerX := (IZR (sumX b) / INR (length pixels))%R in
  let centerY := (IZR (sumY b) / INR (length pixels))%R in
  let areaN := Z.of_nat (length pixels) in
  let aspectRatio := (IZR bwidth / IZR (Z.max 1 bheight))%R in
  let extent := (IZR areaN / IZR (bwidth * bheight))%R in
  let perimeter := perimeterOf pixels in
  let circularity := circularityOf areaN perimeter in
  let tc := classify circularity aspectRatio extent in
  let conf := finalConfidence (snd tc) areaN in
  mkLocals b bwidth bheight centerX centerY areaN aspectRatio extent
           perimeter circularity (fst tc) (snd tc) conf.

Definition analyzeShape (s : Detector) (pixels : list Pixel)
    : option DetectedShape :=
  if (length pixels <? 10)%nat then None else
  let v := analyzeLocals s pixels in
  if bool_decide (l_confidence v < 0.6)%R then None
  else Some (mkDetectedShape (l_type v) (l_confidence v)
               (mkBoundingBox (minX (l_bounds v)) (minY (l_bounds v))
                              (l_width v) (l_height v))
               (l_centerX v, l_centerY v) (l_area v)).

(** ** Pipeline orchestrator: [detectShapes] *)

Record ImageStats : Type := mkImageStats {
  stats_width : Z;
  stats_height : Z;
  processingTimeMs : R
}.

Record DetectionResult : Type := mkDetectionResult {
  shapes : list DetectedShape;
  imageStats : ImageStats
}.

(** The state of the raster scan: the detector object and the local
    [shapes] array.  The two last fields are history only (the code has no
    such variables): [sc_filled] records every list returned by
    [floodFill], [sc_handed] records every list passed to [analyzeShape],
    both in call order. *)
Record Scan : Type := mkScan {
  sc_det : Detector;
  sc_shapes : list DetectedShape;
  sc_filled : list (list Pixel);
  sc_handed : list (list Pixel)
}.

Definition minShapeSize : nat := 20.

(** The body of the inner [for] loop of [detectShapes] at column [x] of
    row [y]. *)
Definition scanCell (st : Scan) (x y : Z) : option Scan :=
  let s := sc_det st in
  if mat_get (binaryMatrix s) x y && negb (mat_get (visited s) x y) then
    match floodFill s x y with
    | None => None
    | Some (s', shapePixels) =>
        if (minShapeSize <? length shapePixels)%nat then
          Some (mkScan s'
                  (match analyzeShape s' shapePixels with
                   | Some shape => sc_shapes st ++ [shape]
                   | None => sc_shapes st
                   end)
                  (sc_filled st ++ [shapePixels])
                  (sc_handed st ++ [shapePixels]))
        else
          Some (mkScan s' (sc_shapes st)
                  (sc_filled st ++ [shapePixels]) (sc_handed st))
    end
  else Some st.

(** A [for] loop over the elements of [l] whose body may fail. *)
Fixpoint forEach {A S : Type} (body : S -> A -> option S) (l : list A)
    (st : S) : option S :=
  match l with
  | [] => Some st
  | a :: l' =>
      match body st a with
      | Some st' => forEach body l' st'
      | None => None
      end
  end.

(** The two nested [for] loops: rows outside, columns inside. *)
Definition scanRows (st : Scan) : option Scan :=
  forEach (fun st y =>
             forEach (fun st x => scanCell st x y)
                     (seqZ 0 (width (sc_det st))) st)
          (seqZ 0 (height (sc_det st))) st.

(** The assignments at the head of [detectShapes]. *)
Definition loadImageData (s : Detector) (img : ImageData) : Detector :=
  mkDetector (Some img) (img_width img) (img_height img)
             (Some (img_data img)) (binaryMatrix s) (visited s).

(** The whole run up to the end of the scan, with its history. *)
Definition runScan (s : Detector) (img : ImageData) : option Scan :=
  let s1 := loadImageData s img in
  let s2 := initializeBinaryMatrix s1 in
  let s3 := initializeVisited s2 in
  scanRows (mkScan s3 [] [] []).

(** [detectShapes]: the detector state it leaves behind and its result.
    [startTime] and [endTime] are the two readings of [performance.now()]. *)
Definition detectShapes (s : Detector) (img : ImageData)
    (startTime endTime : R) : option (Detector * DetectionResult) :=
  match runScan s img with
  | None => None
  | Some st =>
      Some (sc_det st,
            mkDetectionResult (sc_shapes st)
              (mkImageStats (width (sc_det st)) (height (sc_det st))
                            (endTime - startTime)%R))
  end.


(** * The evaluation code

    A shallow embedding of [calculateIoU], [isShapeMatch] and
    [calculateMetrics] (src/evaluation-utils.ts), of [EvaluationManager]
    (src/evaluation-manager.ts) and of [evaluateResult] and the verdict of
    [runTest] (src/testRunner.ts).

    Conventions, besides those above.
    - The result of a division may be [NaN] or infinite: such numbers are
      values of [JsNum].  The operands the code divides are finite, and the
      arithmetic on them is that of the real numbers.  The sign of a zero
      is not modelled: a zero divisor counts as [+0].
    - Shape type names are strings, as they are at run time, so the
      ['none'] of [details] is a string among them.
    - [shapeWiseResults], a plain object used as a map from type names to
      counters, is a finite map; the order of its keys is not modelled, nor
      are names with a meaning of their own on objects ([__proto__]).
    - Reading a property of [undefined] throws a [TypeError]; a function
      that can throw returns an option, or a sum with the thrown error. *)

From stdpp Require Import strings gmap.

Local Open Scope Z_scope.

(** ** JavaScript numbers that may be [NaN] or infinite *)

Inductive JsNum : Type := Finite (r : R) | NaN | PosInf | NegInf.

#[global] Instance Req_decision (a b : R) : Decision (a = b) := Req_dec_T a b.
#[global] Instance Rle_decision (a b : R) : Decision (a <= b)%R := Rle_dec a b.

Definition jsAdd (a b : JsNum) : JsNum :=
  match a, b with
  | NaN, _ | _, NaN => NaN
  | Finite x, Finite y => Finite (x + y)
  | PosInf, NegInf | NegInf, PosInf => NaN
  | PosInf, _ | _, PosInf => PosInf
  | NegInf, _ | _, NegInf => NegInf
  end.

(** An infinity (positive when [pos]) times the finite number [y]. *)
Definition infTimes (pos : bool) (y : R) : JsNum :=
  if bool_decide (y = 0)%R then NaN
  else if bool_decide (0 < y)%R then (if pos then PosInf else NegInf)
  else (if pos then NegInf else PosInf).

Definition jsMul (a b : JsNum) : JsNum :=
  match a, b with
  | NaN, _ | _, NaN => NaN
  | Finite x, Finite y => Finite (x * y)
  | PosInf, Finite y | Finite y, PosInf => infTimes true y
  | NegInf, Finite y | Finite y, NegInf => infTimes false y
  | PosInf, PosInf | NegInf, NegInf => PosInf
  | PosInf, NegInf | NegInf, PosInf => NegInf
  end.

Definition jsDiv (a b : JsNum) : JsNum :=
  match a, b with
  | NaN, _ | _, NaN => NaN
  | Finite x, Finite y =>
      if bool_decide (y = 0)%R then
        if bool_decide (x = 0)%R then NaN
        else if bool_decide (0 < x)%R then PosInf else NegInf
      else Finite (x / y)
  | Finite _, _ => Finite 0
  | PosInf, Finite y => if bool_decide (0 <= y)%R then PosInf else NegInf
  | NegInf, Finite y => if bool_decide (0 <= y)%R then NegInf else PosInf
  | _, _ => NaN
  end.

(** [a > b] and [a >= b]: false as soon as one side is [NaN]. *)
Definition jsGt (a b : JsNum) : bool :=
  match a, b with
  | NaN, _ | _, NaN => false
  | Finite x, Finite y => bool_decide (x > y)%R
  | PosInf, PosInf => false
  | PosInf, _ => true
  | _, PosInf => false
  | NegInf, _ => false
  | Finite _, NegInf => true
  end.

Definition jsGe (a b : JsNum) : bool :=
  match a, b with
  | NaN, _ | _, NaN => false
  | Finite x, Finite y => bool_decide (y <= x)%R
  | PosInf, _ => true
  | _, PosInf => false
  | _, NegInf => true
  | NegInf, Finite _ => false
  end.

(** [a || 0]: [NaN] and zero are the numbers that count as false. *)
Definition jsOrZero (a : JsNum) : JsNum :=
  match a with
  | NaN => Finite 0
  | _ => a
  end.

(** ** evaluation-utils.ts *)

(** A bounding box with fields that are any numbers. *)
Record Box : Type := mkBox {
  box_x : R;
  box_y : R;
  box_width : R;
  box_height : R
}.

(** The fields of a [DetectedShape] that the evaluation reads. *)
Record Detection : Type := mkDetection {
  det_type : string;
  det_confidence : R;
  det_boundingBox : Box;
  det_center : R * R
}.

(** An entry of [TestCase.expectedShapes]. *)
Record ExpectedShape : Type := mkExpectedShape {
  ex_type : string;
  ex_center : R * R;
  ex_boundingBox : Box
}.

Record TestCase : Type := mkTestCase {
  tc_id : string;
  tc_description : string;
  tc_imagePath : string;
  tc_expectedShapes : list ExpectedShape
}.

(** An entry of [shapeWiseResults]. *)
Record Counters : Type := mkCounters {
  c_detected : Z;
  c_expected : Z;
  c_correct : Z
}.

(** An entry of [details]. *)
Record Detail : Type := mkDetail {
  d_expected : string;
  d_detected : string;
  d_confidence : R;
  d_isCorrect : bool
}.

Record EvaluationResult : Type := mkEvaluationResult {
  testCaseId : string;
  passed : bool;
  er_detectedShapes : Z;
  er_expectedShapes : Z;
  truePositives : Z;
  falsePositives : Z;
  falseNegatives : Z;
  precision : JsNum;
  recall : JsNum;
  f1Score : JsNum;
  shapeWiseResults : gmap string Counters;
  details : list Detail
}.

Definition calculateIoU (box1 box2 : Box) : JsNum :=
  let x1 := Rmax (box_x box1) (box_x box2) in
  let y1 := Rmax (box_y box1) (box_y box2) in
  let x2 := Rmin (box_x box1 + box_width box1) (box_x box2 + box_width box2) in
  let y2 := Rmin (box_y box1 + box_height box1)
                 (box_y box2 + box_height box2) in
  let intersection := (Rmax 0 (x2 - x1) * Rmax 0 (y2 - y1))%R in
  let area1 := (box_width box1 * box_height box1)%R in
  let area2 := (box_width box2 * box_height box2)%R in
  let union := (area1 + area2 - intersection)%R in
  jsDiv (Finite intersection) (Finite union).



(** The part of [result] that the loops of [calculateMetrics] update, and
    the set [matchedExpectedIndices]. *)
Record Tally : Type := mkTally {
  t_truePositives : Z;
  t_falsePositives : Z;
  t_shapeWise : gmap string Counters;
  t_details : list Detail;
  t_matched : gset nat
}.

(** [shapeWise[type].field++]: a [TypeError] when the key is missing. *)
Definition bump (f : Counters -> Counters) (type : string)
    (shapeWise : gmap string Counters) : option (gmap string Counters) :=
  match shapeWise !! type with
  | Some c => Some (<[type := f c]> shapeWise)
  | None => None
  end.

Definition incDetected (c : Counters) : Counters :=
  mkCounters (c_detected c + 1) (c_expected c) (c_correct c).
Definition incExpected (c : Counters) : Counters :=
  mkCounters (c_detected c) (c_expected c + 1) (c_correct c).
Definition incCorrect (c : Counters) : Counters :=
  mkCounters (c_detected c) (c_expected c) (c_correct c + 1).

(** The counters set to zero for every type that occurs.  The code removes
    repeated names with a [Set] first; writing the same zeros twice gives
    the same map. *)
Definition initShapeWise (types : list string) : gmap string Counters :=
  foldl (fun m type => <[type := mkCounters 0 0 0]> m) ∅ types.

(** The body of the inner [forEach] over the expected shapes, on the pair
    [(bestMatchIdx, bestIoU)]. *)
Definition bestStep (matched : gset nat) (detected : Detection)
    (best : Z * JsNum) (je : nat * ExpectedShape) : Z * JsNum :=
  if bool_decide (fst je ∈ matched) then best
  else
    let iou := calculateIoU (det_boundingBox detected)
                            (ex_boundingBox (snd je)) in
    if jsGt iou (snd best) then (Z.of_nat (fst je), iou) else best.

(** The expected shapes with their indices. *)
Definition indexed {A : Type} (l : list A) : list (nat * A) :=
  zip (seq 0 (length l)) l.

Definition bestMatch (matched : gset nat) (detected : Detection)
    (expected : list ExpectedShape) : Z * JsNum :=
  foldl (bestStep matched detected) (-1, Finite 0) (indexed expected).

(** The body of the [forEach] over the detected shapes. *)
Definition detectedStep (testCase : TestCase) (t : Tally)
    (detected : Detection) : option Tally :=
  match bump incDetected (det_type detected) (t_shapeWise t) with
  | None => None
  | Some shapeWise =>
      let best := bestMatch (t_matched t) detected
                            (tc_expectedShapes testCase) in
      let bestMatchIdx := fst best in
      let bestIoU := snd best in
      if bool_decide (0 ≤ bestMatchIdx) && jsGe bestIoU (Finite 0.5) then
        match tc_expectedShapes testCase !! Z.to_nat bestMatchIdx with
        | None => None
        | Some expected =>
            let isCorrect :=
              bool_decide (det_type detected = ex_type expected) in
            let detail := mkDetail (ex_type expected) (det_type detected)
                                   (det_confidence detected) isCorrect in
            if isCorrect then
              match bump incCorrect (det_type detected) shapeWise with
              | None => None
              | Some shapeWise' =>
                  Some (mkTally (t_truePositives t + 1) (t_falsePositives t)
                          shapeWise' (t_details t ++ [detail])
                          ({[Z.to_nat bestMatchIdx]} ∪ t_matched t))
              end
            else
              Some (mkTally (t_truePositives t) (t_falsePositives t)
                      shapeWise (t_details t ++ [detail]) (t_matched t))
        end
      else
        Some (mkTally (t_truePositives t) (t_falsePositives t + 1) shapeWise
                (t_details t
                 ++ [mkDetail "none" (det_type detected)
                              (det_confidence detected) false])
                (t_matched t))
  end.

Definition calculateMetrics (testCase : TestCase)
    (detectedShapes : list Detection) : option EvaluationResult :=
  let expected := tc_expectedShapes testCase in
  let shapeTypes := (ex_type <$> expected) ++ (det_type <$> detectedShapes) in
  match forEach (fun m shape => bump incExpected (ex_type shape) m) expected
                (initShapeWise shapeTypes) with
  | None => None
  | Some shapeWise =>
      match forEach (detectedStep testCase) detectedShapes
                    (mkTally 0 0 shapeWise [] ∅) with
      | None => None
      | Some t =>
          let truePositives := t_truePositives t in
          let falsePositives := t_falsePositives t in
          let falseNegatives :=
            Z.of_nat (length expected) - Z.of_nat (size (t_matched t)) in
          let precision :=
            jsOrZero (jsDiv (Finite (IZR truePositives))
                            (Finite (IZR (truePositives + falsePositives)))) in
          let recall :=
            jsOrZero (jsDiv (Finite (IZR truePositives))
                            (Finite (IZR (truePositives + falseNegatives)))) in
          let f1Score :=
            jsOrZero (jsDiv (jsMul (Finite 2) (jsMul precision recall))
                            (jsAdd precision recall)) in
          Some (mkEvaluationResult (tc_id testCase)
                  (bool_decide (falsePositives = 0)
                   && bool_decide (falseNegatives = 0))
                  (Z.of_nat (length detectedShapes))
                  (Z.of_nat (length expected))
                  truePositives falsePositives falseNegatives
                  precision recall f1Score (t_shapeWise t) (t_details t))
      end
  end.

(** The name of a shape type, and a shape of the detector as the
    evaluation reads it. *)
Definition typeName (t : ShapeType) : string :=
  match t with
  | circle => "circle"
  | square => "square"
  | rectangle => "rectangle"
  | triangle => "triangle"
  | pentagon => "pentagon"
  end.

Definition boxOf (b : BoundingBox) : Box :=
  mkBox (IZR (bb_x b)) (IZR (bb_y b)) (IZR (bb_width b)) (IZR (bb_height b)).

Definition detectionOf (sh : DetectedShape) : Detection :=
  mkDetection (typeName (shape_type sh)) (confidence sh)
              (boxOf (boundingBox sh)) (center sh).

(** ** evaluation-manager.ts *)

(** The fields of an [EvaluationManager]. *)
Record Manager : Type := mkManager {
  testCases : list TestCase;
  results : list EvaluationResult;
  currentTestCaseIndex : Z
}.

(** The constructor. *)
Definition newManager (cases : list TestCase) : Manager :=
  mkManager cases [] (-1).

Definition addTestCase (m : Manager) (testCase : TestCase) : Manager :=
  mkManager (testCases m ++ [testCase]) (results m) (currentTestCaseIndex m).

(** [array[index]] for a whole number [index]: [undefined] outside the
    array. *)
Definition jsIndex {A : Type} (l : list A) (index : Z) : option A :=
  if bool_decide (0 ≤ index) then l !! Z.to_nat index else None.

Definition getTestCase (m : Manager) (index : Z) : option TestCase :=
  jsIndex (testCases m) index.

Definition getCurrentTestCase (m : Manager) : option TestCase :=
  jsIndex (testCases m) (currentTestCaseIndex m).

Definition getTestCases (m : Manager) : list TestCase := testCases m.

Definition getResults (m : Manager) : list EvaluationResult := results m.

(** What [evaluate] throws. *)
Inductive Thrown : Type := NoTestCaseFound | TypeError.

(** The test case [evaluate] picks: the first with the given id, unless
    the id is missing or empty, which selects the current test case. *)
Definition selectTestCase (m : Manager) (id : option string)
    : option TestCase :=
  match id with
  | Some i =>
      if bool_decide (i = EmptyString) then getCurrentTestCase m
      else find (fun tc => bool_decide (tc_id tc = i)) (testCases m)
  | None => getCurrentTestCase m
  end.

Definition evaluate (m : Manager) (detectedShapes : list Detection)
    (id : option string) : Thrown + Manager * EvaluationResult :=
  match selectTestCase m id with
  | None => inl NoTestCaseFound
  | Some testCase =>
      match calculateMetrics testCase detectedShapes with
      | None => inl TypeError
      | Some result =>
          inr (mkManager (testCases m) (results m ++ [result])
                         (currentTestCaseIndex m), result)
      end
  end.

Record OverallMetrics : Type := mkOverallMetrics {
  totalTests : Z;
  passedTests : Z;
  successRate : JsNum;
  averagePrecision : JsNum;
  averageRecall : JsNum;
  averageF1Score : JsNum
}.

(** The accumulator of the [reduce] in [getOverallMetrics]. *)
Definition sumStep (acc : JsNum * JsNum * JsNum) (curr : EvaluationResult)
    : JsNum * JsNum * JsNum :=
  (jsAdd (fst (fst acc)) (precision curr),
   jsAdd (snd (fst acc)) (recall curr),
   jsAdd (snd acc) (f1Score curr)).

Definition getOverallMetrics (m : Manager) : OverallMetrics :=
  if bool_decide (length (results m) = 0%nat) then
    mkOverallMetrics 0 0 (Finite 0) (Finite 0) (Finite 0) (Finite 0)
  else
    let sum := foldl sumStep (Finite 0, Finite 0, Finite 0) (results m) in
    let count := Z.of_nat (length (results m)) in
    let passedCount :=
      Z.of_nat (length (filter (fun r => passed r = true) (results m))) in
    mkOverallMetrics count passedCount
      (jsDiv (Finite (IZR passedCount)) (Finite (IZR count)))
      (jsDiv (fst (fst sum)) (Finite (IZR count)))
      (jsDiv (snd (fst sum)) (Finite (IZR count)))
      (jsDiv (snd sum) (Finite (IZR count))).

(** A call of a method that changes the manager. *)
Inductive Call : Type :=
  | CallAddTestCase (testCase : TestCase)
  | CallEvaluate (detectedShapes : list Detection) (id : option string).

(** The manager after a call; a call of [evaluate] that throws leaves it
    as it was. *)
Definition afterCall (m : Manager) (c : Call) : Manager :=
  match c with
  | CallAddTestCase testCase => addTestCase m testCase
  | CallEvaluate detectedShapes id =>
      match evaluate m detectedShapes id with
      | inr (m', _) => m'
      | inl _ => m
      end
  end.

(** ** testRunner.ts *)

(** An entry of [TestImage.expectedShapes]. *)
Record ExpectedCount : Type := mkExpectedCount {
  ec_type : string;
  minArea : Z;
  maxArea : Z;
  count : Z
}.

Record TestImage : Type := mkTestImage {
  ti_id : string;
  ti_name : string;
  ti_expectedShapes : list ExpectedCount
}.

(** [shapeCounts.set(type, (shapeCounts.get(type) || 0) + 1)]. *)
Definition countStep (shapeCounts : gmap string Z) (shape : DetectedShape)
    : gmap string Z :=
  <[typeName (shape_type shape)
    := default 0 (shapeCounts !! typeName (shape_type shape)) + 1]>
    shapeCounts.

(** The test of the second loop: the count of the type differs. *)
Definition countDiffers (shapeCounts : gmap string Z) (expected : ExpectedCount)
    : bool :=
  negb (default 0 (shapeCounts !! ec_type expected) =? count expected).

(** The test of the third loop: the first expected entry of the type of
    the shape exists and the area of the shape is outside its range. *)
Definition areaOutside (expectedShapes : list ExpectedCount)
    (shape : DetectedShape) : bool :=
  match find (fun s => bool_decide (ec_type s = typeName (shape_type shape)))
             expectedShapes with
  | Some expected =>
      (area shape <? minArea expected) || (maxArea expected <? area shape)
  | None => false
  end.

Definition evaluateResult (testCase : TestImage) (result : DetectionResult)
    : bool :=
  let shapeCounts := foldl countStep ∅ (shapes result) in
  if existsb (countDiffers shapeCounts) (ti_expectedShapes testCase) then false
  else if existsb (areaOutside (ti_expectedShapes testCase)) (shapes result)
  then false
  else true.

(** The verdict [passed] of [runTest] on the image data read from the
    canvas of the test case. *)
Definition runTestPassed (s : Detector) (testCase : TestImage)
    (imageData : ImageData) (startTime endTime : R) : option bool :=
  match detectShapes s imageData startTime endTime with
  | Some (_, result) => Some (evaluateResult testCase result)
  | None => None
  end.
(** * Definitions used to state the properties *)

(** ** Cells, grids and the raster *)

Definition inBounds (w h : Z) (p : Pixel) : Prop :=
  0 ≤ px p < w ∧ 0 ≤ py p < h.

(** A grid with [h] rows of [w] cells each. *)
Definition wf_matrix (w h : Z) (m : Matrix) : Prop :=
  length m = Z.to_nat h ∧ Forall (fun row => length row = Z.to_nat w) m.

Definition at_pixel (m : Matrix) (p : Pixel) : bool := mat_get m (px p) (py p).

(** Every cell marked in [m] is marked in [m']. *)
Definition grid_le (m m' : Matrix) : Prop :=
  ∀ x y, mat_get m x y = true → mat_get m' x y = true.

(** All cells of a [w] by [h] image in the order of the two nested loops
    of [detectShapes]: row by row, each row from left to right. *)
Definition raster (w h : Z) : list Pixel :=
  mjoin (map (fun y => map (fun x => mkPixel x y) (seqZ 0 w)) (seqZ 0 h)).

(** The scan body on a cell given as a pixel. *)
Definition scanPixel (st : Scan) (p : Pixel) : option Scan :=
  scanCell st (px p) (py p).

(** The foreground mask [detectShapes] computes for an image. *)
Definition foregroundMask (img : ImageData) : Matrix :=
  map (fun y => map (fun x => isForegroundAt (img_data img) (img_width img) x y)
                    (seqZ 0 (img_width img)))
      (seqZ 0 (img_height img)).

(** The binarizer's verdict on a cell of the image. *)
Definition foreground (img : ImageData) (p : Pixel) : bool :=
  isForegroundAt (img_data img) (img_width img) (px p) (py p).

(** ** Neighbours and connectivity *)

(** [n] is one of the 8 neighbours of [p], as the inner loop of
    [floodFill] enumerates them. *)
Definition adjacent (p n : Pixel) : Prop :=
  ∃ i, (i < 8)%nat ∧ px n = px p + dx !!! i ∧ py n = py p + dy !!! i.

(** Every foreground neighbour in the image of a pixel of [pixels] is
    marked in [vis]. *)
Definition NeighboursMarked (w h : Z) (bm vis : Matrix) (pixels : list Pixel)
    : Prop :=
  ∀ p n, p ∈ pixels → adjacent p n → inBounds w h n →
         at_pixel bm n = true → at_pixel vis n = true.

(** Every foreground neighbour in the image of a pixel of [r] lies in [r]. *)
Definition ClosedRegion (w h : Z) (bm : Matrix) (r : list Pixel) : Prop :=
  ∀ p n, p ∈ r → adjacent p n → inBounds w h n →
         at_pixel bm n = true → n ∈ r.

(** [q] is reached from [p] by steps between neighbours that stay on the
    cells of the image where [ink] holds. *)
Inductive reach (w h : Z) (ink : Pixel -> bool) : Pixel -> Pixel -> Prop :=
  | reach_here p : reach w h ink p p
  | reach_step p n q :
      adjacent p n -> inBounds w h n -> ink n = true ->
      reach w h ink n q -> reach w h ink p q.

(** ** Invariants *)

(** What holds of the visited grid [vis] and of the cells [L] found so far
    by one fill (those already output, then those still queued), in an
    image of [w] by [h] cells with foreground mask [bm], where [V0] is the
    visited grid when the fill was called. *)
Record Discovered (w h : Z) (bm V0 vis : Matrix) (L : list Pixel) : Prop :=
  mkDiscovered {
    disc_wf : wf_matrix w h vis;
    disc_nodup : NoDup L;
    disc_fresh : ∀ p, p ∈ L →
      inBounds w h p ∧ at_pixel bm p = true ∧ at_pixel V0 p = false;
    disc_vis : ∀ p, inBounds w h p →
      at_pixel vis p = at_pixel V0 p || bool_decide (p ∈ L)
  }.

Arguments disc_wf {w h bm V0 vis L} _.
Arguments disc_nodup {w h bm V0 vis L} _.
Arguments disc_fresh {w h bm V0 vis L} _ _ _.
Arguments disc_vis {w h bm V0 vis L} _ _ _.

(** What holds between two cells of the scan, for an image of [w] by [h]
    cells with foreground mask [bm]. *)
Record ScanInv (w h : Z) (bm : Matrix) (st : Scan) : Prop := mkScanInv {
  si_width : width (sc_det st) = w;
  si_height : height (sc_det st) = h;
  si_bm : binaryMatrix (sc_det st) = bm;
  si_wf : wf_matrix w h (visited (sc_det st));
  si_nodup : NoDup (mjoin (sc_filled st));
  si_fg : ∀ p, p ∈ mjoin (sc_filled st) →
    inBounds w h p ∧ at_pixel bm p = true;
  si_vis : ∀ p, inBounds w h p →
    at_pixel (visited (sc_det st)) p = bool_decide (p ∈ mjoin (sc_filled st));
  si_handed : sc_handed st
    = filter (fun r => (minShapeSize < length r)%nat) (sc_filled st);
  si_shapes : ∀ s, width s = w → height s = h →
    sc_shapes st = omap (analyzeShape s) (sc_handed st);
  si_nonempty : ∀ r, r ∈ sc_filled st → r ≠ [];
  si_closed : ∀ r, r ∈ sc_filled st → ClosedRegion w h bm r
}.

(** ** Definitions that follow the words of the specification *)

(** The Euclidean distance between two pixels. *)
Definition euclid (p q : Pixel) : R :=
  sqrt (IZR ((px q - px p) * (px q - px p) + (py q - py p) * (py q - py p))).

(** The sum of the distances between consecutive pixels of a list. *)
Fixpoint pathLength (l : list Pixel) : R :=
  match l with
  | p :: rest =>
      match rest with
      | q :: _ => (euclid p q + pathLength rest)%R
      | [] => 0%R
      end
  | [] => 0%R
  end.

(** The same, wrapping from the last pixel back to the first. *)
Definition closedWalkLength (pixels : list Pixel) : R :=
  match pixels with
  | [] => 0%R
  | p0 :: _ => pathLength (pixels ++ [p0])
  end.

(** The arithmetic mean of a list of integers. *)
Definition mean (l : list Z) : R :=
  (IZR (foldr Z.add 0%Z l) / INR (length l))%R.

(** [m] is the least, respectively the greatest, element of [l]. *)
Definition is_min (m : Z) (l : list Z) : Prop := m ∈ l ∧ ∀ x, x ∈ l → m ≤ x.
Definition is_max (m : Z) (l : list Z) : Prop := m ∈ l ∧ ∀ x, x ∈ l → x ≤ m.

(** The perimeter step of [analyzeShape] read on the list with its head
    repeated at the end: no index arithmetic modulo the length is left.
    Used to relate the loop to [closedWalkLength]. *)
Definition walkStep (ext : list Pixel) (acc : R) (i : nat) : R :=
  match ext !! S i, ext !! i with
  | Some q, Some p => (acc + euclid p q)%R
  | _, _ => acc
  end.

(** ** Test images *)

Definition black : list Z := [0; 0; 0; 255].
Definition white : list Z := [255; 255; 255; 255].

(** An opaque [w] by [h] image: black where [ink] holds, white elsewhere. *)
Definition paint (w h : Z) (ink : Pixel -> bool) : ImageData :=
  mkImageData w h
    (mjoin (map (fun p => if ink p then black else white) (raster w h))).

(** A row of 20 black pixels: one region of exactly 20 pixels. *)
Definition stripe20 : ImageData := paint 20 1 (fun _ => true).

(** The filled disk of radius 50 around (100, 100) on a 200 by 200 white
    canvas. *)
Definition inDisk (p : Pixel) : bool :=
  (px p - 100) * (px p - 100) + (py p - 100) * (py p - 100) <=? 50 * 50.

Definition diskImage : ImageData := paint 200 200 inDisk.

(** The cells of the disk in raster order. *)
Definition diskCells : list Pixel :=
  filter (fun p => inDisk p = true) (raster 200 200).

(** The coordinate [v] moved one step towards [c]. *)
Definition toward (c v : Z) : Z :=
  if v <? c then v + 1 else if c <? v then v - 1 else v.

(** The neighbour of [p] one step closer to the centre of the disk. *)
Definition towardCentre (p : Pixel) : Pixel :=
  mkPixel (toward 100 (px p)) (toward 100 (py p)).

(** The shape [analyzeShape] returns for the region of the disk. *)
Definition diskShape : DetectedShape :=
  mkDetectedShape square (0.85 * (7845 / 10201))%R
    (mkBoundingBox 50 50 101 101) (100%R, 100%R) 7845.

From stdpp Require Import sorting.

Local Open Scope Z_scope.

(** ** Further definitions: connected regions *)

(** Every pixel of [r] is reached from one of them through foreground
    cells of the image. *)
Definition Connected (w h : Z) (bm : Matrix) (r : list Pixel) : Prop :=
  ∃ p0, p0 ∈ r ∧ ∀ q, q ∈ r → reach w h (at_pixel bm) p0 q.





(** The number of shapes of the type named [type]. *)
Definition countOfType (type : string) (l : list DetectedShape) : Z :=
  Z.of_nat (length (filter (fun sh => typeName (shape_type sh) = type) l)).

(** The manager after the calls [calls] on a new manager. *)
Definition managerAfter (cases : list TestCase) (calls : list Call) : Manager :=
  foldl afterCall (newManager cases) calls.

(** A number in the interval from 0 to 1. *)
Definition isRatio (a : JsNum) : Prop :=
  ∃ q, a = Finite q ∧ (0 <= q <= 1)%R.

(** The sum of the areas of a list of shapes. *)
Definition sumAreas (l : list DetectedShape) : Z :=
  foldr (fun sh acc => area sh + acc) 0 l.

(** The number of foreground cells of an image. *)
Definition foregroundCount (img : ImageData) : Z :=
  Z.of_nat (length (filter (fun p => foreground img p = true)
                           (raster (img_width img) (img_height img)))).

(** The confidence the chain of [analyzeShape] gives to a type, for the
    extent [e]. *)
Definition rawConfidence (t : ShapeType) (e : R) : R :=
  match t with
  | circle => 0
  | square => 0.85 * e
  | rectangle => 0.8 * e
  | triangle => 0.7 * (1 - e)
  | pentagon => 0.6
  end.

(** The numbers of detected and of expected shapes of the type named
    [type]. *)
Definition countDetected (type : string) (l : list Detection) : Z :=
  Z.of_nat (length (filter (fun d => det_type d = type) l)).

Definition countExpected (type : string) (l : list ExpectedShape) : Z :=
  Z.of_nat (length (filter (fun e => ex_type e = type) l)).

(** The type names that occur in a test case or among the detected
    shapes. *)
Definition occurringTypes (testCase : TestCase) (l : list Detection)
    : list string :=
  (ex_type <$> tc_expectedShapes testCase) ++ (det_type <$> l).

(** [p] comes before [q] in the order of the scan: row by row, and from
    left to right in a row. *)
Definition rasterBefore (p q : Pixel) : Prop :=
  py p < py q ∨ (py p = py q ∧ px p < px q).

(** The first pixel of [r] comes before the first pixel of [r'] in the
    order of the scan. *)
Definition startsBefore (r r' : list Pixel) : Prop :=
  ∀ q q', head r = Some q → head r' = Some q' → rasterBefore q q'.
(** * Properties *)

(** ** Grids of the right shape *)

Lemma mat_get_set_eq w h m x y b :
  wf_matrix w h m → 0 ≤ x < w → 0 ≤ y < h →
  mat_get (mat_set m x y b) x y = b.
Proof.
  intros [Hlen Hrows] Hx Hy. unfold mat_get, mat_set.
  destruct (lookup_lt_is_Some_2 m (Z.to_nat y)) as [row Hrow]; [lia|].
  rewrite list_lookup_alter_eq, Hrow. simpl.
  rewrite list_lookup_insert_eq; [done|].
  rewrite Forall_lookup in Hrows. specialize (Hrows _ _ Hrow).
  simpl in Hrows. lia.
Qed.

Lemma mat_get_set_ne m x y b x' y' :
  0 ≤ x → 0 ≤ y → 0 ≤ x' → 0 ≤ y' → (x ≠ x' ∨ y ≠ y') →
  mat_get (mat_set m x y b) x' y' = mat_get m x' y'.
Proof.
  intros Hx Hy Hx' Hy' Hne. unfold mat_get, mat_set.
  destruct (decide (Z.to_nat y = Z.to_nat y')) as [Heq|Hneq].
  - rewrite <- Heq, list_lookup_alter_eq.
    destruct (m !! Z.to_nat y) as [row|]; simpl; [|done].
    rewrite list_lookup_insert_ne; [done|lia].
  - by rewrite list_lookup_alter_ne.
Qed.

Lemma wf_mat_set w h m x y b :
  wf_matrix w h m → wf_matrix w h (mat_set m x y b).
Proof.
  intros [Hlen Hrows]. split; unfold mat_set.
  - by rewrite length_alter.
  - apply Forall_alter; [done|]. intros row _ Hrow.
    by rewrite length_insert.
Qed.

Lemma at_pixel_set_eq w h m p b :
  wf_matrix w h m → inBounds w h p →
  at_pixel (mat_set m (px p) (py p) b) p = b.
Proof. intros Hwf [??]. by eapply mat_get_set_eq. Qed.

Lemma at_pixel_set_ne w h m p q b :
  inBounds w h p → inBounds w h q → p ≠ q →
  at_pixel (mat_set m (px p) (py p) b) q = at_pixel m q.
Proof.
  intros [??] [??] Hne. apply mat_get_set_ne; try lia.
  destruct p as [x y], q as [x' y']; simpl in *.
  destruct (decide (x = x')); [|by left].
  destruct (decide (y = y')); [|by right]. congruence.
Qed.

(** [initializeVisited] builds an all-false grid of the image's shape. *)
Lemma initializeVisited_wf s :
  wf_matrix (width s) (height s) (visited (initializeVisited s)).
Proof.
  unfold initializeVisited; simpl. split.
  - by rewrite length_map, length_seqZ.
  - apply Forall_map, Forall_forall. intros y _. simpl.
    by rewrite length_replicate.
Qed.

Lemma initializeVisited_false s x y :
  mat_get (visited (initializeVisited s)) x y = false.
Proof.
  unfold initializeVisited, mat_get; simpl.
  rewrite list_lookup_fmap.
  destruct (seqZ 0 (height s) !! Z.to_nat y); simpl; [|done].
  destruct (replicate (Z.to_nat (width s)) false !! Z.to_nat x) as [b|] eqn:E;
    [|done].
  apply lookup_replicate in E as [-> _]. done.
Qed.

Lemma elem_of_raster w h p : p ∈ raster w h ↔ inBounds w h p.
Proof.
  unfold raster, inBounds. rewrite list_elem_of_join. split.
  - intros (row & Hp & Hrow).
    apply list_elem_of_fmap in Hrow as (y & -> & Hy).
    apply list_elem_of_fmap in Hp as (x & -> & Hx).
    apply elem_of_seqZ in Hx, Hy. simpl. lia.
  - intros [Hx Hy]. exists (map (fun x => mkPixel x (py p)) (seqZ 0 w)). split.
    + apply list_elem_of_fmap. exists (px p). split; [by destruct p|].
      apply elem_of_seqZ. lia.
    + apply list_elem_of_fmap. exists (py p). split; [done|].
      apply elem_of_seqZ. lia.
Qed.

Lemma length_raster w h : length (raster w h) = (Z.to_nat h * Z.to_nat w)%nat.
Proof.
  unfold raster.
  assert (Hgen : ∀ l : list Z,
    length (mjoin (map (fun y => map (fun x => mkPixel x y) (seqZ 0 w)) l))
    = (length l * Z.to_nat w)%nat).
  { induction l as [|a l IH]; simpl; [done|].
    rewrite length_app, IH, length_map, length_seqZ. done. }
  by rewrite Hgen, length_seqZ.
Qed.

Lemma NoDup_raster w h : NoDup (raster w h).
Proof.
  unfold raster.
  assert (Hgen : ∀ l : list Z, NoDup l →
    NoDup (mjoin (map (fun y => map (fun x => mkPixel x y) (seqZ 0 w)) l))).
  { induction l as [|a l IH]; intros Hl; simpl; [constructor|].
    apply NoDup_cons in Hl as [Ha Hl]. apply NoDup_app. split_and!.
    - apply NoDup_fmap_2; [|apply NoDup_seqZ]. intros x x' [=]. done.
    - intros p Hp Hp'. apply list_elem_of_fmap in Hp as (x & -> & _).
      apply list_elem_of_join in Hp' as (row & Hp' & Hrow).
      apply list_elem_of_fmap in Hrow as (y & -> & Hy).
      apply list_elem_of_fmap in Hp' as (x' & [= -> ->] & _). done.
    - by apply IH. }
  apply Hgen, NoDup_seqZ.
Qed.

(** A duplicate-free list of in-bounds pixels is no longer than the image
    has cells. *)
Lemma inBounds_length_le w h (L : list Pixel) :
  NoDup L → (∀ p, p ∈ L → inBounds w h p) →
  (length L ≤ Z.to_nat h * Z.to_nat w)%nat.
Proof.
  intros Hnd Hin. rewrite <- length_raster.
  apply submseteq_length, NoDup_submseteq; [done|].
  intros p Hp. by apply elem_of_raster, Hin.
Qed.

(** ** The flood fill *)

Section Flood.
Variables (w h : Z) (bm V0 : Matrix).

Local Abbreviation Disc := (Discovered w h bm V0).

Lemma canVisit_spec vis nx ny :
  canVisit w h bm vis nx ny = true ↔
  inBounds w h (mkPixel nx ny) ∧ mat_get bm nx ny = true
  ∧ mat_get vis nx ny = false.
Proof.
  unfold canVisit, inBounds; simpl.
  rewrite !andb_true_iff, negb_true_iff.
  rewrite !Z.leb_le, !Z.ltb_lt. tauto.
Qed.

(** Marking a fresh cell and queueing it keeps [Discovered]. *)
Lemma Discovered_push vis L n :
  Disc vis L →
  inBounds w h n → at_pixel bm n = true → at_pixel vis n = false →
  Disc (mat_set vis (px n) (py n) true) (L ++ [n]).
Proof.
  intros [Hwf Hnd Hfresh Hvis] Hin Hfg Hnv.
  pose proof (Hvis n Hin) as Hn. rewrite Hnv in Hn.
  symmetry in Hn. apply orb_false_iff in Hn as [HV0 HnL].
  apply bool_decide_eq_false in HnL.
  split.
  - by apply wf_mat_set.
  - apply NoDup_app. split_and!; [done| |apply NoDup_singleton].
    intros p Hp Hp'. apply list_elem_of_singleton in Hp'. by subst.
  - intros p Hp. apply elem_of_app in Hp as [Hp|Hp]; [by apply Hfresh|].
    apply list_elem_of_singleton in Hp. by subst.
  - intros p Hp. destruct (decide (n = p)) as [->|Hne].
    + rewrite (at_pixel_set_eq w h) by done.
      rewrite bool_decide_eq_true_2; [by rewrite orb_true_r|].
      apply elem_of_app. right. by apply list_elem_of_singleton.
    + rewrite (at_pixel_set_ne w h) by done. rewrite Hvis by done.
      f_equal. apply bool_decide_ext. rewrite elem_of_app.
      rewrite list_elem_of_singleton.
      split; [by left | intros [Hp'|Hp']; [done | congruence]].
Qed.

(** One neighbour: the queue only grows at its end. *)
Lemma visitNeighbour_Discovered pre x y vis q i :
  Disc vis (pre ++ q) →
  let st := visitNeighbour w h bm x y (vis, q) i in
  Disc st.1 (pre ++ st.2) ∧ ∃ extra, st.2 = q ++ extra.
Proof.
  intros HD. unfold visitNeighbour. simpl.
  destruct (canVisit w h bm vis (x + dx !!! i) (y + dy !!! i)) eqn:E; simpl.
  - apply canVisit_spec in E as (Hin & Hfg & Hnv). split; [|by eexists].
    rewrite app_assoc.
    by apply (Discovered_push vis (pre ++ q) (mkPixel _ _)).
  - split; [done|]. exists []. by rewrite app_nil_r.
Qed.

Lemma visitAll_Discovered pre x y idxs : ∀ vis q,
  Disc vis (pre ++ q) →
  let st := foldl (visitNeighbour w h bm x y) (vis, q) idxs in
  Disc st.1 (pre ++ st.2) ∧ ∃ extra, st.2 = q ++ extra.
Proof.
  induction idxs as [|i idxs IH]; intros vis q HD; simpl.
  - split; [done|]. exists []. by rewrite app_nil_r.
  - destruct (visitNeighbour_Discovered pre x y vis q i HD)
      as [HD1 [e1 He1]].
    destruct (visitNeighbour w h bm x y (vis, q) i) as [vis1 q1].
    simpl in *. destruct (IH vis1 q1 HD1) as [HD2 [e2 He2]].
    split; [done|]. exists (e1 ++ e2). rewrite He2, He1.
    by rewrite app_assoc.
Qed.

(** The loop ends within the fuel that [floodFill] gives it, and its
    output is the cells found: those already output, the queue, and the
    cells found later, in this order. *)
Lemma floodLoop_enough_fuel fuel : ∀ vis queue pixels,
  Disc vis (pixels ++ queue) →
  (Z.to_nat h * Z.to_nat w ≤ length pixels + fuel)%nat →
  ∃ vis' rest,
    floodLoop fuel w h bm vis queue pixels
      = Some (vis', pixels ++ queue ++ rest)
    ∧ Disc vis' (pixels ++ queue ++ rest).
Proof.
  induction fuel as [|fuel IH]; intros vis queue pixels HD Hfuel.
  - destruct queue as [|p queue'].
    + exists vis, []. simpl. by rewrite !app_nil_r in *.
    + exfalso.
      pose proof (inBounds_length_le w h _ (disc_nodup HD)
                    (fun p Hp => proj1 (disc_fresh HD p Hp))) as Hle.
      rewrite length_app in Hle. simpl in Hle. lia.
  - destruct queue as [|p queue'].
    + exists vis, []. simpl. by rewrite !app_nil_r in *.
    + cbn [floodLoop].
      assert (HD' : Disc vis ((pixels ++ [p]) ++ queue')).
      { by rewrite <- app_assoc. }
      pose proof (visitAll_Discovered (pixels ++ [p]) (px p) (py p)
                    (seq 0 8) vis queue' HD') as Hv.
      cbv zeta in Hv.
      destruct (foldl (visitNeighbour w h bm (px p) (py p)) (vis, queue')
                  (seq 0 8)) as [vis1 q1].
      destruct Hv as [HD1 [extra He]]. simpl in HD1, He. subst q1.
      destruct (IH vis1 (queue' ++ extra) (pixels ++ [p]) HD1)
        as (vis' & rest & Hrun & HD2).
      { rewrite length_app. simpl. lia. }
      exists vis', (extra ++ rest). simpl. rewrite Hrun.
      replace ((pixels ++ [p]) ++ (queue' ++ extra) ++ rest)
        with (pixels ++ (p :: queue') ++ extra ++ rest) in *
        by (by rewrite <- !app_assoc).
      done.
Qed.
End Flood.

(** ** The visited grid only grows *)

Lemma grid_le_refl m : grid_le m m.
Proof. by intros x y. Qed.

Lemma grid_le_trans m1 m2 m3 : grid_le m1 m2 → grid_le m2 m3 → grid_le m1 m3.
Proof. intros H12 H23 x y Hxy. by apply H23, H12. Qed.

Lemma mat_set_true_le m x y : grid_le m (mat_set m x y true).
Proof.
  intros x' y'. unfold mat_get, mat_set.
  destruct (decide (Z.to_nat y = Z.to_nat y')) as [Heq|Hneq].
  - rewrite <- Heq, list_lookup_alter_eq.
    destruct (m !! Z.to_nat y) as [row|]; simpl; [|done].
    destruct (decide (Z.to_nat x = Z.to_nat x')) as [Hxe|Hxn].
    + rewrite <- Hxe. destruct (row !! Z.to_nat x) as [b|] eqn:E; [|done].
      intros _. rewrite list_lookup_insert_eq; [done|].
      by eapply lookup_lt_Some.
    + by rewrite list_lookup_insert_ne.
  - by rewrite list_lookup_alter_ne.
Qed.

Lemma visitNeighbour_le w h bm x y st i :
  grid_le st.1 (visitNeighbour w h bm x y st i).1.
Proof.
  unfold visitNeighbour. destruct (canVisit _ _ _ _ _ _); simpl.
  - apply mat_set_true_le.
  - apply grid_le_refl.
Qed.

Lemma visitAll_le w h bm x y idxs : ∀ st,
  grid_le st.1 (foldl (visitNeighbour w h bm x y) st idxs).1.
Proof.
  induction idxs as [|i idxs IH]; intros st; simpl; [apply grid_le_refl|].
  eapply grid_le_trans; [apply visitNeighbour_le|apply IH].
Qed.

Lemma floodLoop_le w h bm fuel : ∀ vis queue pixels vis' pixels',
  floodLoop fuel w h bm vis queue pixels = Some (vis', pixels') →
  grid_le vis vis'.
Proof.
  induction fuel as [|fuel IH]; intros vis queue pixels vis' pixels' Hrun;
    destruct queue as [|p queue']; cbn [floodLoop] in Hrun; simplify_eq;
    try apply grid_le_refl.
  eapply grid_le_trans; [|eapply IH, Hrun].
  apply (visitAll_le w h bm (px p) (py p) _ (vis, queue')).
Qed.

Lemma floodFill_le s x y s' pixels :
  floodFill s x y = Some (s', pixels) → grid_le (visited s) (visited s').
Proof.
  unfold floodFill. intros Hrun.
  destruct (floodLoop _ _ _ _ _ _ _) as [[vis px']|] eqn:E; simplify_eq.
  simpl. eapply grid_le_trans; [apply mat_set_true_le|].
  eapply floodLoop_le, E.
Qed.

(** [floodFill] writes no field but [visited]. *)
Lemma floodFill_fields s x y s' pixels :
  floodFill s x y = Some (s', pixels) → s' = set_visited (visited s') s.
Proof.
  unfold floodFill. intros Hrun.
  destruct (floodLoop _ _ _ _ _ _ _) as [[vis px']|]; by simplify_eq.
Qed.


(** ** Neighbours *)

Lemma adjacent_iff p n :
  adjacent p n ↔
  p ≠ n ∧ -1 ≤ px n - px p ≤ 1 ∧ -1 ≤ py n - py p ≤ 1.
Proof.
  split.
  - intros (i & Hi & Hx & Hy).
    do 8 (destruct i as [|i];
          [simpl in Hx, Hy; split; [intros ->; lia|lia]|]).
    lia.
  - intros (Hne & Hx & Hy).
    assert (Hcases : ∀ i : nat, (i < 8)%nat →
      px n - px p = dx !!! i → py n - py p = dy !!! i → adjacent p n).
    { intros i Hi Hdx Hdy. exists i. split_and!; [done|lia..]. }
    assert (px n - px p = -1 ∨ px n - px p = 0 ∨ px n - px p = 1)
      as [Ex|[Ex|Ex]] by lia;
    assert (py n - py p = -1 ∨ py n - py p = 0 ∨ py n - py p = 1)
      as [Ey|[Ey|Ey]] by lia.
    + by apply (Hcases 0%nat); [lia|..].
    + by apply (Hcases 3%nat); [lia|..].
    + by apply (Hcases 5%nat); [lia|..].
    + by apply (Hcases 1%nat); [lia|..].
    + exfalso. apply Hne. destruct p, n; simpl in *. f_equal; lia.
    + by apply (Hcases 6%nat); [lia|..].
    + by apply (Hcases 2%nat); [lia|..].
    + by apply (Hcases 4%nat); [lia|..].
    + by apply (Hcases 7%nat); [lia|..].
Qed.

Lemma adjacent_sym p n : adjacent p n → adjacent n p.
Proof.
  rewrite !adjacent_iff. intros (Hne & Hx & Hy).
  split_and!; [by intros ->|lia..].
Qed.

(** ** The flood fill marks every foreground neighbour *)

Lemma visitNeighbour_wf w h bm x y st i :
  wf_matrix w h st.1 → wf_matrix w h (visitNeighbour w h bm x y st i).1.
Proof.
  intros Hwf. unfold visitNeighbour.
  destruct (canVisit _ _ _ _ _ _); simpl; [by apply wf_mat_set|done].
Qed.

Lemma visitAll_wf w h bm x y idxs : ∀ st,
  wf_matrix w h st.1 → wf_matrix w h (foldl (visitNeighbour w h bm x y) st idxs).1.
Proof.
  induction idxs as [|i idxs IH]; intros st Hwf; simpl; [done|].
  by apply IH, visitNeighbour_wf.
Qed.

(** After the round for index [i], the neighbour of that index is marked
    when it is a foreground cell of the image. *)
Lemma visitNeighbour_marks w h bm x y st i :
  wf_matrix w h st.1 →
  inBounds w h (mkPixel (x + dx !!! i) (y + dy !!! i)) →
  mat_get bm (x + dx !!! i) (y + dy !!! i) = true →
  mat_get (visitNeighbour w h bm x y st i).1 (x + dx !!! i) (y + dy !!! i)
  = true.
Proof.
  intros Hwf Hin Hfg. unfold visitNeighbour.
  destruct (canVisit _ _ _ _ _ _) eqn:E; simpl.
  - destruct Hin as [Hx Hy]. by apply (mat_get_set_eq w h).
  - destruct (mat_get st.1 (x + dx !!! i) (y + dy !!! i)) eqn:Ev; [done|].
    assert (canVisit w h bm st.1 (x + dx !!! i) (y + dy !!! i) = true)
      by (by apply canVisit_spec).
    congruence.
Qed.

Lemma visitAll_marks w h bm x y idxs : ∀ st i,
  wf_matrix w h st.1 → i ∈ idxs →
  inBounds w h (mkPixel (x + dx !!! i) (y + dy !!! i)) →
  mat_get bm (x + dx !!! i) (y + dy !!! i) = true →
  mat_get (foldl (visitNeighbour w h bm x y) st idxs).1
          (x + dx !!! i) (y + dy !!! i) = true.
Proof.
  induction idxs as [|j idxs IH]; intros st i Hwf Hi Hin Hfg.
  - by apply elem_of_nil in Hi.
  - simpl. apply elem_of_cons in Hi as [->|Hi].
    + apply (visitAll_le w h bm x y idxs (visitNeighbour w h bm x y st j)).
      by apply visitNeighbour_marks.
    + apply IH; [by apply visitNeighbour_wf|done..].
Qed.

Lemma floodLoop_marks w h bm fuel : ∀ vis queue pixels vis' pixels',
  wf_matrix w h vis →
  NeighboursMarked w h bm vis pixels →
  floodLoop fuel w h bm vis queue pixels = Some (vis', pixels') →
  NeighboursMarked w h bm vis' pixels'.
Proof.
  induction fuel as [|fuel IH]; intros vis queue pixels vis' pixels' Hwf Hm Hrun;
    destruct queue as [|p queue']; cbn [floodLoop] in Hrun; simplify_eq;
    try done.
  eapply IH; [| |exact Hrun].
  - by apply (visitAll_wf w h bm (px p) (py p) (seq 0 8) (vis, queue')).
  - intros q n Hq Hadj Hin Hfg. apply elem_of_app in Hq as [Hq|Hq].
    + apply (visitAll_le w h bm (px p) (py p) (seq 0 8) (vis, queue')).
      by apply (Hm q n).
    + apply list_elem_of_singleton in Hq as ->.
      destruct Hadj as (i & Hi & Hx & Hy). unfold at_pixel in *.
      rewrite Hx, Hy in *.
      apply (visitAll_marks w h bm (px p) (py p) (seq 0 8) (vis, queue') i);
        [done| |by destruct n; simpl in *; subst|done].
      apply elem_of_seq. lia.
Qed.

(** [floodFill] called as [detectShapes] calls it: on a foreground cell in
    bounds that is not visited yet.  It returns, the start cell comes first
    in the region, and the detector changes in its visited grid only. *)
Lemma floodFill_spec s x y :
  wf_matrix (width s) (height s) (visited s) →
  inBounds (width s) (height s) (mkPixel x y) →
  mat_get (binaryMatrix s) x y = true →
  mat_get (visited s) x y = false →
  ∃ vis' rest,
    floodFill s x y = Some (set_visited vis' s, mkPixel x y :: rest)
    ∧ Discovered (width s) (height s) (binaryMatrix s) (visited s)
                 vis' (mkPixel x y :: rest)
    ∧ NeighboursMarked (width s) (height s) (binaryMatrix s)
                       vis' (mkPixel x y :: rest).
Proof.
  intros Hwf Hin Hfg Hnv. unfold floodFill.
  set (w := width s) in *. set (h := height s) in *.
  assert (HD0 : Discovered w h (binaryMatrix s) (visited s) (visited s) []).
  { split; [done|constructor| |].
    - intros p Hp. by apply elem_of_nil in Hp.
    - intros p _. by rewrite orb_false_r. }
  pose proof (Discovered_push w h _ _ _ _ (mkPixel x y) HD0 Hin Hfg Hnv)
    as HD1. simpl in HD1.
  destruct (floodLoop_enough_fuel w h (binaryMatrix s) (visited s)
              (Z.to_nat (w * h)) (mat_set (visited s) x y true)
              [mkPixel x y] [] HD1) as (vis' & rest & Hrun & HD2).
  { destruct Hin as [Hx Hy]. simpl in Hx, Hy. simpl.
    rewrite Z2Nat.inj_mul by lia. lia. }
  simpl in Hrun, HD2. rewrite Hrun. exists vis', rest. split_and!; [done..|].
  eapply (floodLoop_marks w h (binaryMatrix s)); [| |exact Hrun].
  - by apply wf_mat_set.
  - intros p n Hp. by apply elem_of_nil in Hp.
Qed.


(** ** Loops that may fail *)

Lemma forEach_app {A S : Type} (body : S → A → option S) l1 l2 st :
  forEach body (l1 ++ l2) st =
  match forEach body l1 st with
  | Some st' => forEach body l2 st'
  | None => None
  end.
Proof.
  revert st. induction l1 as [|a l1 IH]; intros st; simpl; [done|].
  destruct (body st a); [apply IH|done].
Qed.

Lemma forEach_map {A B S : Type} (f : A → B) (body : S → B → option S) l st :
  forEach body (map f l) st = forEach (fun st a => body st (f a)) l st.
Proof.
  revert st. induction l as [|a l IH]; intros st; simpl; [done|].
  destruct (body st (f a)); [apply IH|done].
Qed.

Lemma forEach_preserves {A S : Type} (P : S → Prop) (body : S → A → option S) l :
  (∀ st a st', P st → body st a = Some st' → P st') →
  ∀ st st', P st → forEach body l st = Some st' → P st'.
Proof.
  intros Hbody. induction l as [|a l IH]; intros st st' HP Hrun;
    simpl in Hrun; [by simplify_eq|].
  destruct (body st a) as [st1|] eqn:E; [|done]. eauto.
Qed.

(** A loop whose body keeps [I], never fails under [I], and establishes
    [Q a] for the element [a] it handles, where [Q a] once established is
    kept by later rounds. *)
Lemma forEach_invariant {A S : Type} (I : S → Prop) (Q : A → S → Prop)
    (body : S → A → option S) l :
  (∀ st a, a ∈ l → I st → ∃ st', body st a = Some st' ∧ I st' ∧ Q a st'
     ∧ ∀ b, Q b st → Q b st') →
  ∀ st, I st →
  ∃ st', forEach body l st = Some st' ∧ I st'
         ∧ (∀ a, a ∈ l → Q a st') ∧ ∀ b, Q b st → Q b st'.
Proof.
  induction l as [|a l IH]; intros Hbody st HI; simpl.
  - exists st. split_and!; [done..| |done]. intros a Ha.
    by apply elem_of_nil in Ha.
  - destruct (Hbody st a) as (st1 & Hst1 & HI1 & HQ1 & Hkeep1);
      [left|done|]. rewrite Hst1.
    destruct IH with (st := st1) as (st' & Hrun & HI' & HQ' & Hkeep');
      [|done|].
    { intros st2 b Hb. apply Hbody. by right. }
    exists st'. split_and!; [done..| |by auto].
    intros b Hb. apply elem_of_cons in Hb as [->|Hb]; auto.
Qed.

(** ** The scan *)

Lemma analyzeShape_dims s s' pixels :
  width s = width s' → height s = height s' →
  analyzeShape s pixels = analyzeShape s' pixels.
Proof. intros Hw Hh. unfold analyzeShape, analyzeLocals. by rewrite Hw, Hh. Qed.

(** [scanCell] writes no field of the detector but [visited]. *)
Lemma scanCell_fields st x y st' :
  scanCell st x y = Some st' →
  sc_det st' = set_visited (visited (sc_det st')) (sc_det st).
Proof.
  unfold scanCell. intros Hrun.
  destruct (_ && _).
  - destruct (floodFill _ _ _) as [[s1 region]|] eqn:E; [|done].
    apply floodFill_fields in E.
    destruct (_ <? _)%nat; by simplify_eq.
  - simplify_eq. by destruct (sc_det st').
Qed.

(** The nested loops visit the raster. *)
Lemma scanRows_raster st :
  scanRows st
  = forEach scanPixel (raster (width (sc_det st)) (height (sc_det st))) st.
Proof.
  unfold scanRows, raster.
  generalize (seqZ 0 (height (sc_det st))) as rows.
  set (w := width (sc_det st)).
  assert (Hw : width (sc_det st) = w) by done. clearbody w. revert st Hw.
  intros st Hw rows. revert st Hw.
  induction rows as [|y rows IH]; intros st Hw; simpl; [done|].
  rewrite forEach_app, forEach_map, Hw. unfold scanPixel at 1. simpl.
  destruct (forEach _ (seqZ 0 w) st) as [st1|] eqn:E; [|done].
  apply IH.
  eapply (forEach_preserves (fun st => width (sc_det st) = w)); [|done|done].
  intros st2 a st3 Hw2 Hcell. apply scanCell_fields in Hcell.
  rewrite Hcell. done.
Qed.

Lemma mjoin_snoc {A : Type} (ls : list (list A)) (l : list A) :
  mjoin (ls ++ [l]) = mjoin ls ++ l.
Proof. rewrite join_app. simpl. by rewrite app_nil_r. Qed.

Lemma ScanInv_fill w h bm st vis' region shapes' handed' :
  ScanInv w h bm st →
  Discovered w h bm (visited (sc_det st)) vis' region →
  NeighboursMarked w h bm vis' region →
  region ≠ [] →
  handed' = sc_handed st
            ++ filter (fun r => (minShapeSize < length r)%nat) [region] →
  (∀ s, width s = w → height s = h →
     shapes' = sc_shapes st
               ++ omap (analyzeShape s)
                    (filter (fun r => (minShapeSize < length r)%nat) [region])) →
  ScanInv w h bm
    (mkScan (set_visited vis' (sc_det st)) shapes'
            (sc_filled st ++ [region]) handed').
Proof.
  intros [Hw Hh Hbm Hwf Hnd Hfg Hvis Hhanded Hshapes Hnonempty Hclosed]
         [Dwf Dnd Dfresh Dvis] Hmarked Hne -> Hsh.
  split; simpl; try done.
  - rewrite mjoin_snoc. apply NoDup_app. split_and!; [done| |done].
    intros p Hp Hp'. destruct (Hfg p Hp) as [Hin _].
    destruct (Dfresh p Hp') as (_ & _ & HV0).
    rewrite (Hvis p Hin), bool_decide_eq_true_2 in HV0; done.
  - intros p. rewrite mjoin_snoc, elem_of_app. intros [Hp|Hp]; [by auto|].
    destruct (Dfresh p Hp) as (? & ? & _). done.
  - intros p Hin. rewrite (Dvis p Hin), (Hvis p Hin), mjoin_snoc.
    destruct (decide (p ∈ mjoin (sc_filled st))) as [Hp|Hp];
      destruct (decide (p ∈ region)) as [Hr|Hr];
      rewrite ?(bool_decide_eq_true_2 _ Hp), ?(bool_decide_eq_false_2 _ Hp),
              ?(bool_decide_eq_true_2 _ Hr), ?(bool_decide_eq_false_2 _ Hr);
      simpl; symmetry;
      (apply bool_decide_eq_true_2 || apply bool_decide_eq_false_2);
      rewrite elem_of_app; tauto.
  - by rewrite filter_app, Hhanded.
  - intros s Hsw Hsh'. rewrite (Hsh s Hsw Hsh'), omap_app.
    by rewrite (Hshapes s Hsw Hsh').
  - intros r Hr. apply elem_of_app in Hr as [Hr|Hr]; [by apply Hnonempty|].
    apply list_elem_of_singleton in Hr. by subst.
  - intros r Hr. apply elem_of_app in Hr as [Hr|Hr]; [by apply Hclosed|].
    apply list_elem_of_singleton in Hr as ->.
    intros p n Hp Hadj Hin Hfgn.
    pose proof (Hmarked p n Hp Hadj Hin Hfgn) as Hvn.
    rewrite (Dvis n Hin) in Hvn. apply orb_true_iff in Hvn as [HV0|Hn];
      [|by apply bool_decide_eq_true in Hn].
    exfalso. rewrite (Hvis n Hin) in HV0. apply bool_decide_eq_true in HV0.
    apply list_elem_of_join in HV0 as (r' & Hn' & Hr').
    destruct (Dfresh p Hp) as (Hinp & Hfgp & HV0p).
    assert (Hp' : p ∈ r').
    { apply (Hclosed r' Hr' n p Hn'); [by apply adjacent_sym|done..]. }
    rewrite (Hvis p Hinp), bool_decide_eq_true_2 in HV0p; [done|].
    apply list_elem_of_join. by exists r'.
Qed.

(** One cell of the scan, at a cell of the image: the body returns, keeps
    the invariant, only appends to the regions found, and afterwards the
    cell, when it is foreground, lies in a region. *)
Lemma scanPixel_inv w h bm st p :
  ScanInv w h bm st → inBounds w h p →
  ∃ st', scanPixel st p = Some st' ∧ ScanInv w h bm st'
    ∧ (∃ new, sc_filled st' = sc_filled st ++ new)
    ∧ (at_pixel bm p = true → p ∈ mjoin (sc_filled st')).
Proof.
  intros HI Hin.
  pose proof HI as [Hw Hh Hbm Hwf Hnd Hfg Hvis Hhanded Hshapes _ _].
  unfold scanPixel, scanCell. rewrite Hbm.
  fold (at_pixel bm p). fold (at_pixel (visited (sc_det st)) p).
  destruct (at_pixel bm p) eqn:Efg; simpl.
  - destruct (at_pixel (visited (sc_det st)) p) eqn:Ev; simpl.
    + exists st. split_and!; [done..|by exists []; rewrite app_nil_r|].
      intros _. rewrite (Hvis p Hin) in Ev.
      by apply bool_decide_eq_true in Ev.
    + destruct (floodFill_spec (sc_det st) (px p) (py p))
        as (vis' & rest & Hrun & HD & HM).
      { by rewrite Hw, Hh. } { rewrite Hw, Hh. by destruct p. }
      { by rewrite Hbm. } { done. }
      rewrite Hrun. rewrite Hw, Hh, Hbm in HD, HM.
      replace (mkPixel (px p) (py p)) with p in * by (by destruct p).
      set (region := p :: rest) in *.
      assert (Hp : p ∈ mjoin (sc_filled st ++ [region])).
      { rewrite mjoin_snoc, elem_of_app. right. left. }
      destruct (minShapeSize <? length region)%nat eqn:Esz.
      * eexists. split; [done|]. simpl. split_and!; [|by eexists|done].
        apply Nat.ltb_lt in Esz.
        eapply ScanInv_fill; [done..| |].
        -- rewrite filter_cons_True by done. done.
        -- intros s Hsw Hsh. rewrite filter_cons_True by done. simpl.
           rewrite (analyzeShape_dims (set_visited vis' (sc_det st)) s)
             by (simpl; congruence).
           by destruct (analyzeShape s region); rewrite ?app_nil_r.
      * eexists. split; [done|]. simpl. split_and!; [|by eexists|done].
        apply Nat.ltb_ge in Esz.
        eapply ScanInv_fill; [done..| |].
        -- rewrite filter_cons_False by lia. simpl. by rewrite app_nil_r.
        -- intros s _ _. rewrite filter_cons_False by lia. simpl.
           by rewrite app_nil_r.
  - exists st. split_and!; [done..|by exists []; rewrite app_nil_r|done].
Qed.

Lemma binaryMatrix_loaded s img :
  binaryMatrix (initializeVisited (initializeBinaryMatrix (loadImageData s img)))
  = foregroundMask img.
Proof. done. Qed.

Lemma lookup_seqZ_0 n (i : Z) : 0 ≤ i < n → seqZ 0 n !! Z.to_nat i = Some i.
Proof. intros Hi. rewrite lookup_seqZ_lt by lia. f_equal. lia. Qed.

Lemma at_pixel_foregroundMask img p :
  inBounds (img_width img) (img_height img) p →
  at_pixel (foregroundMask img) p = foreground img p.
Proof.
  intros [Hx Hy]. unfold at_pixel, mat_get, foregroundMask, foreground.
  rewrite list_lookup_fmap, lookup_seqZ_0 by done. simpl.
  rewrite list_lookup_fmap, lookup_seqZ_0 by done. done.
Qed.

(** The scan state [detectShapes] starts from satisfies the invariant. *)
Lemma ScanInv_start s img :
  ScanInv (img_width img) (img_height img) (foregroundMask img)
    (mkScan (initializeVisited (initializeBinaryMatrix (loadImageData s img)))
            [] [] []).
Proof.
  split; simpl; try done.
  - apply (initializeVisited_wf (initializeBinaryMatrix (loadImageData s img))).
  - constructor.
  - intros p Hp. by apply elem_of_nil in Hp.
  - intros p _. unfold at_pixel.
    by rewrite (initializeVisited_false
                  (initializeBinaryMatrix (loadImageData s img))).
  - intros r Hr. by apply elem_of_nil in Hr.
  - intros r Hr. by apply elem_of_nil in Hr.
Qed.

(** The scan of [detectShapes] returns on every image; at its end the
    invariant holds and every foreground cell lies in a region. *)
Lemma runScan_spec s img :
  ∃ st, runScan s img = Some st
    ∧ ScanInv (img_width img) (img_height img) (foregroundMask img) st
    ∧ ∀ p, inBounds (img_width img) (img_height img) p →
           foreground img p = true → p ∈ mjoin (sc_filled st).
Proof.
  unfold runScan. rewrite scanRows_raster. simpl.
  set (w := img_width img). set (h := img_height img).
  destruct (forEach_invariant
    (ScanInv w h (foregroundMask img))
    (fun p st => at_pixel (foregroundMask img) p = true →
                 p ∈ mjoin (sc_filled st))
    scanPixel (raster w h)) with
    (st := mkScan (initializeVisited
                     (initializeBinaryMatrix (loadImageData s img))) [] [] [])
    as (st' & Hrun & HI & HQ & _).
  - intros st p Hp HI. apply elem_of_raster in Hp.
    destruct (scanPixel_inv w h _ st p HI Hp)
      as (st' & Hrun & HI' & [new Hnew] & Hp').
    exists st'. split_and!; [done..|].
    intros q Hq Hfg. rewrite Hnew, join_app, elem_of_app. left. by apply Hq.
  - apply ScanInv_start.
  - exists st'. split_and!; [done..|].
    intros p Hin Hfg. apply HQ; [by apply elem_of_raster|].
    by rewrite at_pixel_foregroundMask.
Qed.

Lemma pixel_eta p : mkPixel (px p) (py p) = p.
Proof. by destruct p. Qed.

(** ** The byte layout of painted images *)

Lemma lookup_raster w h p :
  inBounds w h p →
  raster w h !! Z.to_nat (py p * w + px p) = Some p.
Proof.
  intros [Hx Hy]. unfold raster.
  replace (Z.to_nat (py p * w + px p))
    with (Z.to_nat (py p) * Z.to_nat w + Z.to_nat (px p))%nat
    by (rewrite Z2Nat.inj_add, Z2Nat.inj_mul by nia; done).
  apply (join_lookup_Some_same_length' (Z.to_nat w)).
  - apply Forall_map, Forall_forall. intros y _. simpl.
    by rewrite length_map, length_seqZ.
  - lia.
  - exists (map (fun x => mkPixel x (py p)) (seqZ 0 w)). split.
    + by rewrite list_lookup_fmap, lookup_seqZ_0.
    + rewrite list_lookup_fmap, lookup_seqZ_0 by done. simpl.
      by rewrite pixel_eta.
Qed.

(** The channel [c] of the pixel [p] sits at index [(y * w + x) * 4 + c]. *)
Lemma byteAt_paint w h ink p (c : nat) :
  inBounds w h p → (c < 4)%nat →
  byteAt (img_data (paint w h ink)) ((py p * w + px p) * 4 + Z.of_nat c)
  = (if ink p then black else white) !! c.
Proof.
  intros Hin Hc. pose proof Hin as [Hx Hy]. unfold byteAt, paint. simpl.
  assert (Hpos : 0 ≤ py p * w + px p) by nia.
  destruct (Z.ltb_spec ((py p * w + px p) * 4 + Z.of_nat c) 0) as [Hneg|_];
    [lia|].
  replace (Z.to_nat ((py p * w + px p) * 4 + Z.of_nat c))
    with (Z.to_nat (py p * w + px p) * 4 + c)%nat by lia.
  destruct ((if ink p then black else white) !! c) as [v|] eqn:E.
  - apply (join_lookup_Some_same_length' 4); [|done|].
    + apply Forall_map, Forall_forall. intros q _. simpl.
      by destruct (ink q).
    + exists (if ink p then black else white). split; [|done].
      by rewrite list_lookup_fmap, lookup_raster.
  - apply lookup_ge_None in E. destruct (ink p); simpl in E; lia.
Qed.

Lemma foreground_paint w h ink p :
  inBounds w h p → foreground (paint w h ink) p = ink p.
Proof.
  intros Hin. unfold foreground, isForegroundAt.
  change (img_width (paint w h ink)) with w.
  set (i := (py p * w + px p) * 4).
  assert (H0 : byteAt (img_data (paint w h ink)) i
               = (if ink p then black else white) !! 0%nat).
  { rewrite <- (byteAt_paint w h ink p 0 Hin) by lia. f_equal. lia. }
  assert (H1 : byteAt (img_data (paint w h ink)) (i + 1)
               = (if ink p then black else white) !! 1%nat).
  { by rewrite <- (byteAt_paint w h ink p 1 Hin) by lia. }
  assert (H2 : byteAt (img_data (paint w h ink)) (i + 2)
               = (if ink p then black else white) !! 2%nat).
  { by rewrite <- (byteAt_paint w h ink p 2 Hin) by lia. }
  rewrite H0, H1, H2. by destruct (ink p).
Qed.

(** ** Reading the buffer; the start of a run *)

Lemma lt240_Some v : lt240 (Some v) = true ↔ v < 240.
Proof. simpl. apply Z.ltb_lt. Qed.

Lemma byteAt_nonneg d i : 0 ≤ i → byteAt d i = d !! Z.to_nat i.
Proof. intros Hi. unfold byteAt. by destruct (Z.ltb_spec i 0); [lia|]. Qed.

(** What [detectShapes] starts its scan from is the same whatever the
    detector held before. *)
Lemma initial_state_independent s s' img :
  initializeVisited (initializeBinaryMatrix (loadImageData s img))
  = initializeVisited (initializeBinaryMatrix (loadImageData s' img)).
Proof. done. Qed.

(** ** Regions partition the foreground *)

(** In a duplicate-free concatenation a member lies in one list only. *)
Lemma NoDup_join_unique {A : Type} (ls : list (list A)) : ∀ i j l l' x,
  NoDup (mjoin ls) →
  ls !! i = Some l → ls !! j = Some l' → x ∈ l → x ∈ l' → i = j.
Proof.
  induction ls as [|l0 ls IH]; intros i j l l' x Hnd Hi Hj Hx Hx'.
  - done.
  - simpl in Hnd. apply NoDup_app in Hnd as (Hnd0 & Hdisj & Hnd1).
    destruct i as [|i], j as [|j]; simpl in Hi, Hj; simplify_eq.
    + done.
    + exfalso. apply (Hdisj x Hx). apply list_elem_of_join.
      exists l'. split; [done|]. by eapply list_elem_of_lookup_2.
    + exfalso. apply (Hdisj x Hx'). apply list_elem_of_join.
      exists l. split; [done|]. by eapply list_elem_of_lookup_2.
    + f_equal. by eapply IH.
Qed.

(** One cell of the scan, whatever the state: the visited grid only grows
    and the regions found so far stay as they are. *)
Lemma scanPixel_grows st p st' :
  scanPixel st p = Some st' →
  grid_le (visited (sc_det st)) (visited (sc_det st'))
  ∧ sc_filled st `prefix_of` sc_filled st'.
Proof.
  unfold scanPixel, scanCell. intros Hrun.
  destruct (_ && _).
  - destruct (floodFill _ _ _) as [[s1 region]|] eqn:E; [|done].
    apply floodFill_le in E.
    destruct (_ <? _)%nat; simplify_eq; simpl;
      (split; [done|by apply prefix_app_r]).
  - simplify_eq. split; [apply grid_le_refl|done].
Qed.

Lemma scan_grows cells : ∀ st st',
  forEach scanPixel cells st = Some st' →
  grid_le (visited (sc_det st)) (visited (sc_det st'))
  ∧ sc_filled st `prefix_of` sc_filled st'.
Proof.
  induction cells as [|p cells IH]; intros st st' Hrun; simpl in Hrun.
  - simplify_eq. split; [apply grid_le_refl|done].
  - destruct (scanPixel st p) as [st1|] eqn:E; [|done].
    destruct (scanPixel_grows _ _ _ E) as [Hle Hpre].
    destruct (IH _ _ Hrun) as [Hle' Hpre'].
    split; [by eapply grid_le_trans|by etrans].
Qed.

(** The regions, laid end to end, are the foreground cells of the raster
    in some order. *)
Lemma regions_Permutation s img st :
  runScan s img = Some st →
  mjoin (sc_filled st)
  ≡ₚ filter (fun p => foreground img p = true)
            (raster (img_width img) (img_height img)).
Proof.
  intros Hrun. destruct (runScan_spec s img) as (st' & Hrun' & HI & Hall).
  rewrite Hrun in Hrun'. injection Hrun' as <-.
  apply NoDup_Permutation.
  - apply (si_nodup _ _ _ _ HI).
  - apply NoDup_filter, NoDup_raster.
  - intros p. rewrite list_elem_of_filter, elem_of_raster. split.
    + intros Hp. destruct (si_fg _ _ _ _ HI p Hp) as [Hin Hfg].
      by rewrite at_pixel_foregroundMask in Hfg.
    + intros [Hfg Hin]. by apply Hall.
Qed.

Lemma NoDup_join_elem {A : Type} (ls : list (list A)) l :
  NoDup (mjoin ls) → l ∈ ls → NoDup l.
Proof.
  induction ls as [|l0 ls IH]; intros Hnd Hl.
  - by apply elem_of_nil in Hl.
  - simpl in Hnd. apply NoDup_app in Hnd as (Hnd0 & _ & Hnd1).
    apply elem_of_cons in Hl as [->|Hl]; auto.
Qed.

(** The regions [detectShapes] passes to [analyzeShape]: more than 20
    pixels, no pixel twice, all of them foreground cells of the image. *)
Lemma handed_region s img st r :
  runScan s img = Some st → r ∈ sc_handed st →
  (minShapeSize < length r)%nat ∧ NoDup r
  ∧ ∀ p, p ∈ r → inBounds (img_width img) (img_height img) p
                 ∧ foreground img p = true.
Proof.
  intros Hrun Hr. destruct (runScan_spec s img) as (st' & Hrun' & HI & _).
  rewrite Hrun in Hrun'. injection Hrun' as <-.
  rewrite (si_handed _ _ _ _ HI) in Hr.
  apply list_elem_of_filter in Hr as [Hlen Hr]. split_and!; [done| |].
  - eapply NoDup_join_elem; [apply (si_nodup _ _ _ _ HI)|done].
  - intros p Hp.
    destruct (si_fg _ _ _ _ HI p) as [Hin Hfg].
    { apply list_elem_of_join. by exists r. }
    by rewrite at_pixel_foregroundMask in Hfg.
Qed.

Lemma scan_dims s img st :
  runScan s img = Some st →
  width (sc_det st) = img_width img ∧ height (sc_det st) = img_height img.
Proof.
  intros Hrun. destruct (runScan_spec s img) as (st' & Hrun' & HI & _).
  rewrite Hrun in Hrun'. injection Hrun' as <-.
  split; [apply (si_width _ _ _ _ HI)|apply (si_height _ _ _ _ HI)].
Qed.

Lemma scan_handed s img st :
  runScan s img = Some st →
  sc_handed st = filter (fun r => (minShapeSize < length r)%nat) (sc_filled st).
Proof.
  intros Hrun. destruct (runScan_spec s img) as (st' & Hrun' & HI & _).
  rewrite Hrun in Hrun'. injection Hrun' as <-.
  apply (si_handed _ _ _ _ HI).
Qed.

(** ** The classification chain and the confidence *)

Lemma finalConfidence_bounds conf areaN :
  (0.1 <= finalConfidence conf areaN <= 0.99)%R.
Proof.
  unfold finalConfidence, Rmax, Rmin.
  repeat destruct (Rle_dec _ _); lra.
Qed.

(** [analyzeShape] returns a shape exactly when the region has at least 10
    pixels and the final confidence is not below 0.6; the shape is then
    made of the local variables. *)
Lemma analyzeShape_Some s pixels shape :
  analyzeShape s pixels = Some shape ↔
  (10 ≤ length pixels)%nat
  ∧ ¬ (l_confidence (analyzeLocals s pixels) < 0.6)%R
  ∧ shape = mkDetectedShape
      (l_type (analyzeLocals s pixels))
      (l_confidence (analyzeLocals s pixels))
      (mkBoundingBox (minX (l_bounds (analyzeLocals s pixels)))
                     (minY (l_bounds (analyzeLocals s pixels)))
                     (l_width (analyzeLocals s pixels))
                     (l_height (analyzeLocals s pixels)))
      (l_centerX (analyzeLocals s pixels), l_centerY (analyzeLocals s pixels))
      (l_area (analyzeLocals s pixels)).
Proof.
  unfold analyzeShape.
  destruct (Nat.ltb_spec (length pixels) 10) as [Hlt|Hge].
  - split; [done|]. intros [? _]. lia.
  - case_bool_decide as Hconf.
    + split; [done|]. by intros (_ & ? & _).
    + split; [by intros [= <-]|]. by intros (_ & _ & ->).
Qed.

Lemma analyzeShape_None s pixels :
  analyzeShape s pixels = None ↔
  (length pixels < 10)%nat ∨ (l_confidence (analyzeLocals s pixels) < 0.6)%R.
Proof.
  unfold analyzeShape.
  destruct (Nat.ltb_spec (length pixels) 10) as [Hlt|Hge].
  - split; [by left|done].
  - case_bool_decide as Hconf.
    + split; [by right|done].
    + split; [done|]. intros [?|?]; [lia|done].
Qed.

Lemma l_confidence_bounds s pixels :
  (0.1 <= l_confidence (analyzeLocals s pixels) <= 0.99)%R.
Proof. apply finalConfidence_bounds. Qed.

(** What [detectShapes] returns, from the history of its scan. *)
Lemma detectShapes_runScan s img t0 t1 st :
  runScan s img = Some st →
  detectShapes s img t0 t1
  = Some (sc_det st,
          mkDetectionResult
            (omap (analyzeShape (sc_det st))
                  (filter (fun r => (minShapeSize < length r)%nat)
                          (sc_filled st)))
            (mkImageStats (img_width img) (img_height img) (t1 - t0)%R)).
Proof.
  intros Hrun. destruct (runScan_spec s img) as (st' & Hrun' & HI & _).
  rewrite Hrun in Hrun'. injection Hrun' as <-.
  unfold detectShapes. rewrite Hrun.
  destruct HI as [Hw Hh _ _ _ _ _ Hhanded Hshapes].
  by rewrite (Hshapes (sc_det st) Hw Hh), Hhanded, Hw, Hh.
Qed.

(** ** The perimeter loop *)

Lemma foldl_ext_in {A B : Type} (f g : A → B → A) (l : list B) : ∀ a,
  (∀ a x, x ∈ l → f a x = g a x) → foldl f a l = foldl g a l.
Proof.
  induction l as [|x l IH]; intros a Hfg; simpl; [done|].
  rewrite Hfg by left. apply IH. intros a' y Hy. apply Hfg. by right.
Qed.

Lemma perimeterStep_walkStep p0 rest acc i :
  (i < length (p0 :: rest))%nat →
  perimeterStep (p0 :: rest) acc i
  = walkStep ((p0 :: rest) ++ [p0]) acc i.
Proof.
  intros Hi. unfold perimeterStep, walkStep.
  set (pixels := p0 :: rest) in *.
  rewrite (lookup_app_l pixels [p0] i) by done.
  destruct (decide (S i = length pixels)) as [Hlast|Hnot].
  - replace (i + 1)%nat with (length pixels) by lia.
    rewrite Nat.Div0.mod_same. rewrite Hlast.
    rewrite list_lookup_middle by done. done.
  - rewrite Nat.mod_small by lia. replace (i + 1)%nat with (S i) by lia.
    rewrite (lookup_app_l pixels [p0] (S i)) by lia. done.
Qed.

Lemma walk_pathLength l2 : ∀ l1 acc,
  foldl (walkStep (l1 ++ l2)) acc (seq (length l1) (length l2 - 1))
  = (acc + pathLength l2)%R.
Proof.
  induction l2 as [|p l2 IH]; intros l1 acc.
  - simpl. lra.
  - destruct l2 as [|q l2].
    + simpl. lra.
    + replace (length (p :: q :: l2) - 1)%nat with (S (length (q :: l2) - 1))
        by (simpl; lia).
      cbn [seq foldl].
      assert (Hstep : walkStep (l1 ++ p :: q :: l2) acc (length l1)
                      = (acc + euclid p q)%R).
      { unfold walkStep.
        rewrite (list_lookup_middle l1 (q :: l2) p (length l1)) by done.
        replace (l1 ++ p :: q :: l2) with ((l1 ++ [p]) ++ q :: l2)
          by (by rewrite <- app_assoc).
        rewrite (list_lookup_middle (l1 ++ [p]) l2 q (S (length l1)));
          [done|]. rewrite length_app. simpl. lia. }
      rewrite Hstep.
      replace (l1 ++ p :: q :: l2) with ((l1 ++ [p]) ++ q :: l2)
        by (by rewrite <- app_assoc).
      replace (S (length l1)) with (length (l1 ++ [p]))
        by (rewrite length_app; simpl; lia).
      rewrite IH. cbn [pathLength]. lra.
Qed.

Lemma perimeterOf_closedWalk pixels :
  perimeterOf pixels = closedWalkLength pixels.
Proof.
  destruct pixels as [|p0 rest]; [done|].
  unfold perimeterOf, closedWalkLength.
  rewrite (foldl_ext_in _ (walkStep ((p0 :: rest) ++ [p0]))).
  - transitivity (0 + pathLength ((p0 :: rest) ++ [p0]))%R; [|lra].
    replace (length (p0 :: rest))
      with (length ((p0 :: rest) ++ [p0]) - 1)%nat
      by (rewrite length_app; simpl; lia).
    exact (walk_pathLength ((p0 :: rest) ++ [p0]) [] 0%R).
  - intros acc i Hi. apply elem_of_seq in Hi.
    apply perimeterStep_walkStep. simpl in *. lia.
Qed.

(** ** The bounding box loop *)

Lemma boundsOf_sums pixels : ∀ b,
  sumX (foldl boundsStep b pixels) = sumX b + foldr Z.add 0 (px <$> pixels)
  ∧ sumY (foldl boundsStep b pixels) = sumY b + foldr Z.add 0 (py <$> pixels).
Proof.
  induction pixels as [|p pixels IH]; intros b; [simpl; lia|].
  cbn [foldl]. rewrite !fmap_cons. cbn [foldr].
  destruct (IH (boundsStep b p)) as [-> ->].
  unfold boundsStep; cbn [sumX sumY]. lia.
Qed.

(** The running minimum is the start value or a coordinate met, and it is
    below both; likewise for the maximum. *)
Lemma boundsOf_extrema pixels : ∀ b,
  let b' := foldl boundsStep b pixels in
  (minX b' ≤ minX b ∧ (∀ p, p ∈ pixels → minX b' ≤ px p)
     ∧ (minX b' = minX b ∨ minX b' ∈ px <$> pixels))
  ∧ (minY b' ≤ minY b ∧ (∀ p, p ∈ pixels → minY b' ≤ py p)
     ∧ (minY b' = minY b ∨ minY b' ∈ py <$> pixels))
  ∧ (maxX b ≤ maxX b' ∧ (∀ p, p ∈ pixels → px p ≤ maxX b')
     ∧ (maxX b' = maxX b ∨ maxX b' ∈ px <$> pixels))
  ∧ (maxY b ≤ maxY b' ∧ (∀ p, p ∈ pixels → py p ≤ maxY b')
     ∧ (maxY b' = maxY b ∨ maxY b' ∈ py <$> pixels)).
Proof.
  induction pixels as [|p pixels IH]; intros b; simpl.
  - repeat split; try lia; try (by left);
      intros q Hq; by apply elem_of_nil in Hq.
  - destruct (IH (boundsStep b p))
      as ((A1 & A2 & A3) & (B1 & B2 & B3) & (C1 & C2 & C3) & (D1 & D2 & D3)).
    simpl in *.
    assert (Hcons : ∀ (f : Pixel → Z) (v : Z),
      (v = f p ∨ v ∈ f <$> pixels) → v ∈ f p :: (f <$> pixels)).
    { intros f v [->|Hv]; [left|by right]. }
    split_and!; try lia.
    + intros q Hq. apply elem_of_cons in Hq as [->|Hq]; [lia|by apply A2].
    + destruct A3 as [E|E]; [|right; by right].
      destruct (Z.min_spec (minX b) (px p)) as [[_ Hm]|[_ Hm]];
        rewrite Hm in E; [by left|right; rewrite E; left].
    + intros q Hq. apply elem_of_cons in Hq as [->|Hq]; [lia|by apply B2].
    + destruct B3 as [E|E]; [|right; by right].
      destruct (Z.min_spec (minY b) (py p)) as [[_ Hm]|[_ Hm]];
        rewrite Hm in E; [by left|right; rewrite E; left].
    + intros q Hq. apply elem_of_cons in Hq as [->|Hq]; [lia|by apply C2].
    + destruct C3 as [E|E]; [|right; by right].
      destruct (Z.max_spec (maxX b) (px p)) as [[_ Hm]|[_ Hm]];
        rewrite Hm in E; [right; rewrite E; left|by left].
    + intros q Hq. apply elem_of_cons in Hq as [->|Hq]; [lia|by apply D2].
    + destruct D3 as [E|E]; [|right; by right].
      destruct (Z.max_spec (maxY b) (py p)) as [[_ Hm]|[_ Hm]];
        rewrite Hm in E; [right; rewrite E; left|by left].
Qed.

(** On a non-empty list of pixels of the image, the start values of the
    loop (the image size and 0) play no part in the result. *)
Lemma boundsOf_in_bounds w h pixels :
  pixels ≠ [] → (∀ p, p ∈ pixels → inBounds w h p) →
  is_min (minX (boundsOf w h pixels)) (px <$> pixels)
  ∧ is_min (minY (boundsOf w h pixels)) (py <$> pixels)
  ∧ is_max (maxX (boundsOf w h pixels)) (px <$> pixels)
  ∧ is_max (maxY (boundsOf w h pixels)) (py <$> pixels).
Proof.
  intros Hne Hin. unfold boundsOf.
  destruct (boundsOf_extrema pixels (mkBounds w h 0 0 0 0))
    as ((A1 & A2 & A3) & (B1 & B2 & B3) & (C1 & C2 & C3) & (D1 & D2 & D3)).
  simpl in *. destruct pixels as [|p0 rest]; [done|].
  pose proof (Hin p0 ltac:(left)) as [Hx0 Hy0].
  pose proof (A2 p0 ltac:(left)). pose proof (B2 p0 ltac:(left)).
  pose proof (C2 p0 ltac:(left)). pose proof (D2 p0 ltac:(left)).
  assert (Hall : ∀ (f : Pixel → Z) (P : Z → Prop),
    (∀ p, p ∈ p0 :: rest → P (f p)) → ∀ x, x ∈ f <$> p0 :: rest → P x).
  { intros f P HP x Hx. apply list_elem_of_fmap in Hx as (q & -> & Hq). auto. }
  unfold is_min, is_max. split_and!.
  - destruct A3 as [E|E]; [lia|done].
  - by apply (Hall px (fun x => _ ≤ x)).
  - destruct B3 as [E|E]; [lia|done].
  - by apply (Hall py (fun x => _ ≤ x)).
  - destruct C3 as [E|E]; [|done].
    assert (px p0 = 0) as Hz by lia. rewrite E, <- Hz. left.
  - by apply (Hall px (fun x => x ≤ _)).
  - destruct D3 as [E|E]; [|done].
    assert (py p0 = 0) as Hz by lia. rewrite E, <- Hz. left.
  - by apply (Hall py (fun x => x ≤ _)).
Qed.

(** ** The perimeter of a region is at least its number of pixels *)

Lemma euclid_ge_1 p q : p ≠ q → (1 <= euclid p q)%R.
Proof.
  intros Hne. unfold euclid. rewrite <- sqrt_1 at 1.
  apply sqrt_le_1_alt. apply IZR_le.
  destruct p as [x y], q as [x' y']; simpl.
  assert (x' - x ≠ 0 ∨ y' - y ≠ 0) as [Hd|Hd].
  { destruct (decide (x' = x)) as [->|]; [|left; lia].
    destruct (decide (y' = y)) as [->|]; [done|right; lia]. }
  - pose proof (Z.square_nonneg (y' - y)).
    assert (1 ≤ (x' - x) * (x' - x)) by nia. lia.
  - pose proof (Z.square_nonneg (x' - x)).
    assert (1 ≤ (y' - y) * (y' - y)) by nia. lia.
Qed.

Lemma euclid_nonneg p q : (0 <= euclid p q)%R.
Proof. apply sqrt_pos. Qed.

Lemma pathLength_nonneg l : (0 <= pathLength l)%R.
Proof.
  induction l as [|p [|q l] IH]; [simpl; lra..|].
  change (pathLength (p :: q :: l)) with (euclid p q + pathLength (q :: l))%R.
  pose proof (euclid_nonneg p q). lra.
Qed.

(** A walk whose consecutive pixels differ has a length of at least its
    number of steps. *)
Lemma pathLength_lower l :
  (∀ i p q, l !! i = Some p → l !! S i = Some q → p ≠ q) →
  (INR (length l - 1) <= pathLength l)%R.
Proof.
  induction l as [|p l IH]; intros Hdiff.
  - simpl. lra.
  - destruct l as [|q l].
    + simpl. lra.
    + change (pathLength (p :: q :: l))
        with (euclid p q + pathLength (q :: l))%R.
      pose proof (euclid_ge_1 p q (Hdiff 0%nat p q eq_refl eq_refl)) as H1.
      assert (IHl : (INR (length (q :: l) - 1) <= pathLength (q :: l))%R).
      { apply IH. intros i a b Ha Hb. by apply (Hdiff (S i) a b). }
      replace (length (p :: q :: l) - 1)%nat
        with (S (length (q :: l) - 1)) by (simpl; lia).
      rewrite S_INR. lra.
Qed.

Lemma perimeterOf_lower pixels :
  NoDup pixels → (2 ≤ length pixels)%nat →
  (INR (length pixels) <= perimeterOf pixels)%R.
Proof.
  intros Hnd Hlen. rewrite perimeterOf_closedWalk.
  destruct pixels as [|p0 rest]; [simpl in Hlen; lia|].
  unfold closedWalkLength.
  pose proof (pathLength_lower ((p0 :: rest) ++ [p0])) as Hlow.
  rewrite length_app in Hlow. simpl length in Hlow.
  replace (S (length rest) + 1 - 1)%nat with (S (length rest)) in Hlow by lia.
  apply Hlow. intros i p q Hp Hq ->.
  assert (Hi : (S i < length ((p0 :: rest) ++ [p0]))%nat)
    by (by eapply lookup_lt_Some).
  rewrite length_app in Hi. simpl in Hi, Hlen.
  rewrite (lookup_app_l (p0 :: rest) [p0] i) in Hp by (simpl; lia).
  destruct (decide (S i = length (p0 :: rest))) as [Hlast|Hnot].
  - rewrite Hlast, list_lookup_middle in Hq by done.
    injection Hq as Hq. subst q.
    assert (i = 0%nat); [|simpl in *; lia].
    by apply (NoDup_lookup (p0 :: rest) i 0%nat p0).
  - rewrite (lookup_app_l (p0 :: rest) [p0] (S i)) in Hq by (simpl in *; lia).
    pose proof (NoDup_lookup (p0 :: rest) i (S i) q Hnd Hp Hq). lia.
Qed.

(** So the circularity of a region is at most [4 * PI / area], which for
    19 pixels or more is below the circle threshold. *)
Lemma circularityOf_upper pixels :
  NoDup pixels → (19 ≤ length pixels)%nat →
  (circularityOf (Z.of_nat (length pixels)) (perimeterOf pixels) < 0.85)%R.
Proof.
  intros Hnd Hlen.
  pose proof (perimeterOf_lower pixels Hnd ltac:(lia)) as Hper.
  assert (Hn : (19 <= INR (length pixels))%R).
  { replace 19%R with (INR 19) by (simpl; lra). by apply le_INR. }
  unfold circularityOf. rewrite decide_True by lra.
  rewrite <- INR_IZR_INZ.
  set (n := INR (length pixels)) in *. set (P := perimeterOf pixels) in *.
  pose proof PI_4 as Hpi. pose proof PI_RGT_0 as Hpi0.
  assert (n * n <= P * P)%R by nra.
  assert (19 * n <= n * n)%R by nra.
  assert (4 * PI * n <= 16 * n)%R by nra.
  assert (0 < P * P)%R by nra.
  apply (Rmult_lt_reg_r (P * P)); [done|].
  unfold Rdiv. rewrite Rmult_assoc, Rinv_l by lra. lra.
Qed.

(** A region without repeated pixels and with 19 pixels or more is never
    classified as a circle. *)
Lemma analyzeLocals_never_circle s pixels :
  NoDup pixels → (19 ≤ length pixels)%nat →
  l_type (analyzeLocals s pixels) ≠ circle.
Proof.
  intros Hnd Hlen. cbn [analyzeLocals l_type].
  pose proof (circularityOf_upper pixels Hnd Hlen) as Hc.
  unfold classify. rewrite bool_decide_eq_false_2 by lra.
  repeat (case_bool_decide; simpl); done.
Qed.

(** No shape returned by [detectShapes] is a circle. *)
Lemma detectShapes_never_circle s img t0 t1 :
  ∃ s' res, detectShapes s img t0 t1 = Some (s', res)
    ∧ Forall (fun sh => shape_type sh ≠ circle) (shapes res).
Proof.
  destruct (runScan_spec s img) as (st & Hrun & HI & _).
  rewrite (detectShapes_runScan s img t0 t1 st Hrun). do 2 eexists.
  split; [done|]. cbn [shapes]. apply Forall_forall. intros sh Hsh.
  apply list_elem_of_omap in Hsh as (r & Hr & Hsh).
  rewrite <- (si_handed _ _ _ _ HI) in Hr.
  destruct (handed_region s img st r Hrun Hr) as (Hlen & Hnd & _).
  unfold minShapeSize in Hlen.
  apply analyzeShape_Some in Hsh as (_ & _ & ->). cbn [shape_type].
  apply analyzeLocals_never_circle; [done|lia].
Qed.

(** ** Regions are closed under the neighbour relation *)

Lemma closed_reach w h bm ink r p q :
  ClosedRegion w h bm r →
  (∀ c, inBounds w h c → at_pixel bm c = ink c) →
  reach w h ink p q → p ∈ r → q ∈ r.
Proof.
  intros Hclosed Hink Hreach. induction Hreach as [p|p n q Hadj Hin Hn _ IH].
  - done.
  - intros Hp. apply IH. apply (Hclosed p n Hp Hadj Hin).
    by rewrite Hink.
Qed.

Lemma foldl_Permutation {A B : Type} (f : A → B → A) (l l' : list B) :
  (∀ a x y, f (f a x) y = f (f a y) x) →
  l ≡ₚ l' → ∀ a, foldl f a l = foldl f a l'.
Proof.
  intros Hcomm Hperm.
  induction Hperm as [|x l l' _ IH|x y l|l l' l'' _ IH1 _ IH2]; intros a; simpl.
  - done.
  - apply IH.
  - by rewrite Hcomm.
  - by rewrite IH1.
Qed.

(** The bounding-box loop does not depend on the order of the pixels. *)
Lemma boundsOf_Permutation w h l l' :
  l ≡ₚ l' → boundsOf w h l = boundsOf w h l'.
Proof.
  intros Hperm. unfold boundsOf. apply foldl_Permutation; [|done].
  intros b p q. unfold boundsStep; simpl. f_equal; lia.
Qed.

(** ** The disk image *)

Lemma inDisk_spec p :
  inDisk p = true
  ↔ (px p - 100) * (px p - 100) + (py p - 100) * (py p - 100) ≤ 2500.
Proof. unfold inDisk. by rewrite Z.leb_le. Qed.

Lemma square_le_2500 a b : a * a + b * b ≤ 2500 → -50 ≤ a ≤ 50.
Proof.
  intros Hab. pose proof (Z.square_nonneg b).
  destruct (Z.le_gt_cases a 50), (Z.le_gt_cases (-50) a); try lia; nia.
Qed.

Lemma inDisk_inBounds p : inDisk p = true → inBounds 200 200 p.
Proof.
  rewrite inDisk_spec. intros Hp.
  pose proof (square_le_2500 _ _ Hp).
  rewrite Z.add_comm in Hp. pose proof (square_le_2500 _ _ Hp).
  split; lia.
Qed.

Lemma toward_spec c v :
  (v < c ∧ toward c v = v + 1) ∨ (v > c ∧ toward c v = v - 1)
  ∨ (v = c ∧ toward c v = v).
Proof.
  unfold toward.
  destruct (Z.ltb_spec v c); [left; lia|].
  destruct (Z.ltb_spec c v); [right; left; lia|right; right; lia].
Qed.

(** A step towards the centre stays in the disk. *)
Lemma towardCentre_inDisk p : inDisk p = true → inDisk (towardCentre p) = true.
Proof.
  rewrite !inDisk_spec. unfold towardCentre. simpl.
  destruct (toward_spec 100 (px p)) as [[? ->]|[[? ->]|[? ->]]];
    destruct (toward_spec 100 (py p)) as [[? ->]|[[? ->]|[? ->]]]; nia.
Qed.

Lemma towardCentre_adjacent p :
  p ≠ mkPixel 100 100 → adjacent p (towardCentre p).
Proof.
  intros Hne. apply adjacent_iff. unfold towardCentre. simpl.
  destruct (toward_spec 100 (px p)) as [[? Ex]|[[? Ex]|[? Ex]]];
    destruct (toward_spec 100 (py p)) as [[? Ey]|[[? Ey]|[? Ey]]];
    rewrite Ex, Ey;
    (split; [|lia]); intros E; apply (f_equal px) in E as Epx;
    apply (f_equal py) in E as Epy; simpl in Epx, Epy; try lia.
  apply Hne. destruct p; simpl in *. f_equal; lia.
Qed.

(** Every cell of the disk is linked to the centre inside the disk. *)
Lemma disk_reach_centre p :
  inDisk p = true → reach 200 200 inDisk p (mkPixel 100 100).
Proof.
  remember (Z.to_nat (Z.abs (px p - 100) + Z.abs (py p - 100))) as m eqn:Hm.
  revert p Hm. induction m as [m IH] using lt_wf_ind. intros p Hm Hp.
  destruct (decide (p = mkPixel 100 100)) as [->|Hne]; [constructor|].
  apply (reach_step _ _ _ p (towardCentre p)).
  - by apply towardCentre_adjacent.
  - by apply inDisk_inBounds, towardCentre_inDisk.
  - by apply towardCentre_inDisk.
  - apply (IH (Z.to_nat (Z.abs (px (towardCentre p) - 100)
                         + Z.abs (py (towardCentre p) - 100))));
      [|done|by apply towardCentre_inDisk].
    subst m. unfold towardCentre. simpl.
    assert (px p ≠ 100 ∨ py p ≠ 100) as Hoff.
    { destruct (decide (px p = 100)); [|by left].
      destruct (decide (py p = 100)); [|by right].
      exfalso. apply Hne. destruct p; simpl in *. by f_equal. }
    destruct (toward_spec 100 (px p)) as [[? ->]|[[? ->]|[? ->]]];
      destruct (toward_spec 100 (py p)) as [[? ->]|[[? ->]|[? ->]]]; lia.
Qed.

(** The disk has 7845 cells; their bounding box runs from (50, 50) to
    (150, 150) and their coordinates sum to 784500 each. *)
Lemma diskCells_summary :
  (Z.of_nat (length diskCells), boundsOf 200 200 diskCells)
  = (7845, mkBounds 50 50 150 150 784500 784500).
Proof. vm_compute. reflexivity. Qed.

Lemma filter_ext_in {A : Type} (P Q : A → Prop)
    `{!∀ x, Decision (P x)} `{!∀ x, Decision (Q x)} (l : list A) :
  (∀ x, x ∈ l → P x ↔ Q x) → filter P l = filter Q l.
Proof.
  induction l as [|x l IH]; intros Hext; [done|].
  rewrite !filter_cons.
  destruct (decide (P x)) as [HP|HP], (decide (Q x)) as [HQ|HQ].
  - f_equal. apply IH. intros y Hy. apply Hext. by right.
  - exfalso. apply HQ, (Hext x); [left|done].
  - exfalso. apply HP, (Hext x); [left|done].
  - apply IH. intros y Hy. apply Hext. by right.
Qed.

(** The scan of the disk image finds one region, made of the cells of the
    disk. *)
Lemma disk_one_region s st :
  runScan s diskImage = Some st → ∃ r, sc_filled st = [r] ∧ r ≡ₚ diskCells.
Proof.
  intros Hrun. destruct (runScan_spec s diskImage) as (st' & Hrun' & HI & Hall).
  rewrite Hrun in Hrun'. injection Hrun' as <-.
  pose proof (regions_Permutation s diskImage st Hrun) as Hperm. clear Hrun.
  change (img_width diskImage) with 200 in *.
  change (img_height diskImage) with 200 in *.
  assert (Hink : ∀ c, inBounds 200 200 c →
            at_pixel (foregroundMask diskImage) c = inDisk c).
  { intros c Hc. rewrite at_pixel_foregroundMask by exact Hc.
    by apply (foreground_paint 200 200 inDisk). }
  assert (Hcentre : ∀ r, r ∈ sc_filled st → mkPixel 100 100 ∈ r).
  { intros r Hr.
    destruct r as [|p r'] eqn:Er; [by destruct (si_nonempty _ _ _ _ HI [] Hr)|].
    rewrite <- Er in *.
    assert (Hp : p ∈ r) by (rewrite Er; left).
    destruct (si_fg _ _ _ _ HI p) as [Hin Hfg].
    { apply list_elem_of_join. by exists r. }
    rewrite (Hink p Hin) in Hfg.
    apply (closed_reach 200 200 (foregroundMask diskImage) inDisk r p);
      [by apply (si_closed _ _ _ _ HI)|exact Hink| |exact Hp].
    by apply disk_reach_centre. }
  assert (Hfilter : filter (fun p => foreground diskImage p = true)
                           (raster 200 200) = diskCells).
  { apply filter_ext_in. intros p Hp. apply elem_of_raster in Hp.
    unfold diskImage. by rewrite (foreground_paint 200 200 inDisk p Hp). }
  rewrite Hfilter in Hperm.
  pose proof (si_nodup _ _ _ _ HI) as Hnd.
  destruct (sc_filled st) as [|r [|r' rs]].
  - exfalso. change (mjoin []) with (@nil Pixel) in Hperm.
    symmetry in Hperm. apply Permutation_nil_r in Hperm.
    pose proof diskCells_summary as Hsum. rewrite Hperm in Hsum.
    apply (f_equal fst) in Hsum. cbn [fst length] in Hsum. lia.
  - exists r. split; [reflexivity|].
    change (mjoin [r]) with (r ++ []) in Hperm.
    rewrite app_nil_r in Hperm. exact Hperm.
  - exfalso. simpl in Hnd. apply NoDup_app in Hnd as (_ & Hdisj & _).
    apply (Hdisj (mkPixel 100 100)).
    + apply Hcentre. left.
    + apply elem_of_app. left. apply Hcentre. right. left.
Qed.

Lemma disk_regions s st :
  runScan s diskImage = Some st →
  ∃ r, sc_filled st = [r] ∧ Z.of_nat (length r) = 7845
       ∧ boundsOf 200 200 r = mkBounds 50 50 150 150 784500 784500.
Proof.
  intros Hrun. destruct (disk_one_region s st Hrun) as (r & Hfilled & Hperm).
  exists r. pose proof diskCells_summary as Hsum.
  rewrite <- (boundsOf_Permutation 200 200 r diskCells Hperm) in Hsum.
  rewrite <- (Permutation_length Hperm) in Hsum.
  injection Hsum as Hlen Hb. exact (conj Hfilled (conj Hlen Hb)).
Qed.

(** The penalty is 1 for a region of 1000 pixels or more. *)
Lemma sizePenalty_large areaN : 1000 ≤ areaN → sizePenalty areaN = 1%R.
Proof.
  intros Hbig. unfold sizePenalty, log10.
  assert (Ha : (10 <= IZR areaN / 100)%R).
  { apply IZR_le in Hbig. lra. }
  assert (Hln10 : (0 < ln 10)%R).
  { rewrite <- ln_1. apply ln_increasing; lra. }
  assert (Hln : (ln 10 <= ln (IZR areaN / 100))%R).
  { destruct Ha as [Ha|<-]; [|lra]. left. apply ln_increasing; lra. }
  assert (Hq : (1 <= ln (IZR areaN / 100) / ln 10)%R).
  { apply (Rmult_le_reg_r (ln 10)); [done|].
    unfold Rdiv. rewrite Rmult_assoc, Rinv_l by lra. lra. }
  apply Rmin_left. lra.
Qed.

Lemma disk_analysis s r :
  width s = 200 → height s = 200 → NoDup r →
  Z.of_nat (length r) = 7845 →
  boundsOf 200 200 r = mkBounds 50 50 150 150 784500 784500 →
  analyzeShape s r = Some diskShape.
Proof.
  intros Hw Hh Hnd Hlen Hb. apply analyzeShape_Some.
  assert (Hc : (circularityOf (Z.of_nat (length r)) (perimeterOf r) < 0.85)%R).
  { apply circularityOf_upper; [done|lia]. }
  assert (Htc : classify (circularityOf (Z.of_nat (length r)) (perimeterOf r))
                  (IZR 101 / IZR 101) (IZR 7845 / IZR 10201)
                = (square, (0.85 * (7845 / 10201))%R)).
  { unfold classify. rewrite bool_decide_eq_false_2 by lra.
    replace (IZR 101 / IZR 101 - 1)%R with 0%R by lra. rewrite Rabs_R0.
    rewrite !bool_decide_eq_true_2 by lra. done. }
  assert (Hfc : finalConfidence (0.85 * (7845 / 10201)) 7845
                = (0.85 * (7845 / 10201))%R).
  { unfold finalConfidence. rewrite sizePenalty_large by lia.
    unfold Rmax, Rmin. repeat destruct (Rle_dec _ _); lra. }
  assert (Hv : analyzeLocals s r
    = mkLocals (mkBounds 50 50 150 150 784500 784500) 101 101 100 100 7845
        (IZR 101 / IZR 101) (IZR 7845 / IZR 10201) (perimeterOf r)
        (circularityOf 7845 (perimeterOf r)) square
        (0.85 * (7845 / 10201)) (0.85 * (7845 / 10201))).
  { unfold analyzeLocals. rewrite Hw, Hh, Hb. cbn [minX minY maxX maxY sumX sumY].
    rewrite INR_IZR_INZ, Hlen in *.
    change (150 - 50 + 1) with 101.
    change (Z.max 1 101) with 101. change (101 * 101) with 10201.
    rewrite Htc. cbn [fst snd]. rewrite Hfc.
    f_equal; lra. }
  rewrite Hv. cbn [l_confidence l_type l_bounds l_width l_height l_centerX
                   l_centerY l_area minX minY].
  split_and!; [lia|lra|done].
Qed.

(** The region of the disk is passed to [analyzeShape]. *)
Lemma disk_handed s st :
  runScan s diskImage = Some st →
  ∃ r, sc_handed st = [r] ∧ Z.of_nat (length r) = 7845.
Proof.
  intros Hrun. destruct (disk_regions s st Hrun) as (r & Hfilled & Hlen & _).
  exists r. split; [|done].
  rewrite (scan_handed s diskImage st Hrun), Hfilled.
  rewrite filter_cons_True by (unfold minShapeSize; lia). done.
Qed.

(** ** Regions are the connected components of the foreground *)

Lemma reach_snoc w h ink a p n :
  reach w h ink a p → adjacent p n → inBounds w h n → ink n = true →
  reach w h ink a n.
Proof.
  intros Hreach Hadj Hin Hink.
  induction Hreach as [p|a m p Hadj' Hin' Hink' _ IH].
  - eapply reach_step; [done..|constructor].
  - eapply reach_step; [done..|]. by apply IH.
Qed.

Lemma reach_trans w h ink a b c :
  reach w h ink a b → reach w h ink b c → reach w h ink a c.
Proof.
  intros Hab Hbc. induction Hab as [a|a m b Hadj Hin Hink _ IH]; [done|].
  eapply reach_step; [done..|]. by apply IH.
Qed.

Lemma reach_sym w h ink p q :
  inBounds w h p → ink p = true → reach w h ink p q → reach w h ink q p.
Proof.
  intros Hin Hink Hreach.
  induction Hreach as [p|p n q Hadj Hin' Hink' _ IH]; [constructor|].
  eapply reach_snoc; [by apply IH|by apply adjacent_sym|done..].
Qed.

(** The inner loop queues only foreground neighbours in the image. *)
Lemma visitNeighbour_new w h bm x y st i n :
  (i < 8)%nat → n ∈ (visitNeighbour w h bm x y st i).2 →
  n ∈ st.2
  ∨ (adjacent (mkPixel x y) n ∧ inBounds w h n ∧ at_pixel bm n = true).
Proof.
  intros Hi. unfold visitNeighbour.
  destruct (canVisit _ _ _ _ _ _) eqn:E; simpl; [|by left].
  apply canVisit_spec in E as (Hin & Hfg & _).
  intros Hn. apply elem_of_app in Hn as [Hn|Hn]; [by left|].
  apply list_elem_of_singleton in Hn as ->. right. split_and!; [|done..].
  by exists i.
Qed.

Lemma visitAll_new w h bm x y idxs : ∀ st n,
  (∀ i, i ∈ idxs → (i < 8)%nat) →
  n ∈ (foldl (visitNeighbour w h bm x y) st idxs).2 →
  n ∈ st.2
  ∨ (adjacent (mkPixel x y) n ∧ inBounds w h n ∧ at_pixel bm n = true).
Proof.
  induction idxs as [|i idxs IH]; intros st n Hidx Hn; simpl in Hn; [by left|].
  apply IH in Hn as [Hn|Hn]; [|by right|].
  - eapply visitNeighbour_new; [|done]. apply Hidx. left.
  - intros j Hj. apply Hidx. by right.
Qed.

(** A property of the queued start cells that passes to foreground
    neighbours holds of every pixel of the region. *)
Lemma floodLoop_all w h bm (P : Pixel → Prop) :
  (∀ p n, P p → adjacent p n → inBounds w h n → at_pixel bm n = true → P n) →
  ∀ fuel vis queue pixels vis' pixels',
    (∀ q, q ∈ pixels ++ queue → P q) →
    floodLoop fuel w h bm vis queue pixels = Some (vis', pixels') →
    ∀ q, q ∈ pixels' → P q.
Proof.
  intros Hstep. induction fuel as [|fuel IH];
    intros vis queue pixels vis' pixels' HP Hrun;
    destruct queue as [|p queue']; cbn [floodLoop] in Hrun; simplify_eq.
  - intros q Hq. apply HP. by rewrite app_nil_r.
  - intros q Hq. apply HP. by rewrite app_nil_r.
  - eapply IH; [|exact Hrun]. intros q Hq.
    apply elem_of_app in Hq as [Hq|Hq].
    + apply HP. apply elem_of_app in Hq as [Hq|Hq].
      * apply elem_of_app. by left.
      * apply list_elem_of_singleton in Hq as ->.
        apply elem_of_app. right. left.
    + apply (visitAll_new w h bm (px p) (py p) (seq 0 8) (vis, queue')) in Hq
        as [Hq|(Hadj & Hin & Hfg)].
      * apply HP. apply elem_of_app. right. by right.
      * rewrite pixel_eta in Hadj. apply (Hstep p q); [|done..].
        apply HP. apply elem_of_app. right. left.
      * intros i Hi. apply elem_of_seq in Hi. lia.
Qed.

(** Every pixel [floodFill] returns is linked to the start cell. *)
Lemma floodFill_connected s x y s' pixels :
  floodFill s x y = Some (s', pixels) →
  ∀ q, q ∈ pixels →
    reach (width s) (height s) (at_pixel (binaryMatrix s)) (mkPixel x y) q.
Proof.
  unfold floodFill. intros Hrun.
  destruct (floodLoop _ _ _ _ _ _ _) as [[vis px']|] eqn:E; simplify_eq.
  eapply (floodLoop_all _ _ _
            (reach (width s) (height s) (at_pixel (binaryMatrix s))
                   (mkPixel x y))); [| |exact E].
  - intros p n Hp Hadj Hin Hfg. by eapply reach_snoc.
  - intros q Hq. apply list_elem_of_singleton in Hq as ->. constructor.
Qed.

Lemma scanPixel_connected w h bm st p st' :
  ScanInv w h bm st → inBounds w h p →
  (∀ r, r ∈ sc_filled st → Connected w h bm r) →
  scanPixel st p = Some st' →
  ∀ r, r ∈ sc_filled st' → Connected w h bm r.
Proof.
  intros HI Hin Hconn.
  pose proof HI as [Hw Hh Hbm Hwf _ _ _ _ _ _ _].
  unfold scanPixel, scanCell.
  destruct (mat_get (binaryMatrix (sc_det st)) (px p) (py p)) eqn:Efg;
    simpl; [|by intros [= <-]].
  destruct (mat_get (visited (sc_det st)) (px p) (py p)) eqn:Ev;
    simpl; [by intros [= <-]|].
  destruct (floodFill_spec (sc_det st) (px p) (py p))
    as (vis' & rest & Hrun & _ & _).
  { by rewrite Hw, Hh. } { rewrite Hw, Hh. by destruct p. } { done. } { done. }
  pose proof (floodFill_connected _ _ _ _ _ Hrun) as Hreach.
  rewrite Hw, Hh, Hbm, pixel_eta in Hreach. rewrite Hrun.
  assert (Hnew : Connected w h bm (mkPixel (px p) (py p) :: rest)).
  { exists p. rewrite pixel_eta. split; [left|done]. }
  destruct (_ <? _)%nat; intros [= <-]; simpl; intros r Hr;
    (apply elem_of_app in Hr as [Hr|Hr]; [by apply Hconn|]);
    by apply list_elem_of_singleton in Hr as ->.
Qed.

(** At the end of the scan every region is connected. *)
Lemma runScan_connected s img st :
  runScan s img = Some st →
  ∀ r, r ∈ sc_filled st →
    Connected (img_width img) (img_height img) (foregroundMask img) r.
Proof.
  unfold runScan. rewrite scanRows_raster. simpl.
  set (w := img_width img). set (h := img_height img).
  set (st0 := mkScan _ [] [] []). intros Hrun.
  destruct (forEach_invariant
    (fun st => ScanInv w h (foregroundMask img) st
               ∧ ∀ r, r ∈ sc_filled st → Connected w h (foregroundMask img) r)
    (fun _ _ => True) scanPixel (raster w h)) with (st := st0)
    as (st' & Hrun' & [_ Hconn] & _).
  - intros st1 p Hp [HI Hc]. apply elem_of_raster in Hp.
    destruct (scanPixel_inv w h _ st1 p HI Hp) as (st2 & Hst2 & HI2 & _).
    exists st2. split; [done|].
    split; [|by split]. split; [done|].
    exact (scanPixel_connected w h _ st1 p st2 HI Hp Hc Hst2).
  - split; [apply ScanInv_start|]. intros r Hr. by apply elem_of_nil in Hr.
  - rewrite Hrun in Hrun'. by injection Hrun' as <-.
Qed.

(** ** What an emitted shape looks like *)

(** The shapes returned come from regions passed to [analyzeShape]. *)
Lemma emitted_shape s img t0 t1 st :
  runScan s img = Some st →
  ∃ res, detectShapes s img t0 t1 = Some (sc_det st, res)
    ∧ stats_width (imageStats res) = img_width img
    ∧ stats_height (imageStats res) = img_height img
    ∧ ∀ sh, sh ∈ shapes res →
        ∃ r, r ∈ sc_handed st ∧ analyzeShape (sc_det st) r = Some sh.
Proof.
  intros Hrun. rewrite (detectShapes_runScan s img t0 t1 st Hrun).
  eexists. split; [done|]. cbn [shapes imageStats stats_width stats_height].
  split_and!; [done..|]. intros sh Hsh.
  apply list_elem_of_omap in Hsh as (r & Hr & Hsh).
  exists r. split; [|done]. by rewrite (scan_handed s img st Hrun).
Qed.

(** A region without repeated pixels fits its bounding box. *)
Lemma region_area_le_box w h r :
  NoDup r → r ≠ [] → (∀ p, p ∈ r → inBounds w h p) →
  Z.of_nat (length r)
  ≤ (maxX (boundsOf w h r) - minX (boundsOf w h r) + 1)
    * (maxY (boundsOf w h r) - minY (boundsOf w h r) + 1).
Proof.
  intros Hnd Hne Hin.
  destruct (boundsOf_in_bounds w h r Hne Hin)
    as ([_ HminX] & [_ HminY] & [_ HmaxX] & [_ HmaxY]).
  set (b := boundsOf w h r) in *.
  set (f := fun p => mkPixel (px p - minX b) (py p - minY b)).
  assert (Hcoord : ∀ p, p ∈ r →
    minX b ≤ px p ≤ maxX b ∧ minY b ≤ py p ≤ maxY b).
  { intros p Hp.
    pose proof (HminX (px p)) as H1. pose proof (HmaxX (px p)) as H2.
    pose proof (HminY (py p)) as H3. pose proof (HmaxY (py p)) as H4.
    assert (px p ∈ px <$> r) by (apply list_elem_of_fmap; eauto).
    assert (py p ∈ py <$> r) by (apply list_elem_of_fmap; eauto).
    split; split; auto. }
  assert (Hlen : (length (f <$> r)
                  ≤ Z.to_nat (maxY b - minY b + 1)
                    * Z.to_nat (maxX b - minX b + 1))%nat).
  { apply inBounds_length_le.
    - apply NoDup_fmap_2; [|done]. intros [x y] [x' y'] [= Hx Hy].
      f_equal; lia.
    - intros q Hq. apply list_elem_of_fmap in Hq as (p & -> & Hp).
      destruct (Hcoord p Hp). split; simpl; lia. }
  rewrite length_fmap in Hlen.
  destruct r as [|p0 r']; [done|].
  destruct (Hcoord p0 ltac:(left)).
  apply Nat2Z.inj_le in Hlen.
  rewrite Nat2Z.inj_mul, !Z2Nat.id in Hlen by lia.
  by rewrite Z.mul_comm.
Qed.

Lemma sum_between (l : list Z) (m M : Z) :
  (∀ x, x ∈ l → m ≤ x ≤ M) →
  Z.of_nat (length l) * m ≤ foldr Z.add 0 l ≤ Z.of_nat (length l) * M.
Proof.
  induction l as [|x l IH]; intros Hl; [simpl; lia|].
  cbn [foldr length]. pose proof (Hl x ltac:(left)).
  assert (Z.of_nat (length l) * m ≤ foldr Z.add 0 l
          ≤ Z.of_nat (length l) * M).
  { apply IH. intros y Hy. apply Hl. by right. }
  lia.
Qed.

(** The mean of integers between [m] and [M] lies between them. *)
Lemma mean_between (l : list Z) (m M : Z) :
  l ≠ [] → (∀ x, x ∈ l → m ≤ x ≤ M) →
  (IZR m <= mean l <= IZR M)%R.
Proof.
  intros Hne Hl. pose proof (sum_between l m M Hl) as [Hlo Hhi].
  unfold mean. rewrite INR_IZR_INZ.
  assert (Hn : (0 < IZR (Z.of_nat (length l)))%R).
  { apply IZR_lt. destruct l; [done|simpl; lia]. }
  apply IZR_le in Hlo, Hhi. rewrite mult_IZR in Hlo, Hhi.
  split.
  - apply (Rmult_le_reg_r (IZR (Z.of_nat (length l)))); [done|].
    unfold Rdiv. rewrite Rmult_assoc, Rinv_l by lra. lra.
  - apply (Rmult_le_reg_r (IZR (Z.of_nat (length l)))); [done|].
    unfold Rdiv. rewrite Rmult_assoc, Rinv_l by lra. lra.
Qed.

(** The confidence the chain chooses when the circle test fails and the
    extent is at most 1. *)
Lemma classify_raw_bounds c a e :
  (c < 0.85)%R → (0 <= e <= 1)%R →
  (classify c a e).1 ≠ circle ∧ (0 <= (classify c a e).2 <= 0.85)%R.
Proof.
  intros Hc He. unfold classify. rewrite bool_decide_eq_false_2 by lra.
  repeat (case_bool_decide; simpl); (split; [done|lra]).
Qed.

Lemma sizePenalty_le_1 areaN : (sizePenalty areaN <= 1)%R.
Proof. apply Rmin_l. Qed.

(** Below 64 pixels the penalty is under 0.7. *)
Lemma sizePenalty_small areaN :
  0 < areaN ≤ 63 → (sizePenalty areaN < 0.7)%R.
Proof.
  intros [Hpos Hle]. unfold sizePenalty, log10.
  apply IZR_lt in Hpos. apply IZR_le in Hle.
  set (x := (IZR areaN / 100)%R).
  assert (Hx : (0 < x <= 0.63)%R) by (unfold x; lra).
  assert (Hln10 : (0 < ln 10)%R).
  { rewrite <- ln_1. apply ln_increasing; lra. }
  assert (Hlnx : (ln x <= ln 0.63)%R).
  { destruct Hx as [Hx0 [Hx1 | ->]]; [|lra]. left. by apply ln_increasing. }
  assert (H5 : (5 * ln 0.63 < - ln 10)%R).
  { rewrite <- ln_Rinv by lra.
    replace 5%R with (INR 5) by (simpl; lra).
    rewrite <- ln_pow by lra. apply ln_increasing.
    - apply pow_lt. lra.
    - simpl. lra. }
  assert (Hq : (ln x / ln 10 < - 0.2)%R).
  { apply (Rmult_lt_reg_r (ln 10)); [done|].
    unfold Rdiv. rewrite Rmult_assoc, Rinv_l by lra. lra. }
  eapply Rle_lt_trans; [apply Rmin_r|]. lra.
Qed.

Lemma finalConfidence_le conf areaN :
  (0 <= conf <= 0.85)%R → (finalConfidence conf areaN <= 0.85)%R.
Proof.
  intros Hc. pose proof (sizePenalty_le_1 areaN) as Hp.
  unfold finalConfidence.
  assert (conf * sizePenalty areaN <= 0.85)%R by nra.
  unfold Rmax, Rmin. repeat destruct (Rle_dec _ _); lra.
Qed.

Lemma finalConfidence_small conf areaN :
  (0 <= conf <= 0.85)%R → 0 < areaN ≤ 63 →
  (finalConfidence conf areaN < 0.6)%R.
Proof.
  intros Hc Ha. pose proof (sizePenalty_small areaN Ha) as Hp.
  unfold finalConfidence.
  assert (conf * sizePenalty areaN < 0.6)%R by nra.
  unfold Rmax, Rmin. repeat destruct (Rle_dec _ _); lra.
Qed.

(** The local variables of [analyzeShape] on a region as [detectShapes]
    passes it: no pixel twice, all pixels in the image. *)
Lemma region_locals s r :
  NoDup r → (19 ≤ length r)%nat →
  (∀ p, p ∈ r → inBounds (width s) (height s) p) →
  l_type (analyzeLocals s r) ≠ circle
  ∧ (l_confidence (analyzeLocals s r) <= 0.85)%R
  ∧ (Z.of_nat (length r) ≤ 63 → (l_confidence (analyzeLocals s r) < 0.6)%R)
  ∧ 0 ≤ minX (l_bounds (analyzeLocals s r))
  ∧ 0 ≤ minY (l_bounds (analyzeLocals s r))
  ∧ 1 ≤ l_width (analyzeLocals s r)
  ∧ 1 ≤ l_height (analyzeLocals s r)
  ∧ minX (l_bounds (analyzeLocals s r)) + l_width (analyzeLocals s r) ≤ width s
  ∧ minY (l_bounds (analyzeLocals s r)) + l_height (analyzeLocals s r)
    ≤ height s
  ∧ l_area (analyzeLocals s r)
    ≤ l_width (analyzeLocals s r) * l_height (analyzeLocals s r)
  ∧ (IZR (minX (l_bounds (analyzeLocals s r)))
     <= l_centerX (analyzeLocals s r)
     <= IZR (maxX (l_bounds (analyzeLocals s r))))%R
  ∧ (IZR (minY (l_bounds (analyzeLocals s r)))
     <= l_centerY (analyzeLocals s r)
     <= IZR (maxY (l_bounds (analyzeLocals s r))))%R.
Proof.
  intros Hnd Hlen Hin.
  assert (Hne : r ≠ []) by (intros ->; simpl in Hlen; lia).
  destruct (boundsOf_in_bounds _ _ r Hne Hin)
    as ([HminXin HminX] & [HminYin HminY] & [HmaxXin HmaxX] & [HmaxYin HmaxY]).
  pose proof (region_area_le_box _ _ r Hnd Hne Hin) as Harea.
  assert (HsumX : sumX (boundsOf (width s) (height s) r)
                  = foldr Z.add 0 (px <$> r)).
  { unfold boundsOf.
    destruct (boundsOf_sums r (mkBounds (width s) (height s) 0 0 0 0))
      as [-> _]. simpl. lia. }
  assert (HsumY : sumY (boundsOf (width s) (height s) r)
                  = foldr Z.add 0 (py <$> r)).
  { unfold boundsOf.
    destruct (boundsOf_sums r (mkBounds (width s) (height s) 0 0 0 0))
      as [_ ->]. simpl. lia. }
  pose proof (circularityOf_upper r Hnd Hlen) as Hcirc.
  cbn [analyzeLocals l_type l_confidence l_bounds l_width l_height l_area
       l_centerX l_centerY].
  set (b := boundsOf (width s) (height s) r) in *.
  assert (HXin : ∀ x, x ∈ px <$> r → 0 ≤ x < width s).
  { intros x Hx. apply list_elem_of_fmap in Hx as (p & -> & Hp).
    by destruct (Hin p Hp). }
  assert (HYin : ∀ y, y ∈ py <$> r → 0 ≤ y < height s).
  { intros y Hy. apply list_elem_of_fmap in Hy as (p & -> & Hp).
    by destruct (Hin p Hp). }
  pose proof (HXin _ HminXin). pose proof (HXin _ HmaxXin).
  pose proof (HYin _ HminYin). pose proof (HYin _ HmaxYin).
  pose proof (HminX _ HmaxXin). pose proof (HminY _ HmaxYin).
  set (bw := maxX b - minX b + 1) in *. set (bh := maxY b - minY b + 1) in *.
  assert (Hbw : 1 ≤ bw) by (unfold bw; lia).
  assert (Hbh : 1 ≤ bh) by (unfold bh; lia).
  set (n := Z.of_nat (length r)) in *.
  assert (Hn : 19 ≤ n) by (unfold n; lia).
  assert (Hext : (0 <= IZR n / IZR (bw * bh) <= 1)%R).
  { assert (0 < bw * bh) as Hpos by nia.
    apply IZR_lt in Hpos. apply IZR_le in Harea.
    assert (0 <= IZR n)%R by (apply IZR_le; lia).
    split.
    - apply Rmult_le_pos; [done|]. left. by apply Rinv_0_lt_compat.
    - apply (Rmult_le_reg_r (IZR (bw * bh))); [done|].
      unfold Rdiv. rewrite Rmult_assoc, Rinv_l by lra. lra. }
  destruct (classify_raw_bounds (circularityOf n (perimeterOf r))
              (IZR bw / IZR (Z.max 1 bh)) (IZR n / IZR (bw * bh)) Hcirc Hext)
    as [Htype Hraw].
  assert (HcX : (IZR (minX b) <= IZR (sumX b) / INR (length r)
                 <= IZR (maxX b))%R).
  { rewrite HsumX, <- (length_fmap px r).
    apply (mean_between (px <$> r)); [by destruct r|].
    intros x Hx. split; [by apply HminX|by apply HmaxX]. }
  assert (HcY : (IZR (minY b) <= IZR (sumY b) / INR (length r)
                 <= IZR (maxY b))%R).
  { rewrite HsumY, <- (length_fmap py r).
    apply (mean_between (py <$> r)); [by destruct r|].
    intros y Hy. split; [by apply HminY|by apply HmaxY]. }
  destruct HcX, HcY.
  split_and!; try done; try lia.
  - by apply finalConfidence_le.
  - intros Hsmall. apply finalConfidence_small; [done|lia].
Qed.

(** ** Images without foreground *)

Lemma reach_ext w h ink ink' a b :
  (∀ c, inBounds w h c → ink c = ink' c) →
  reach w h ink a b → reach w h ink' a b.
Proof.
  intros Hext Hreach. induction Hreach as [a|a n b Hadj Hin Hink _ IH].
  - constructor.
  - eapply reach_step; [done..| |done]. by rewrite <- Hext.
Qed.

(** Without a foreground cell the scan finds no region and the result has
    no shape. *)
Lemma no_foreground_no_shapes s img t0 t1 :
  (∀ p, inBounds (img_width img) (img_height img) p →
        foreground img p = false) →
  ∃ s', detectShapes s img t0 t1
        = Some (s', mkDetectionResult []
                      (mkImageStats (img_width img) (img_height img)
                                    (t1 - t0)%R)).
Proof.
  intros Hblank. destruct (runScan_spec s img) as (st & Hrun & HI & _).
  rewrite (detectShapes_runScan s img t0 t1 st Hrun).
  assert (Hnone : sc_filled st = []).
  { destruct (sc_filled st) as [|r rs] eqn:E; [done|]. exfalso.
    assert (Hr : r ∈ sc_filled st) by (rewrite E; left).
    destruct r as [|p r'] eqn:Er;
      [by destruct (si_nonempty _ _ _ _ HI [] Hr)|].
    destruct (si_fg _ _ _ _ HI p) as [Hin Hfg].
    { apply list_elem_of_join. exists (p :: r'). split; [left|done]. }
    rewrite at_pixel_foregroundMask, (Hblank p Hin) in Hfg; done. }
  rewrite Hnone. by eexists.
Qed.


(** ** Images with one connected foreground *)




(** ** Filled rectangles *)









(** From 252 pixels on the penalty is 1, below it is less. *)
Lemma sizePenalty_one areaN : 252 ≤ areaN → sizePenalty areaN = 1%R.
Proof.
  intros Hbig. unfold sizePenalty, log10. apply IZR_le in Hbig.
  set (x := (IZR areaN / 100)%R).
  assert (Hx : (2.52 <= x)%R) by (unfold x; lra).
  assert (Hln10 : (0 < ln 10)%R).
  { rewrite <- ln_1. apply ln_increasing; lra. }
  assert (Hlnx : (ln 2.52 <= ln x)%R).
  { destruct Hx as [Hx | <-]; [|lra]. left. apply ln_increasing; lra. }
  assert (H5 : (2 * ln 10 < 5 * ln 2.52)%R).
  { replace 2%R with (INR 2) by (simpl; lra).
    replace 5%R with (INR 5) by (simpl; lra).
    rewrite <- !ln_pow by lra. apply ln_increasing.
    - apply pow_lt. lra.
    - simpl. lra. }
  assert (Hq : (0.4 <= ln x / ln 10)%R).
  { apply (Rmult_le_reg_r (ln 10)); [done|].
    unfold Rdiv. rewrite Rmult_assoc, Rinv_l by lra. lra. }
  apply Rmin_left. lra.
Qed.

Lemma sizePenalty_below_one areaN :
  0 < areaN ≤ 251 → (sizePenalty areaN < 1)%R.
Proof.
  intros [Hpos Hle]. unfold sizePenalty, log10.
  apply IZR_lt in Hpos. apply IZR_le in Hle.
  set (x := (IZR areaN / 100)%R).
  assert (Hx : (0 < x <= 2.51)%R) by (unfold x; lra).
  assert (Hln10 : (0 < ln 10)%R).
  { rewrite <- ln_1. apply ln_increasing; lra. }
  assert (Hlnx : (ln x <= ln 2.51)%R).
  { destruct Hx as [Hx0 [Hx1 | ->]]; [|lra]. left. by apply ln_increasing. }
  assert (H5 : (5 * ln 2.51 < 2 * ln 10)%R).
  { replace 2%R with (INR 2) by (simpl; lra).
    replace 5%R with (INR 5) by (simpl; lra).
    rewrite <- !ln_pow by lra. apply ln_increasing.
    - apply pow_lt. lra.
    - simpl. lra. }
  assert (Hq : (ln x / ln 10 < 0.4)%R).
  { apply (Rmult_lt_reg_r (ln 10)); [done|].
    unfold Rdiv. rewrite Rmult_assoc, Rinv_l by lra. lra. }
  eapply Rle_lt_trans; [apply Rmin_r|]. lra.
Qed.



(** ** The detector after a run, and the areas of the shapes *)

(** After [detectShapes] the matrix [visited] marks the foreground cells
    and no others. *)
Lemma scan_visited s img st p :
  runScan s img = Some st →
  inBounds (img_width img) (img_height img) p →
  at_pixel (visited (sc_det st)) p = foreground img p
  ∧ at_pixel (binaryMatrix (sc_det st)) p = foreground img p.
Proof.
  intros Hrun Hp. destruct (runScan_spec s img) as (st' & Hrun' & HI & Hall).
  rewrite Hrun in Hrun'. injection Hrun' as <-.
  rewrite (si_bm _ _ _ _ HI), (si_vis _ _ _ _ HI p Hp).
  split; [|by apply at_pixel_foregroundMask].
  destruct (foreground img p) eqn:Hfg.
  - apply bool_decide_eq_true_2. by apply Hall.
  - apply bool_decide_eq_false_2. intros Hin.
    destruct (si_fg _ _ _ _ HI p Hin) as [_ Hink].
    rewrite at_pixel_foregroundMask in Hink by done. congruence.
Qed.

(** The shapes of a list of regions have at most the pixels of the
    regions, and at least 64 each when no region of fewer pixels yields a
    shape. *)
Lemma omap_areas (f : list Pixel → option DetectedShape) (l : list (list Pixel)) :
  (∀ r sh, r ∈ l → f r = Some sh →
           area sh = Z.of_nat (length r) ∧ 64 ≤ area sh) →
  64 * Z.of_nat (length (omap f l)) ≤ sumAreas (omap f l)
  ∧ sumAreas (omap f l) ≤ Z.of_nat (length (mjoin l)).
Proof.
  induction l as [|r l IH]; intros Hf; [cbn; lia|].
  destruct IH as [IH1 IH2].
  { intros r' sh Hr'. apply Hf. by right. }
  change (mjoin (r :: l)) with (r ++ mjoin l). rewrite length_app.
  cbn [omap list_omap]. destruct (f r) as [sh|] eqn:Hsh.
  - destruct (Hf r sh) as [Harea Hbig]; [left|done|].
    fold (omap f l). cbn [length sumAreas foldr]. fold (sumAreas (omap f l)).
    lia.
  - fold (omap f l). lia.
Qed.

Lemma length_join_filter {A : Type} (P : list A → Prop)
    `{!∀ x, Decision (P x)} (l : list (list A)) :
  (length (mjoin (filter P l)) ≤ length (mjoin l))%nat.
Proof.
  induction l as [|r l IH]; [done|].
  change (mjoin (r :: l)) with (r ++ mjoin l). rewrite length_app.
  rewrite filter_cons. destruct (decide (P r)); [|lia].
  change (mjoin (r :: filter P l)) with (r ++ mjoin (filter P l)).
  rewrite length_app. lia.
Qed.

(** ** The confidence of an emitted shape *)

(** On an emitted shape the clamp of [analyzeShape] changes nothing: the
    confidence is the value of the chain times the size penalty. *)
Lemma emitted_confidence c ar e a :
  (c < 0.85)%R → (0 <= e <= 1)%R →
  ¬ (finalConfidence (classify c ar e).2 a < 0.6)%R →
  finalConfidence (classify c ar e).2 a
  = (rawConfidence (classify c ar e).1 e * sizePenalty a)%R.
Proof.
  intros Hc He Hconf.
  pose proof (sizePenalty_le_1 a) as Hp1.
  destruct (classify_raw_bounds c ar e Hc He) as [_ Hraw].
  assert (Hsame : (classify c ar e).2 = rawConfidence (classify c ar e).1 e).
  { unfold classify. rewrite bool_decide_eq_false_2 by lra.
    repeat (case_bool_decide; cbn [andb fst snd rawConfidence]); done. }
  rewrite <- Hsame. revert Hconf. unfold finalConfidence.
  set (raw := (classify c ar e).2) in *.
  pose proof (Rmult_le_compat_l raw _ _ (proj1 Hraw) Hp1).
  unfold Rmax, Rmin. repeat destruct (Rle_dec _ _); lra.
Qed.

(** The same on a region as [detectShapes] passes it. *)
Lemma region_confidence s r :
  NoDup r → (19 ≤ length r)%nat →
  (∀ p, p ∈ r → inBounds (width s) (height s) p) →
  ¬ (l_confidence (analyzeLocals s r) < 0.6)%R →
  l_confidence (analyzeLocals s r)
  = (rawConfidence (l_type (analyzeLocals s r))
       (IZR (l_area (analyzeLocals s r))
        / IZR (l_width (analyzeLocals s r) * l_height (analyzeLocals s r)))
     * sizePenalty (l_area (analyzeLocals s r)))%R.
Proof.
  intros Hnd Hlen Hin Hconf.
  destruct (region_locals s r Hnd Hlen Hin)
    as (_ & _ & _ & _ & _ & Hbw & Hbh & _ & _ & Harea & _).
  pose proof (circularityOf_upper r Hnd Hlen) as Hc.
  revert Hconf Hbw Hbh Harea. unfold analyzeLocals.
  cbn [l_confidence l_type l_width l_height l_area].
  set (bw := maxX _ - minX _ + 1). set (bh := maxY _ - minY _ + 1).
  set (a := Z.of_nat (length r)). fold a in Hc.
  intros Hconf Hbw Hbh Harea.
  assert (HB : (0 < IZR (bw * bh))%R) by (apply IZR_lt; lia).
  assert (Ha : (0 <= IZR a)%R) by (apply IZR_le; unfold a; lia).
  assert (HaB : (IZR a <= IZR (bw * bh))%R) by by apply IZR_le.
  apply emitted_confidence; [done| |done]. split.
  - apply Rmult_le_pos; [done|]. left. by apply Rinv_0_lt_compat.
  - apply (Rmult_le_reg_r (IZR (bw * bh))); [done|].
    unfold Rdiv. rewrite Rmult_assoc, Rinv_l by lra. lra.
Qed.

(** ** Which regions pass the cutoff *)



(** ** Intersection over union *)




(** A box with an area matches itself fully. *)
Lemma calculateIoU_self box :
  (0 < box_width box)%R → (0 < box_height box)%R →
  calculateIoU box box = Finite 1.
Proof.
  intros Hw Hh. unfold calculateIoU.
  assert (Hx : (Rmin (box_x box + box_width box) (box_x box + box_width box)
                - Rmax (box_x box) (box_x box) = box_width box)%R).
  { unfold Rmax, Rmin. repeat destruct (Rle_dec _ _); lra. }
  assert (Hy : (Rmin (box_y box + box_height box) (box_y box + box_height box)
                - Rmax (box_y box) (box_y box) = box_height box)%R).
  { unfold Rmax, Rmin. repeat destruct (Rle_dec _ _); lra. }
  rewrite Hx, Hy, !Rmax_right by lra.
  assert (Ha : (0 < box_width box * box_height box)%R) by nra.
  unfold jsDiv. rewrite bool_decide_eq_false_2 by lra.
  f_equal. field. lra.
Qed.


(** ** The loops of [calculateMetrics] *)

Lemma foldl_invariant {A B : Type} (P : A → Prop) (f : A → B → A) (l : list B) :
  (∀ a x, x ∈ l → P a → P (f a x)) → ∀ a, P a → P (foldl f a l).
Proof.
  induction l as [|x l IH]; intros Hstep a Ha; [done|].
  cbn [foldl]. apply IH.
  - intros a' y Hy. apply Hstep. by right.
  - apply Hstep; [left|done].
Qed.

Lemma indexed_elem {A : Type} (l : list A) j e :
  (j, e) ∈ indexed l → l !! j = Some e.
Proof.
  intros Hin. apply list_elem_of_lookup in Hin as [i Hi].
  unfold indexed in Hi. apply lookup_zip_Some in Hi as [Hj He].
  apply lookup_seq in Hj as [-> _]. done.
Qed.

Lemma elem_indexed {A : Type} (l : list A) j e :
  l !! j = Some e → (j, e) ∈ indexed l.
Proof.
  intros Hj. apply list_elem_of_lookup. exists j.
  unfold indexed. apply lookup_zip_Some. split; [|done].
  apply lookup_seq. split; [done|]. by apply lookup_lt_Some in Hj.
Qed.

(** What the inner loop leaves in [bestMatchIdx] and [bestIoU]. *)
Lemma bestMatch_spec matched detected expected :
  snd (bestMatch matched detected expected) ≠ NaN
  ∧ (bestMatch matched detected expected = (-1, Finite 0)
     ∨ ∃ j e, fst (bestMatch matched detected expected) = Z.of_nat j
         ∧ expected !! j = Some e ∧ (j ∉ matched)
         ∧ snd (bestMatch matched detected expected)
           = calculateIoU (det_boundingBox detected) (ex_boundingBox e)).
Proof.
  unfold bestMatch.
  apply (foldl_invariant
    (fun best => snd best ≠ NaN
       ∧ (best = (-1, Finite 0)
          ∨ ∃ j e, fst best = Z.of_nat j ∧ expected !! j = Some e
              ∧ (j ∉ matched)
              ∧ snd best = calculateIoU (det_boundingBox detected)
                                        (ex_boundingBox e)))).
  - intros best [j e] Hje [Hnan Hbest]. unfold bestStep. cbn [fst snd].
    case_bool_decide as Hm; [done|].
    destruct (jsGt _ (snd best)) eqn:Hgt; [|done]. cbn [fst snd]. split.
    + intros E. by rewrite E in Hgt.
    + right. exists j, e. split_and!; [done| |done|done].
      by apply indexed_elem.
  - split; [done|by left].
Qed.

(** The greatest match that is still free is found: no free expected shape
    matches better than [bestIoU]. *)
Lemma jsGt_trans_not a b b' :
  b ≠ NaN → jsGt a b = false → jsGt b' b = true → jsGt a b' = false.
Proof.
  destruct a, b, b'; cbn; intros Hb; try done;
    repeat case_bool_decide; try done; lra.
Qed.

Lemma bestMatch_greatest matched detected expected j e :
  expected !! j = Some e → j ∉ matched →
  jsGt (calculateIoU (det_boundingBox detected) (ex_boundingBox e))
       (snd (bestMatch matched detected expected)) = false.
Proof.
  intros Hj Hm. apply elem_indexed in Hj. unfold bestMatch.
  revert Hj. generalize (indexed expected). intros l.
  assert (Hgen : ∀ best, snd best ≠ NaN →
    snd (foldl (bestStep matched detected) best l) ≠ NaN
    ∧ (∀ a, jsGt a (snd best) = false →
            jsGt a (snd (foldl (bestStep matched detected) best l)) = false)
    ∧ ((j, e) ∈ l →
       jsGt (calculateIoU (det_boundingBox detected) (ex_boundingBox e))
            (snd (foldl (bestStep matched detected) best l)) = false)).
  { induction l as [|[j' e'] l IH]; intros best Hnan.
    - split_and!; [done|done|]. intros H. by apply elem_of_nil in H.
    - cbn [foldl].
      assert (Hstep : snd (bestStep matched detected best (j', e')) ≠ NaN
        ∧ ∀ a, jsGt a (snd best) = false →
               jsGt a (snd (bestStep matched detected best (j', e'))) = false).
      { unfold bestStep. cbn [fst snd]. case_bool_decide; [done|].
        destruct (jsGt _ (snd best)) eqn:Hgt; [|done]. cbn [snd]. split.
        - intros E. by rewrite E in Hgt.
        - intros a Ha. by apply (jsGt_trans_not a (snd best)). }
      destruct Hstep as [Hnan' Hmono].
      destruct (IH _ Hnan') as (Hn & Hmono' & Hin). split_and!; [done| |].
      + intros a Ha. by apply Hmono', Hmono.
      + intros Hje. apply elem_of_cons in Hje as [[= <- <-]|Hje]; [|by apply Hin].
        apply Hmono'. unfold bestStep. cbn [fst snd].
        rewrite bool_decide_eq_false_2 by done.
        destruct (jsGt _ (snd best)) eqn:Hgt; [|done]. cbn [snd].
        destruct (calculateIoU _ _); cbn; try done.
        apply bool_decide_eq_false_2. lra. }
  intros Hj. by apply (Hgen (-1, Finite 0)).
Qed.

Lemma bump_is_Some f type (m : gmap string Counters) :
  is_Some (m !! type) →
  ∃ m', bump f type m = Some m'
        ∧ ∀ k, is_Some (m !! k) → is_Some (m' !! k).
Proof.
  intros [c Hc]. unfold bump. rewrite Hc. eexists. split; [done|].
  intros k Hk. apply lookup_insert_is_Some'. by right.
Qed.

Lemma initShapeWise_is_Some types type :
  type ∈ types → is_Some (initShapeWise types !! type).
Proof.
  unfold initShapeWise.
  assert (Hgen : ∀ m : gmap string Counters,
    type ∈ types ∨ is_Some (m !! type) →
    is_Some (foldl (fun m type => <[type := mkCounters 0 0 0]> m) m types
             !! type)).
  { induction types as [|t types IH]; intros m [Hin|Hm]; cbn [foldl].
    - by apply elem_of_nil in Hin.
    - done.
    - apply IH. apply elem_of_cons in Hin as [->|Hin]; [right|by left].
      apply lookup_insert_is_Some'. by left.
    - apply IH. right. apply lookup_insert_is_Some'. by right. }
  intros Hin. apply Hgen. by left.
Qed.

Lemma countExpected_is_Some (known : list string) expected :
  ∀ m : gmap string Counters,
    (∀ type, type ∈ known → is_Some (m !! type)) →
    (∀ e, e ∈ expected → ex_type e ∈ known) →
    ∃ m', forEach (fun m shape => bump incExpected (ex_type shape) m)
                  expected m = Some m'
          ∧ ∀ type, type ∈ known → is_Some (m' !! type).
Proof.
  induction expected as [|e expected IH]; intros m Hm Hknown.
  - by exists m.
  - cbn [forEach].
    destruct (bump_is_Some incExpected (ex_type e) m) as (m1 & -> & Hm1).
    { apply Hm, Hknown. left. }
    apply IH.
    + intros type Hty. by apply Hm1, Hm.
    + intros e' He'. apply Hknown. by right.
Qed.

(** What holds of the running counts after the detected shapes [seen]. *)
Record TallyInv (known : list string) (expected : list ExpectedShape)
    (seen : list Detection) (t : Tally) : Prop := mkTallyInv {
  ti_known : ∀ type, type ∈ known → is_Some (t_shapeWise t !! type);
  ti_size : Z.of_nat (size (t_matched t)) = t_truePositives t;
  ti_fp : 0 ≤ t_falsePositives t;
  ti_sum : t_truePositives t + t_falsePositives t ≤ Z.of_nat (length seen);
  ti_details : length (t_details t) = length seen;
  ti_matched : ∀ j, j ∈ t_matched t →
    ∃ e d, expected !! j = Some e ∧ d ∈ seen ∧ det_type d = ex_type e
}.

Lemma detectedStep_inv known testCase seen t detected :
  TallyInv known (tc_expectedShapes testCase) seen t →
  det_type detected ∈ known →
  ∃ t', detectedStep testCase t detected = Some t'
        ∧ TallyInv known (tc_expectedShapes testCase) (seen ++ [detected]) t'.
Proof.
  intros [Hknown Hsize Hfp Hsum Hdet Hmatched] Hty. unfold detectedStep.
  destruct (bump_is_Some incDetected (det_type detected) (t_shapeWise t))
    as (sw & -> & Hsw); [by apply Hknown|].
  assert (Hlen : Z.of_nat (length (seen ++ [detected]))
                 = Z.of_nat (length seen) + 1).
  { rewrite length_app. cbn [length]. lia. }
  assert (Hseen : ∀ j, j ∈ t_matched t →
    ∃ e d, tc_expectedShapes testCase !! j = Some e
           ∧ d ∈ seen ++ [detected] ∧ det_type d = ex_type e).
  { intros j Hj. destruct (Hmatched j Hj) as (e & d & He & Hd & Hde).
    exists e, d. split_and!; [done| |done]. apply elem_of_app. by left. }
  destruct (bestMatch_spec (t_matched t) detected (tc_expectedShapes testCase))
    as [_ Hbest].
  destruct (bestMatch (t_matched t) detected (tc_expectedShapes testCase))
    as [bestMatchIdx bestIoU]. cbn [fst snd] in *.
  destruct (bool_decide (0 ≤ bestMatchIdx) && jsGe bestIoU (Finite 0.5))
    eqn:Hcond.
  - apply andb_prop in Hcond as [Hidx _]. apply bool_decide_eq_true in Hidx.
    destruct Hbest as [[= -> _]|(j & e & -> & He & Hfree & _)]; [lia|].
    rewrite Nat2Z.id, He. case_bool_decide as Hcorrect.
    + destruct (bump_is_Some incCorrect (ex_type e) sw)
        as (sw' & Hsw'' & Hsw'); [rewrite <- Hcorrect; by apply Hsw, Hknown|].
      rewrite Hcorrect, Hsw''.
      eexists. split; [done|]. split; cbn.
      * intros type Htype. by apply Hsw', Hsw, Hknown.
      * rewrite size_union by by apply disjoint_singleton_l.
        rewrite size_singleton. lia.
      * done.
      * lia.
      * rewrite !length_app, Hdet. done.
      * intros j' Hj'. apply elem_of_union in Hj' as [Hj'|Hj'];
          [|by apply Hseen].
        apply elem_of_singleton in Hj' as ->. exists e, detected.
        split_and!; [done| |by rewrite Hcorrect]. apply elem_of_app. right. left.
    + eexists. split; [done|]. split; cbn.
      * intros type Htype. by apply Hsw, Hknown.
      * done.
      * done.
      * lia.
      * rewrite !length_app, Hdet. done.
      * done.
  - eexists. split; [done|]. split; cbn.
    + intros type Htype. by apply Hsw, Hknown.
    + done.
    + lia.
    + lia.
    + rewrite !length_app, Hdet. done.
    + done.
Qed.

Lemma detectedLoop_inv known testCase detectedShapes : ∀ seen t,
  TallyInv known (tc_expectedShapes testCase) seen t →
  (∀ d, d ∈ detectedShapes → det_type d ∈ known) →
  ∃ t', forEach (detectedStep testCase) detectedShapes t = Some t'
        ∧ TallyInv known (tc_expectedShapes testCase)
                   (seen ++ detectedShapes) t'.
Proof.
  induction detectedShapes as [|d ds IH]; intros seen t HI Hknown.
  - exists t. by rewrite app_nil_r.
  - cbn [forEach].
    destruct (detectedStep_inv known testCase seen t d HI) as (t1 & -> & HI1).
    { apply Hknown. left. }
    destruct (IH (seen ++ [d]) t1 HI1) as (t' & Hrun & HI').
    { intros d' Hd'. apply Hknown. by right. }
    exists t'. split; [done|]. by rewrite <- app_assoc in HI'.
Qed.

(** [calculateMetrics] returns, and its result is built from a tally that
    satisfies the invariant. *)
Lemma calculateMetrics_tally testCase detectedShapes :
  ∃ t known,
    TallyInv known (tc_expectedShapes testCase) detectedShapes t
    ∧ calculateMetrics testCase detectedShapes
      = Some (
          let expected := tc_expectedShapes testCase in
          let truePositives := t_truePositives t in
          let falsePositives := t_falsePositives t in
          let falseNegatives :=
            Z.of_nat (length expected) - Z.of_nat (size (t_matched t)) in
          let precision :=
            jsOrZero (jsDiv (Finite (IZR truePositives))
                            (Finite (IZR (truePositives + falsePositives)))) in
          let recall :=
            jsOrZero (jsDiv (Finite (IZR truePositives))
                            (Finite (IZR (truePositives + falseNegatives)))) in
          let f1Score :=
            jsOrZero (jsDiv (jsMul (Finite 2) (jsMul precision recall))
                            (jsAdd precision recall)) in
          mkEvaluationResult (tc_id testCase)
            (bool_decide (falsePositives = 0)
             && bool_decide (falseNegatives = 0))
            (Z.of_nat (length detectedShapes))
            (Z.of_nat (length expected))
            truePositives falsePositives falseNegatives
            precision recall f1Score (t_shapeWise t) (t_details t)).
Proof.
  set (known := (ex_type <$> tc_expectedShapes testCase)
                ++ (det_type <$> detectedShapes)).
  destruct (countExpected_is_Some known (tc_expectedShapes testCase)
              (initShapeWise known)) as (sw & Hsw & Hknown).
  { intros type. apply initShapeWise_is_Some. }
  { intros e He. apply elem_of_app. left. by apply list_elem_of_fmap_2. }
  destruct (detectedLoop_inv known testCase detectedShapes []
              (mkTally 0 0 sw [] ∅)) as (t & Hrun & HI).
  { split; cbn; [done| |done|done|done|].
    - by rewrite size_empty.
    - intros j Hj. by apply elem_of_empty in Hj. }
  { intros d Hd. apply elem_of_app. right. by apply list_elem_of_fmap_2. }
  exists t, known. split; [done|].
  unfold calculateMetrics. fold known. rewrite Hsw, Hrun. done.
Qed.

(** ** The ratios of [calculateMetrics] *)

(** [a / (a + b) || 0] for counts [a] and [b]. *)
Lemma ratio_spec a b :
  0 ≤ a → 0 ≤ b →
  ∃ q, jsOrZero (jsDiv (Finite (IZR a)) (Finite (IZR (a + b)))) = Finite q
       ∧ (0 <= q <= 1)%R
       ∧ (a = 0 → q = 0%R)
       ∧ (0 < a → b = 0 → q = 1%R)
       ∧ (q = 1%R → b = 0).
Proof.
  intros Ha Hb. unfold jsDiv.
  assert (Ha' : (0 <= IZR a)%R) by by apply IZR_le in Ha.
  assert (Hb' : (0 <= IZR b)%R) by by apply IZR_le in Hb.
  case_bool_decide as Hzero.
  - apply eq_IZR in Hzero. assert (a = 0) as -> by lia.
    assert (b = 0) as -> by lia.
    rewrite bool_decide_eq_true_2 by done. cbn. exists 0%R.
    split_and!; [done|lra|lra|done|lia|lra].
  - assert (Hpos : (0 < IZR (a + b))%R).
    { apply IZR_lt. destruct (decide (a + b = 0)) as [E|]; [|lia].
      by rewrite E in Hzero. }
    cbn. eexists. split; [done|]. rewrite plus_IZR in *.
    assert (Hq : (IZR a / (IZR a + IZR b) * (IZR a + IZR b) = IZR a)%R)
      by (field; lra).
    assert (Hq0 : (0 <= IZR a / (IZR a + IZR b))%R).
    { apply Rmult_le_pos; [done|]. left. by apply Rinv_0_lt_compat. }
    split_and!.
    + done.
    + apply (Rmult_le_reg_r (IZR a + IZR b)); [done|]. lra.
    + intros ->. lra.
    + intros _ ->. field. lra.
    + intros E. rewrite E in Hq. apply eq_IZR. lra.
Qed.

(** [2 * (p * r) / (p + r) || 0] for ratios [p] and [r]. *)
Lemma f1_spec p r :
  (0 <= p <= 1)%R → (0 <= r <= 1)%R →
  ∃ f, jsOrZero (jsDiv (jsMul (Finite 2) (jsMul (Finite p) (Finite r)))
                       (jsAdd (Finite p) (Finite r))) = Finite f
       ∧ (0 <= f <= 1)%R
       ∧ (p = 1%R → r = 1%R → f = 1%R).
Proof.
  intros Hp Hr. cbn [jsMul jsAdd]. unfold jsDiv.
  case_bool_decide as Hzero.
  - assert (p = 0 ∧ r = 0)%R as [-> ->] by lra.
    rewrite bool_decide_eq_true_2 by lra. cbn. exists 0%R.
    split_and!; [done|lra|lra|lra].
  - cbn. eexists. split; [done|].
    assert (Hpos : (0 < p + r)%R) by lra.
    assert (Hf : (2 * (p * r) / (p + r) * (p + r) = 2 * (p * r))%R)
      by (field; lra).
    split_and!.
    + apply Rmult_le_pos; [nra|]. left. by apply Rinv_0_lt_compat.
    + apply (Rmult_le_reg_r (p + r)); [done|]. nra.
    + intros -> ->. field.
Qed.

(** What [calculateMetrics] returns. *)
Lemma calculateMetrics_spec testCase detectedShapes :
  ∃ r, calculateMetrics testCase detectedShapes = Some r
    ∧ testCaseId r = tc_id testCase
    ∧ er_detectedShapes r = Z.of_nat (length detectedShapes)
    ∧ er_expectedShapes r = Z.of_nat (length (tc_expectedShapes testCase))
    ∧ length (details r) = length detectedShapes
    ∧ 0 ≤ truePositives r
    ∧ truePositives r ≤ Z.of_nat (length (tc_expectedShapes testCase))
    ∧ 0 ≤ falsePositives r
    ∧ truePositives r + falsePositives r ≤ Z.of_nat (length detectedShapes)
    ∧ falseNegatives r
      = Z.of_nat (length (tc_expectedShapes testCase)) - truePositives r
    ∧ passed r
      = bool_decide (falsePositives r = 0) && bool_decide (falseNegatives r = 0)
    ∧ precision r
      = jsOrZero (jsDiv (Finite (IZR (truePositives r)))
                   (Finite (IZR (truePositives r + falsePositives r))))
    ∧ recall r
      = jsOrZero (jsDiv (Finite (IZR (truePositives r)))
                   (Finite (IZR (truePositives r + falseNegatives r))))
    ∧ f1Score r
      = jsOrZero (jsDiv (jsMul (Finite 2) (jsMul (precision r) (recall r)))
                        (jsAdd (precision r) (recall r)))
    ∧ (falseNegatives r = 0 →
       ∀ e, e ∈ tc_expectedShapes testCase →
            ∃ d, d ∈ detectedShapes ∧ det_type d = ex_type e).
Proof.
  destruct (calculateMetrics_tally testCase detectedShapes)
    as (t & known & [Hknown Hsize Hfp Hsum Hdet Hmatched] & ->).
  eexists. split; [done|]. cbv zeta.
  cbn [testCaseId er_detectedShapes er_expectedShapes details truePositives
       falsePositives falseNegatives passed precision recall f1Score].
  assert (Hsub : t_matched t
                 ⊆ set_seq 0 (length (tc_expectedShapes testCase))).
  { intros j Hj. destruct (Hmatched j Hj) as (e & _ & He & _).
    apply lookup_lt_Some in He. apply elem_of_set_seq. lia. }
  pose proof (subseteq_size _ _ Hsub) as Hle. rewrite size_set_seq in Hle.
  split_and!; try done; try lia.
  intros Hfn e He.
  assert (Heq : t_matched t
                = set_seq 0 (length (tc_expectedShapes testCase))).
  { apply set_subseteq_size_eq; [done|]. rewrite size_set_seq. lia. }
  apply list_elem_of_lookup in He as [j Hj].
  destruct (Hmatched j) as (e' & d & He' & Hd & Hde).
  { rewrite Heq. apply elem_of_set_seq. apply lookup_lt_Some in Hj. lia. }
  exists d. split; [done|]. rewrite Hj in He'. by injection He' as <-.
Qed.

(** ** The steps of [calculateMetrics] one by one *)

Lemma forEach_prefix_inv {A S : Type} (I : list A → S → Prop)
    (body : S → A → option S) (l : list A) :
  (∀ seen st a st', I seen st → a ∈ l → body st a = Some st' →
                    I (seen ++ [a]) st') →
  ∀ st st', I [] st → forEach body l st = Some st' → I l st'.
Proof.
  intros Hstep.
  assert (Hgen : ∀ rest seen st st',
    (∀ a, a ∈ rest → a ∈ l) → I seen st →
    forEach body rest st = Some st' → I (seen ++ rest) st').
  { induction rest as [|a rest IH]; intros seen st st' Hsub HI Hrun.
    - cbn in Hrun. injection Hrun as <-. by rewrite app_nil_r.
    - cbn [forEach] in Hrun. destruct (body st a) as [st1|] eqn:Hbody; [|done].
      rewrite (cons_middle a), app_assoc. apply (IH _ st1); [|  |done].
      + intros b Hb. apply Hsub. by right.
      + apply (Hstep seen st a st1 HI); [|done]. apply Hsub. left. }
  intros st st' HI Hrun. by apply (Hgen l [] st st').
Qed.

Lemma jsGe_of_not_gt a b :
  b ≠ NaN → jsGt a b = false → jsGe a (Finite 0.5) = true →
  jsGe b (Finite 0.5) = true.
Proof.
  destruct a, b; cbn; intros Hb; try done;
    repeat case_bool_decide; try done; lra.
Qed.

(** The three ways a detected shape is counted: as a true positive, when
    the free expected shape that matches it best, with an intersection
    over union of at least 0.5, has its type; as nothing, when that shape
    has another type; as a false positive, when no free expected shape
    matches it that well. *)
Lemma detectedStep_cases testCase t detected t' :
  detectedStep testCase t detected = Some t' →
  ∃ shapeWise,
    bump incDetected (det_type detected) (t_shapeWise t) = Some shapeWise
    ∧ ((∃ j e shapeWise',
          tc_expectedShapes testCase !! j = Some e ∧ (j ∉ t_matched t)
          ∧ jsGe (calculateIoU (det_boundingBox detected) (ex_boundingBox e))
                 (Finite 0.5) = true
          ∧ det_type detected = ex_type e
          ∧ bump incCorrect (det_type detected) shapeWise = Some shapeWise'
          ∧ t' = mkTally (t_truePositives t + 1) (t_falsePositives t)
                   shapeWise'
                   (t_details t
                    ++ [mkDetail (ex_type e) (det_type detected)
                                 (det_confidence detected) true])
                   ({[j]} ∪ t_matched t))
       ∨ (∃ j e,
            tc_expectedShapes testCase !! j = Some e ∧ (j ∉ t_matched t)
            ∧ jsGe (calculateIoU (det_boundingBox detected)
                                 (ex_boundingBox e)) (Finite 0.5) = true
            ∧ det_type detected ≠ ex_type e
            ∧ t' = mkTally (t_truePositives t) (t_falsePositives t) shapeWise
                     (t_details t
                      ++ [mkDetail (ex_type e) (det_type detected)
                                   (det_confidence detected) false])
                     (t_matched t))
       ∨ ((∀ j e, tc_expectedShapes testCase !! j = Some e →
                  j ∉ t_matched t →
                  jsGe (calculateIoU (det_boundingBox detected)
                                     (ex_boundingBox e)) (Finite 0.5)
                  = false)
          ∧ t' = mkTally (t_truePositives t) (t_falsePositives t + 1)
                   shapeWise
                   (t_details t
                    ++ [mkDetail "none" (det_type detected)
                                 (det_confidence detected) false])
                   (t_matched t))).
Proof.
  unfold detectedStep.
  destruct (bump incDetected _ _) as [sw|]; [|done].
  intros Hstep. exists sw. split; [done|].
  destruct (bestMatch_spec (t_matched t) detected (tc_expectedShapes testCase))
    as [Hnan Hbest].
  pose proof (bestMatch_greatest (t_matched t) detected
                (tc_expectedShapes testCase)) as Hgreatest.
  destruct (bestMatch (t_matched t) detected (tc_expectedShapes testCase))
    as [bestMatchIdx bestIoU]. cbn [fst snd] in *.
  destruct (bool_decide (0 ≤ bestMatchIdx) && jsGe bestIoU (Finite 0.5))
    eqn:Hcond.
  - apply andb_prop in Hcond as [Hidx Hge]. apply bool_decide_eq_true in Hidx.
    destruct Hbest as [[= -> _]|(j & e & -> & He & Hfree & ->)]; [lia|].
    rewrite !Nat2Z.id, He in Hstep.
    case_bool_decide as Hcorrect.
    + destruct (bump incCorrect _ sw) as [sw'|] eqn:Hsw'; [|done].
      injection Hstep as <-. left. exists j, e, sw'. by rewrite Hcorrect.
    + injection Hstep as <-. right. left. by exists j, e.
  - injection Hstep as <-. right. right. split; [|done].
    intros j e He Hfree.
    destruct (jsGe (calculateIoU _ _) (Finite 0.5)) eqn:Hge; [|done].
    exfalso.
    pose proof (jsGe_of_not_gt _ _ Hnan (Hgreatest j e He Hfree) Hge) as Hb.
    rewrite Hb, andb_true_r in Hcond. apply bool_decide_eq_false in Hcond.
    destruct Hbest as [[= -> ->]|(j' & e' & -> & _)]; [|lia].
    cbn in Hb. apply bool_decide_eq_true in Hb. lra.
Qed.

(** The result of [calculateMetrics] and the two loops behind it. *)
Lemma calculateMetrics_unfold testCase detectedShapes r :
  calculateMetrics testCase detectedShapes = Some r →
  ∃ shapeWise t,
    forEach (fun m shape => bump incExpected (ex_type shape) m)
            (tc_expectedShapes testCase)
            (initShapeWise (occurringTypes testCase detectedShapes))
    = Some shapeWise
    ∧ forEach (detectedStep testCase) detectedShapes
              (mkTally 0 0 shapeWise [] ∅) = Some t
    ∧ truePositives r = t_truePositives t
    ∧ falsePositives r = t_falsePositives t
    ∧ falseNegatives r
      = Z.of_nat (length (tc_expectedShapes testCase))
        - Z.of_nat (size (t_matched t))
    ∧ shapeWiseResults r = t_shapeWise t
    ∧ details r = t_details t.
Proof.
  unfold calculateMetrics, occurringTypes. cbv zeta. intros Hr.
  destruct (forEach _ (tc_expectedShapes testCase) _) as [sw|] eqn:Hsw;
    [|done].
  destruct (forEach (detectedStep testCase) _ _) as [t|] eqn:Ht; [|done].
  exists sw, t. injection Hr as <-.
  split_and!; [reflexivity|exact Ht|reflexivity..].
Qed.

(** *** The entries of [details] *)

Record DetailsInv (expected : list ExpectedShape) (seen : list Detection)
    (t : Tally) : Prop := mkDetailsInv {
  di_detected : d_detected <$> t_details t = det_type <$> seen;
  di_confidence : d_confidence <$> t_details t = det_confidence <$> seen;
  di_correct :
    Z.of_nat (length (filter (fun d => d_isCorrect d = true) (t_details t)))
    = t_truePositives t;
  di_same : Forall (fun d => d_isCorrect d = true →
                             d_expected d = d_detected d) (t_details t);
  di_none :
    (∀ e, e ∈ expected → ex_type e ≠ "none") →
    Z.of_nat (length (filter (fun d => d_expected d = "none") (t_details t)))
    = t_falsePositives t
}.

Lemma detectedStep_details testCase seen t detected t' :
  DetailsInv (tc_expectedShapes testCase) seen t →
  detectedStep testCase t detected = Some t' →
  DetailsInv (tc_expectedShapes testCase) (seen ++ [detected]) t'.
Proof.
  intros [Hdet Hconf Hcorr Hsame Hnone] Hstep.
  apply detectedStep_cases in Hstep as (sw & _ & Hcases).
  assert (Hnamed : ∀ j e, tc_expectedShapes testCase !! j = Some e →
            (∀ e, e ∈ tc_expectedShapes testCase → ex_type e ≠ "none") →
            ex_type e ≠ "none").
  { intros j e He Hall. apply Hall. by apply list_elem_of_lookup_2 in He. }
  destruct Hcases as [(j & e & sw' & He & _ & _ & Hty & _ & ->)
                     |[(j & e & He & _ & _ & Hty & ->)|[_ ->]]];
    split; cbn [t_details t_truePositives t_falsePositives];
    rewrite ?fmap_app, ?Hdet, ?Hconf, ?filter_app, ?length_app; try done.
  - rewrite filter_cons_True, filter_nil by done. cbn [length]. lia.
  - apply Forall_app. split; [done|]. by apply Forall_singleton.
  - intros Hall. rewrite filter_cons_False by (by apply (Hnamed j e)).
    rewrite filter_nil, <- (Hnone Hall). cbn [length]. lia.
  - rewrite filter_cons_False, filter_nil by done. cbn [length]. lia.
  - apply Forall_app. split; [done|]. by apply Forall_singleton.
  - intros Hall. rewrite filter_cons_False by (by apply (Hnamed j e)).
    rewrite filter_nil, <- (Hnone Hall). cbn [length]. lia.
  - rewrite filter_cons_False, filter_nil by done. cbn [length]. lia.
  - apply Forall_app. split; [done|]. by apply Forall_singleton.
  - intros Hall. rewrite filter_cons_True by done.
    rewrite filter_nil, <- (Hnone Hall). cbn [length]. lia.
Qed.

Lemma calculateMetrics_details testCase detectedShapes r :
  calculateMetrics testCase detectedShapes = Some r →
  d_detected <$> details r = det_type <$> detectedShapes
  ∧ d_confidence <$> details r = det_confidence <$> detectedShapes
  ∧ Z.of_nat (length (filter (fun d => d_isCorrect d = true) (details r)))
    = truePositives r
  ∧ Forall (fun d => d_isCorrect d = true → d_expected d = d_detected d)
           (details r)
  ∧ ((∀ e, e ∈ tc_expectedShapes testCase → ex_type e ≠ "none") →
     Z.of_nat (length (filter (fun d => d_expected d = "none") (details r)))
     = falsePositives r).
Proof.
  intros Hr.
  apply calculateMetrics_unfold in Hr
    as (sw & t & _ & Hloop & -> & -> & _ & _ & ->).
  destruct (forEach_prefix_inv (DetailsInv (tc_expectedShapes testCase))
              (detectedStep testCase) detectedShapes) with
    (st := mkTally 0 0 sw [] ∅) (st' := t) as [H1 H2 H3 H4 H5]; [| |done|done].
  - intros seen st a st' HI _ Hstep.
    by apply (detectedStep_details testCase seen st a st').
  - by split.
Qed.

(** *** The counters by type *)

Lemma bump_Some f type (m m' : gmap string Counters) :
  bump f type m = Some m' →
  ∃ c, m !! type = Some c ∧ m' = <[type := f c]> m.
Proof.
  unfold bump. destruct (m !! type) as [c|]; [|done].
  intros [= <-]. by exists c.
Qed.

Lemma initShapeWise_lookup known type :
  initShapeWise known !! type
  = if decide (type ∈ known) then Some (mkCounters 0 0 0) else None.
Proof.
  unfold initShapeWise.
  assert (Hgen : ∀ m : gmap string Counters,
    foldl (fun m type => <[type := mkCounters 0 0 0]> m) m known !! type
    = if decide (type ∈ known) then Some (mkCounters 0 0 0) else m !! type).
  { induction known as [|t known IH]; intros m; cbn [foldl].
    - destruct (decide (type ∈ [])) as [H|]; [|done]. by apply elem_of_nil in H.
    - rewrite IH.
      destruct (decide (type ∈ known)) as [Hin|Hnin].
      + rewrite decide_True; [done|by right].
      + destruct (decide (type = t)) as [->|Hne].
        * rewrite lookup_insert_eq. rewrite decide_True; [done|left].
        * rewrite lookup_insert_ne by done.
          rewrite decide_False; [done|].
          intros H. apply elem_of_cons in H as [|]; done. }
  by rewrite Hgen, lookup_empty.
Qed.

Lemma countDetected_snoc type seen d :
  countDetected type (seen ++ [d])
  = countDetected type seen + (if decide (det_type d = type) then 1 else 0).
Proof.
  unfold countDetected. rewrite filter_app, length_app.
  destruct (decide (det_type d = type)).
  - rewrite filter_cons_True, filter_nil by done. cbn [length]. lia.
  - rewrite filter_cons_False, filter_nil by done. cbn [length]. lia.
Qed.

Lemma countExpected_snoc type seen e :
  countExpected type (seen ++ [e])
  = countExpected type seen + (if decide (ex_type e = type) then 1 else 0).
Proof.
  unfold countExpected. rewrite filter_app, length_app.
  destruct (decide (ex_type e = type)).
  - rewrite filter_cons_True, filter_nil by done. cbn [length]. lia.
  - rewrite filter_cons_False, filter_nil by done. cbn [length]. lia.
Qed.

(** After the loop over the expected shapes. *)
Lemma countExpected_loop known expected shapeWise :
  forEach (fun m shape => bump incExpected (ex_type shape) m) expected
          (initShapeWise known) = Some shapeWise →
  ∀ type, shapeWise !! type
          = if decide (type ∈ known)
            then Some (mkCounters 0 (countExpected type expected) 0)
            else None.
Proof.
  apply (forEach_prefix_inv
    (fun seen (m : gmap string Counters) => ∀ type,
       m !! type = if decide (type ∈ known)
                   then Some (mkCounters 0 (countExpected type seen) 0)
                   else None)).
  - intros seen m e m' HI _ Hstep type.
    apply bump_Some in Hstep as (c & Hc & ->).
    rewrite countExpected_snoc.
    destruct (decide (ex_type e = type)) as [<-|Hne].
    + rewrite lookup_insert_eq. rewrite HI in Hc.
      destruct (decide (ex_type e ∈ known)); [|done].
      injection Hc as <-. unfold incExpected. cbn. done.
    + rewrite lookup_insert_ne by done. rewrite HI.
      destruct (decide (type ∈ known)); [|done]. do 2 f_equal. lia.
  - intros type. by rewrite initShapeWise_lookup.
Qed.

(** Splits the facts about a counter and proves each part of the goal. *)
Ltac solve_counts :=
  repeat match goal with H : _ ∧ _ |- _ => destruct H end;
  repeat split; first [done|lia].

(** What holds of [shapeWiseResults] after the detected shapes [seen]. *)
Definition ShapeWiseInv (known : list string) (expected : list ExpectedShape)
    (seen : list Detection) (m : gmap string Counters) : Prop :=
  ∀ type,
    match m !! type with
    | Some c =>
        type ∈ known
        ∧ c_detected c = countDetected type seen
        ∧ c_expected c = countExpected type expected
        ∧ 0 ≤ c_correct c ≤ c_detected c
    | None => type ∉ known
    end.

Lemma bump_detected_inv known expected seen d m m' :
  ShapeWiseInv known expected seen m →
  bump incDetected (det_type d) m = Some m' →
  ∀ type,
    match m' !! type with
    | Some c =>
        type ∈ known
        ∧ c_detected c = countDetected type (seen ++ [d])
        ∧ c_expected c = countExpected type expected
        ∧ 0 ≤ c_correct c
        ∧ c_correct c + (if decide (det_type d = type) then 1 else 0)
          ≤ c_detected c
    | None => type ∉ known
    end.
Proof.
  intros HI Hbump type. apply bump_Some in Hbump as (c & Hc & ->).
  rewrite countDetected_snoc. pose proof (HI type) as Hty.
  destruct (decide (det_type d = type)) as [<-|Hne].
  - rewrite lookup_insert_eq. rewrite Hc in Hty. cbn. solve_counts.
  - rewrite lookup_insert_ne by done.
    destruct (m !! type); [|done]. solve_counts.
Qed.

Lemma detectedStep_shapeWise known testCase seen t detected t' :
  ShapeWiseInv known (tc_expectedShapes testCase) seen (t_shapeWise t) →
  detectedStep testCase t detected = Some t' →
  ShapeWiseInv known (tc_expectedShapes testCase) (seen ++ [detected])
               (t_shapeWise t').
Proof.
  intros HI Hstep.
  apply detectedStep_cases in Hstep as (sw & Hsw & Hcases).
  pose proof (bump_detected_inv _ _ _ _ _ _ HI Hsw) as Hsw'.
  destruct Hcases as [(j & e & sw' & _ & _ & _ & _ & Hcorrect & ->)
                     |[(j & e & _ & _ & _ & _ & ->)|[_ ->]]];
    cbn [t_shapeWise]; intros type; specialize (Hsw' type).
  - apply bump_Some in Hcorrect as (c & Hc & ->).
    destruct (decide (det_type detected = type)) as [<-|Hne].
    + rewrite lookup_insert_eq. rewrite Hc in Hsw'. cbn. solve_counts.
    + rewrite lookup_insert_ne by done. destruct (sw !! type); [|done].
      solve_counts.
  - destruct (sw !! type); [|done].
    destruct (decide (det_type detected = type)); solve_counts.
  - destruct (sw !! type); [|done].
    destruct (decide (det_type detected = type)); solve_counts.
Qed.

Lemma calculateMetrics_shapeWise testCase detectedShapes r :
  calculateMetrics testCase detectedShapes = Some r →
  ShapeWiseInv (occurringTypes testCase detectedShapes)
               (tc_expectedShapes testCase) detectedShapes
               (shapeWiseResults r).
Proof.
  intros Hr.
  apply calculateMetrics_unfold in Hr
    as (sw & t & Hexp & Hloop & _ & _ & _ & -> & _).
  pose proof (countExpected_loop _ _ _ Hexp) as Hsw.
  apply (forEach_prefix_inv
    (fun seen t => ShapeWiseInv (occurringTypes testCase detectedShapes)
                     (tc_expectedShapes testCase) seen (t_shapeWise t))
    (detectedStep testCase) detectedShapes)
    with (st := mkTally 0 0 sw [] ∅); [| |done].
  - intros seen st a st' HI _ Hstep.
    by apply (detectedStep_shapeWise _ testCase seen st a st').
  - intros type. cbn [t_shapeWise]. rewrite Hsw.
    destruct (decide (type ∈ _)); [|done]. cbn. unfold countDetected. cbn.
    split_and!; [done|done|done|lia|lia].
Qed.

(** *** Detected shapes of the wrong types *)

(** When no detected shape has the type of an expected shape, but each
    lies on an expected shape, nothing is matched and nothing is counted
    as a false positive. *)
Lemma wrongTypes_loop testCase detectedShapes shapeWise t :
  (∀ d e, d ∈ detectedShapes → e ∈ tc_expectedShapes testCase →
          det_type d ≠ ex_type e) →
  (∀ d, d ∈ detectedShapes →
        ∃ e, e ∈ tc_expectedShapes testCase
             ∧ jsGe (calculateIoU (det_boundingBox d) (ex_boundingBox e))
                    (Finite 0.5) = true) →
  forEach (detectedStep testCase) detectedShapes
          (mkTally 0 0 shapeWise [] ∅) = Some t →
  t_truePositives t = 0 ∧ t_falsePositives t = 0 ∧ t_matched t = ∅
  ∧ Forall (fun d => d_isCorrect d = false ∧ d_expected d ≠ d_detected d)
           (t_details t).
Proof.
  intros Htypes Hover.
  apply (forEach_prefix_inv
    (fun (seen : list Detection) t =>
       t_truePositives t = 0 ∧ t_falsePositives t = 0 ∧ t_matched t = ∅
       ∧ Forall (fun d => d_isCorrect d = false
                          ∧ d_expected d ≠ d_detected d) (t_details t))).
  - intros seen st d st' (Htp & Hfp & Hm & Hdet) Hd Hstep.
    apply detectedStep_cases in Hstep as (sw & _ & Hcases).
    destruct Hcases as [(j & e & sw' & He & _ & _ & Hty & _ & ->)
                       |[(j & e & He & _ & _ & Hty & ->)|[Hnone ->]]].
    + exfalso. apply (Htypes d e Hd); [|done].
      by apply list_elem_of_lookup_2 in He.
    + cbn. split_and!; [done..|]. apply Forall_app. split; [done|].
      apply Forall_singleton. cbn. split; [done|]. congruence.
    + exfalso. destruct (Hover d Hd) as (e & He & Hge).
      apply list_elem_of_lookup in He as [j Hj].
      rewrite (Hnone j e Hj) in Hge; [done|].
      rewrite Hm. apply not_elem_of_empty.
  - cbn. by split_and!.
Qed.

(** ** The evaluation manager *)

Lemma afterCall_index m c :
  currentTestCaseIndex (afterCall m c) = currentTestCaseIndex m.
Proof.
  destruct c as [tc|ds id]; [done|]. cbn [afterCall]. unfold evaluate.
  destruct (selectTestCase m id); [|done].
  by destruct (calculateMetrics _ _).
Qed.

Lemma managerAfter_index cases calls :
  currentTestCaseIndex (managerAfter cases calls) = -1.
Proof.
  unfold managerAfter.
  apply (foldl_invariant (fun m => currentTestCaseIndex m = -1)); [|done].
  intros m c _ Hm. by rewrite afterCall_index.
Qed.

(** Every stored result is a result of [calculateMetrics]. *)
Lemma managerAfter_results cases calls r :
  r ∈ results (managerAfter cases calls) →
  ∃ testCase detectedShapes,
    calculateMetrics testCase detectedShapes = Some r.
Proof.
  unfold managerAfter. revert r.
  apply (foldl_invariant (fun m => ∀ r, r ∈ results m →
           ∃ testCase detectedShapes,
             calculateMetrics testCase detectedShapes = Some r)).
  - intros m [tc|ds id] _ Hm r; [by apply Hm|].
    cbn [afterCall]. unfold evaluate.
    destruct (selectTestCase m id) as [tc|]; [|by apply Hm].
    destruct (calculateMetrics tc ds) as [r'|] eqn:Hr'; [|by apply Hm].
    cbn [results]. intros Hr. apply elem_of_app in Hr as [Hr|Hr];
      [by apply Hm|].
    apply list_elem_of_singleton in Hr as ->. by exists tc, ds.
  - intros r Hr. by apply elem_of_nil in Hr.
Qed.

Lemma calculateMetrics_ratios testCase detectedShapes r :
  calculateMetrics testCase detectedShapes = Some r →
  isRatio (precision r) ∧ isRatio (recall r) ∧ isRatio (f1Score r).
Proof.
  intros Hr.
  destruct (calculateMetrics_spec testCase detectedShapes)
    as (r' & Hr' & _ & _ & _ & _ & Htp & Htpn & Hfp & _ & Hfn & _
        & Hp & Hq & Hf & _).
  rewrite Hr in Hr'. injection Hr' as <-.
  destruct (ratio_spec (truePositives r) (falsePositives r) Htp Hfp)
    as (p & Hp' & Hp01 & _).
  destruct (ratio_spec (truePositives r) (falseNegatives r) Htp ltac:(lia))
    as (q & Hq' & Hq01 & _).
  rewrite Hp' in Hp. rewrite Hq' in Hq. rewrite Hp, Hq in Hf.
  destruct (f1_spec p q Hp01 Hq01) as (f & Hf' & Hf01 & _).
  rewrite Hf' in Hf.
  split_and!; [by exists p|by exists q|by exists f].
Qed.

(** The sums of [getOverallMetrics] over results with ratios. *)
Lemma sum_ratios (rs : list EvaluationResult) :
  (∀ r, r ∈ rs →
        isRatio (precision r) ∧ isRatio (recall r) ∧ isRatio (f1Score r)) →
  ∀ a b c,
    ∃ a' b' c',
      foldl sumStep (Finite a, Finite b, Finite c) rs
      = (Finite a', Finite b', Finite c')
      ∧ (a <= a' <= a + INR (length rs))%R
      ∧ (b <= b' <= b + INR (length rs))%R
      ∧ (c <= c' <= c + INR (length rs))%R.
Proof.
  induction rs as [|r rs IH]; intros Hall a b c.
  - exists a, b, c. cbn. split; [done|]. lra.
  - destruct (Hall r) as ((p & Hp & Hp01) & (q & Hq & Hq01) & (f & Hf & Hf01));
      [left|].
    cbn [foldl]. unfold sumStep at 2. cbn [fst snd]. rewrite Hp, Hq, Hf.
    cbn [jsAdd].
    destruct (IH (fun r' Hr' => Hall r' (list_elem_of_further _ _ _ Hr'))
                (a + p)%R (b + q)%R (c + f)%R)
      as (a' & b' & c' & -> & Ha & Hb & Hc).
    exists a', b', c'. split; [done|].
    change (length (r :: rs)) with (S (length rs)). rewrite S_INR. lra.
Qed.

(** ** The verdict of the test runner *)

Lemma typeName_circle t : typeName t = "circle" → t = circle.
Proof. by destruct t. Qed.

Lemma countOfType_circle (l : list DetectedShape) :
  Forall (fun sh => shape_type sh ≠ circle) l → countOfType "circle" l = 0.
Proof.
  unfold countOfType. induction l as [|sh l IH]; intros Hall; [done|].
  apply Forall_cons in Hall as [Hsh Hall].
  rewrite filter_cons_False; [by apply IH|].
  intros E. by apply Hsh, typeName_circle.
Qed.

Lemma countStep_count type (l : list DetectedShape) : ∀ m : gmap string Z,
  default 0 (foldl countStep m l !! type)
  = default 0 (m !! type) + countOfType type l.
Proof.
  unfold countOfType.
  induction l as [|sh l IH]; intros m; [cbn; lia|].
  cbn [foldl]. rewrite IH. unfold countStep.
  destruct (decide (typeName (shape_type sh) = type)) as [E|E].
  - rewrite filter_cons_True by done. rewrite E, lookup_insert_eq.
    cbn [default length]. unfold Datatypes.id. lia.
  - rewrite filter_cons_False by done. by rewrite lookup_insert_ne.
Qed.

Lemma evaluateResult_true testCase result :
  evaluateResult testCase result = true
  ↔ (∀ e, e ∈ ti_expectedShapes testCase →
          countOfType (ec_type e) (shapes result) = count e)
    ∧ (∀ sh e, sh ∈ shapes result →
         find (fun s => bool_decide (ec_type s = typeName (shape_type sh)))
              (ti_expectedShapes testCase) = Some e →
         minArea e ≤ area sh ≤ maxArea e).
Proof.
  unfold evaluateResult.
  destruct (existsb (countDiffers _) _) eqn:Hcount.
  - split; [done|]. intros [Hc _]. exfalso.
    apply existsb_exists in Hcount as (e & He & Hdiff).
    apply list_elem_of_In in He. unfold countDiffers in Hdiff.
    rewrite countStep_count, lookup_empty in Hdiff. cbn [default] in Hdiff.
    rewrite (Hc e He), Z.add_0_l, Z.eqb_refl in Hdiff. done.
  - assert (Hc : ∀ e, e ∈ ti_expectedShapes testCase →
              countOfType (ec_type e) (shapes result) = count e).
    { intros e He. apply list_elem_of_In in He.
      destruct (decide (countOfType (ec_type e) (shapes result) = count e))
        as [|Hne]; [done|]. exfalso.
      assert (existsb (countDiffers (foldl countStep ∅ (shapes result)))
                (ti_expectedShapes testCase) = true) as Htrue.
      { apply existsb_exists. exists e. split; [done|]. unfold countDiffers.
        rewrite countStep_count, lookup_empty. cbn [default].
        rewrite Z.add_0_l. apply negb_true_iff. by apply Z.eqb_neq. }
      by rewrite Htrue in Hcount. }
    destruct (existsb (areaOutside _) _) eqn:Harea.
    + split; [done|]. intros [_ Ha]. exfalso.
      apply existsb_exists in Harea as (sh & Hsh & Hout).
      apply list_elem_of_In in Hsh. unfold areaOutside in Hout.
      destruct (find _ _) as [e|] eqn:Hfind; [|done].
      pose proof (Ha sh e Hsh Hfind). lia.
    + split; [|done]. intros _. split; [done|]. intros sh e Hsh Hfind.
      destruct (decide (minArea e ≤ area sh ≤ maxArea e)) as [|Hout]; [done|].
      exfalso.
      assert (existsb (areaOutside (ti_expectedShapes testCase))
                (shapes result) = true) as Htrue.
      { apply existsb_exists. exists sh. split; [by apply list_elem_of_In|].
        unfold areaOutside. rewrite Hfind. lia. }
      by rewrite Htrue in Harea.
Qed.

(** ** The order of the regions and of the shapes *)

Lemma forEach_split_inv {A S : Type} (I : list A → S → Prop)
    (body : S → A → option S) (l : list A) :
  (∀ seen a rest st st', l = seen ++ a :: rest → I seen st →
                         body st a = Some st' → I (seen ++ [a]) st') →
  ∀ st st', I [] st → forEach body l st = Some st' → I l st'.
Proof.
  intros Hstep.
  assert (Hgen : ∀ rest seen st st',
    l = seen ++ rest → I seen st →
    forEach body rest st = Some st' → I (seen ++ rest) st').
  { induction rest as [|a rest IH]; intros seen st st' Hl HI Hrun.
    - cbn in Hrun. injection Hrun as <-. by rewrite app_nil_r.
    - cbn [forEach] in Hrun. destruct (body st a) as [st1|] eqn:Hbody; [|done].
      rewrite (cons_middle a), app_assoc. apply (IH _ st1); [| |done].
      + by rewrite <- app_assoc.
      + by apply (Hstep seen a rest st st1). }
  intros st st' HI Hrun. by apply (Hgen l [] st st').
Qed.

(** A cell of the scan adds no region, or one region that starts with the
    cell. *)
Lemma scanPixel_new w h bm st p st' :
  ScanInv w h bm st → inBounds w h p → scanPixel st p = Some st' →
  sc_filled st' = sc_filled st
  ∨ ∃ rest, sc_filled st' = sc_filled st ++ [p :: rest].
Proof.
  intros HI Hin.
  pose proof HI as [Hw Hh Hbm Hwf Hnd Hfg Hvis Hhanded Hshapes _ _].
  unfold scanPixel, scanCell.
  destruct (mat_get (binaryMatrix (sc_det st)) (px p) (py p)
            && negb (mat_get (visited (sc_det st)) (px p) (py p))) eqn:Hcond.
  - apply andb_prop in Hcond as [Hfgp Hnv]. apply negb_true_iff in Hnv.
    destruct (floodFill_spec (sc_det st) (px p) (py p))
      as (vis' & rest & Hrun & _).
    { by rewrite Hw, Hh. } { rewrite Hw, Hh. by destruct p. }
    { done. } { done. }
    rewrite Hrun. replace (mkPixel (px p) (py p)) with p by (by destruct p).
    destruct (minShapeSize <? length (p :: rest))%nat;
      intros [= <-]; right; by exists rest.
  - intros [= <-]. by left.
Qed.

(** The position of the first pixel of [r] in [L] is before that of the
    first pixel of [r']. *)
Definition startsPos (L : list Pixel) (r r' : list Pixel) : Prop :=
  ∀ q q' i i', head r = Some q → head r' = Some q' →
               L !! i = Some q → L !! i' = Some q' → (i < i')%nat.

(** What holds of the regions found when the cells [seen] of the cells [L]
    are scanned. *)
Record OrderInv (w h : Z) (bm : Matrix) (L seen : list Pixel) (st : Scan)
    : Prop := mkOrderInv {
  oi_inv : ScanInv w h bm st;
  oi_cov : ∀ c, c ∈ seen → at_pixel bm c = true → c ∈ mjoin (sc_filled st);
  oi_start : ∀ r, r ∈ sc_filled st →
    ∃ q rest i, r = q :: rest ∧ L !! i = Some q ∧ (i < length seen)%nat
      ∧ ∀ c j, c ∈ rest → L !! j = Some c → (i < j)%nat;
  oi_sorted : StronglySorted (startsPos L) (sc_filled st)
}.

Lemma scanPixel_order w h bm L seen p rest st st' :
  NoDup L → (∀ c, c ∈ L → inBounds w h c) → L = seen ++ p :: rest →
  OrderInv w h bm L seen st → scanPixel st p = Some st' →
  OrderInv w h bm L (seen ++ [p]) st'.
Proof.
  intros HndL HinL HL [HI Hcov Hstart Hsorted] Hrun.
  assert (Hp : inBounds w h p).
  { apply HinL. rewrite HL. apply elem_of_app. right. left. }
  destruct (scanPixel_inv w h bm st p HI Hp) as (st1 & Hrun1 & HI' & _ & Hcovp).
  rewrite Hrun in Hrun1. injection Hrun1 as <-.
  assert (Hlen : length (seen ++ [p]) = S (length seen)).
  { rewrite length_app. cbn. lia. }
  assert (Hpos : L !! length seen = Some p).
  { rewrite HL. by apply list_lookup_middle. }
  assert (Hold : ∀ r, r ∈ sc_filled st →
    ∃ q rest i, r = q :: rest ∧ L !! i = Some q
      ∧ (i < length (seen ++ [p]))%nat
      ∧ ∀ c j, c ∈ rest → L !! j = Some c → (i < j)%nat).
  { intros r Hr. destruct (Hstart r Hr) as (q & rest' & i & -> & Hq & Hi & Hafter).
    exists q, rest', i. split_and!; [done|done|lia|done]. }
  destruct (scanPixel_new w h bm st p st' HI Hp Hrun) as [Hsame|[rest' Hnew]].
  - split; [done| |by rewrite Hsame|by rewrite Hsame].
    intros c Hc Hfg. apply elem_of_app in Hc as [Hc|Hc].
    + rewrite Hsame. by apply Hcov.
    + apply list_elem_of_singleton in Hc as ->. by apply Hcovp.
  - pose proof (si_nodup _ _ _ _ HI') as Hnd. rewrite Hnew, mjoin_snoc in Hnd.
    apply NoDup_app in Hnd as (_ & Hdisj & Hndr).
    apply NoDup_cons in Hndr as [Hprest _].
    split; [done| | |].
    + intros c Hc Hfg. apply elem_of_app in Hc as [Hc|Hc].
      * rewrite Hnew, mjoin_snoc. apply elem_of_app. left. by apply Hcov.
      * apply list_elem_of_singleton in Hc as ->. by apply Hcovp.
    + intros r Hr. rewrite Hnew in Hr. apply elem_of_app in Hr as [Hr|Hr];
        [by apply Hold|].
      apply list_elem_of_singleton in Hr as ->.
      exists p, rest', (length seen). split_and!; [done|done|lia|].
      intros c j Hc Hj.
      destruct (Nat.lt_trichotomy j (length seen)) as [Hlt|[->|Hgt]]; [|  |done].
      * exfalso.
        assert (Hseen : c ∈ seen).
        { rewrite HL, lookup_app_l in Hj by done.
          by apply list_elem_of_lookup_2 in Hj. }
        assert (Hfg : at_pixel bm c = true).
        { apply (si_fg _ _ _ _ HI'). rewrite Hnew, mjoin_snoc.
          apply elem_of_app. right. by right. }
        apply (Hdisj c); [by apply Hcov|by right].
      * exfalso. rewrite Hpos in Hj. injection Hj as ->. done.
    + rewrite Hnew. apply StronglySorted_app_2; [|done|].
      * intros r r' Hr Hr'. apply list_elem_of_singleton in Hr' as ->.
        destruct (Hstart r Hr) as (q & rest0 & i & -> & Hq & Hi & _).
        intros q0 q' i0 i' [= <-] [= <-] Hi0 Hi'.
        rewrite (NoDup_lookup L i0 i q HndL Hi0 Hq).
        rewrite (NoDup_lookup L i' (length seen) p HndL Hi' Hpos). done.
      * apply SSorted_cons; [constructor|constructor].
Qed.

Lemma StronglySorted_weaken {A : Type} (R R' : A → A → Prop) (l : list A) :
  (∀ x y, x ∈ l → y ∈ l → R x y → R' x y) →
  StronglySorted R l → StronglySorted R' l.
Proof.
  induction l as [|a l IH]; intros Himpl Hs; [constructor|].
  apply StronglySorted_inv in Hs as [Hs Hall].
  apply SSorted_cons.
  - apply IH; [|done]. intros x y Hx Hy. apply Himpl; by right.
  - rewrite Forall_forall in Hall. apply Forall_forall. intros y Hy.
    apply Himpl; [left|by right|by apply Hall].
Qed.

Lemma index_rasterBefore w h q c :
  inBounds w h q → inBounds w h c →
  (Z.to_nat (py q * w + px q) < Z.to_nat (py c * w + px c))%nat →
  rasterBefore q c.
Proof.
  intros [Hqx Hqy] [Hcx Hcy] Hlt. unfold rasterBefore.
  destruct (Z.lt_trichotomy (py q) (py c)) as [|[E|Hgt]]; [by left| |].
  - right. split; [done|]. rewrite E in Hlt. nia.
  - exfalso. nia.
Qed.

(** Every region starts with its first pixel in the order of the scan,
    and the regions are in the order of their first pixels. *)
Lemma runScan_order s img st :
  runScan s img = Some st →
  (∀ r, r ∈ sc_filled st →
        ∃ q rest, r = q :: rest ∧ ∀ c, c ∈ rest → rasterBefore q c)
  ∧ StronglySorted startsBefore (sc_filled st).
Proof.
  unfold runScan. rewrite scanRows_raster. cbn [sc_det].
  set (w := img_width img). set (h := img_height img).
  change (width (initializeVisited
            (initializeBinaryMatrix (loadImageData s img)))) with w.
  change (height (initializeVisited
            (initializeBinaryMatrix (loadImageData s img)))) with h.
  intros Hrun.
  pose proof (forEach_split_inv
    (OrderInv w h (foregroundMask img) (raster w h)) scanPixel (raster w h))
    as Hloop.
  destruct (Hloop) with
    (st := mkScan (initializeVisited
                     (initializeBinaryMatrix (loadImageData s img))) [] [] [])
    (st' := st) as [HI Hcov Hstart Hsorted]; [| |done|].
  - intros seen a rest st0 st1 HL HO Hstep.
    apply (scanPixel_order w h _ _ seen a rest st0 st1);
      [apply NoDup_raster| |done..].
    intros c Hc. by apply elem_of_raster.
  - split; [apply ScanInv_start| | |constructor].
    + intros c Hc. by apply elem_of_nil in Hc.
    + intros r Hr. by apply elem_of_nil in Hr.
  - assert (Hregion : ∀ r, r ∈ sc_filled st →
      ∃ q rest, r = q :: rest ∧ inBounds w h q
        ∧ (∀ c, c ∈ rest → rasterBefore q c)
        ∧ ∀ i, raster w h !! i = Some q
               → i = Z.to_nat (py q * w + px q)).
    { intros r Hr. destruct (Hstart r Hr) as (q & rest & i & -> & Hq & _ & Hafter).
      assert (Hin : ∀ c, c ∈ q :: rest → inBounds w h c).
      { intros c Hc. apply (si_fg _ _ _ _ HI).
        apply list_elem_of_join. by exists (q :: rest). }
      assert (Hqin : inBounds w h q) by (apply Hin; left).
      assert (Hiq : ∀ j, raster w h !! j = Some q
                         → j = Z.to_nat (py q * w + px q)).
      { intros j Hj.
        apply (NoDup_lookup (raster w h) _ _ q (NoDup_raster w h) Hj).
        by apply lookup_raster. }
      exists q, rest. split_and!; [done|done| |done].
      intros c Hc. assert (Hcin : inBounds w h c) by (apply Hin; by right).
      apply (index_rasterBefore w h); [done|done|].
      rewrite <- (Hiq i Hq). apply (Hafter c); [done|].
      by apply lookup_raster. }
    split.
    + intros r Hr. destruct (Hregion r Hr) as (q & rest & -> & _ & Hq & _).
      by exists q, rest.
    + apply (StronglySorted_weaken (startsPos (raster w h))); [|exact Hsorted].
      intros r r' Hr Hr' Hpos q q' Hhd Hhd'.
      destruct (Hregion r Hr) as (q0 & rest & -> & Hqin & _ & _).
      destruct (Hregion r' Hr') as (q0' & rest' & -> & Hqin' & _ & _).
      injection Hhd as <-. injection Hhd' as <-.
      apply (index_rasterBefore w h); [done|done|].
      apply (Hpos q0 q0'); [done|done|by apply lookup_raster..].
Qed.

Lemma StronglySorted_filter {A : Type} (R : A → A → Prop) (P : A → Prop)
    `{!∀ x, Decision (P x)} (l : list A) :
  StronglySorted R l → StronglySorted R (filter P l).
Proof.
  induction l as [|a l IH]; intros Hs; [constructor|].
  apply StronglySorted_inv in Hs as [Hs Hall].
  rewrite filter_cons. destruct (decide (P a)); [|by apply IH].
  apply SSorted_cons; [by apply IH|].
  rewrite Forall_forall in Hall. apply Forall_forall. intros y Hy.
  apply list_elem_of_filter in Hy as [_ Hy]. by apply Hall.
Qed.

Lemma StronglySorted_omap {A B : Type} (R : A → A → Prop) (R' : B → B → Prop)
    (f : A → option B) (l : list A) :
  (∀ x y a b, x ∈ l → y ∈ l → R x y → f x = Some a → f y = Some b → R' a b) →
  StronglySorted R l → StronglySorted R' (omap f l).
Proof.
  induction l as [|x l IH]; intros Himpl Hs; [constructor|].
  apply StronglySorted_inv in Hs as [Hs Hall].
  assert (Hrest : StronglySorted R' (omap f l)).
  { apply IH; [|done]. intros x' y a b Hx' Hy. apply Himpl; by right. }
  cbn [omap list_omap]. destruct (f x) as [a|] eqn:Hfx; [|done].
  apply SSorted_cons; [done|].
  rewrite Forall_forall in Hall. apply Forall_forall. intros b Hb.
  apply list_elem_of_omap in Hb as (y & Hy & Hfy).
  apply (Himpl x y a b); [left|by right|by apply Hall|done|done].
Qed.

(** The top row of the bounding box of a region is the row of the first
    pixel in the order of the scan. *)
Lemma region_minY w h q rest :
  (∀ c, c ∈ q :: rest → inBounds w h c) →
  (∀ c, c ∈ rest → rasterBefore q c) →
  minY (boundsOf w h (q :: rest)) = py q.
Proof.
  intros Hin Hfirst.
  destruct (boundsOf_in_bounds w h (q :: rest) ltac:(done) Hin)
    as (_ & [Hmem Hmin] & _).
  assert (Hq : minY (boundsOf w h (q :: rest)) ≤ py q).
  { apply Hmin. apply list_elem_of_fmap. exists q. split; [done|left]. }
  apply list_elem_of_fmap in Hmem as (c & Hc & Hcin).
  apply elem_of_cons in Hcin as [->|Hcin]; [done|].
  destruct (Hfirst c Hcin) as [?|[? _]]; lia.
Qed.

(** * The properties of the specification, C1 to C10 *)

(** ** C1: the filled disk *)

(** C1 (the code on the specification's first scenario).  On the 200 by
    200 white image with the black disk of radius 50 around (100, 100), on
    any detector, the scan finds exactly one region, of 7845 pixels, and
    [detectShapes] returns exactly one shape: a square (not a circle) with
    confidence [0.85 * 7845 / 10201], which is below 0.85, in the box of
    width and height 101 at (50, 50), centred at (100, 100). *)
Theorem C1_disk_is_emitted_as_square (s : Detector) (t0 t1 : R) :
  ∃ st r, runScan s diskImage = Some st
    ∧ sc_filled st = [r] ∧ Z.of_nat (length r) = 7845
    ∧ detectShapes s diskImage t0 t1
      = Some (sc_det st,
              mkDetectionResult [diskShape]
                (mkImageStats 200 200 (t1 - t0)%R))
    ∧ shape_type diskShape = square
    ∧ (confidence diskShape < 0.85)%R.
Proof.
  destruct (runScan_spec s diskImage) as (st & Hrun & HI & _).
  destruct (disk_regions s st Hrun) as (r & Hfilled & Hlen & Hb).
  exists st, r. split_and!; [done..| |done|].
  - rewrite (detectShapes_runScan s diskImage t0 t1 st Hrun).
    rewrite Hfilled.
    rewrite filter_cons_True by (unfold minShapeSize; lia).
    rewrite filter_nil. cbn [omap list_omap].
    rewrite (disk_analysis (sc_det st) r); [done|..|done|done].
    + apply (si_width _ _ _ _ HI).
    + apply (si_height _ _ _ _ HI).
    + pose proof (si_nodup _ _ _ _ HI) as Hnd. rewrite Hfilled in Hnd.
      simpl in Hnd. by rewrite app_nil_r in Hnd.
  - cbn [confidence diskShape]. lra.
Qed.

(** ** C2: the classification chain *)

(** C2. The chain tests circle, square, rectangle, triangle in this order
    and the first test that holds decides; pentagon is what is left.  A
    circularity of exactly 0.85 never gives a circle.  An extent of exactly
    0.6 with a circularity of at most 0.85 gives a pentagon with confidence
    0.6 before the penalty (the square test cannot hold there). *)
Theorem C2_classifier_chain :
  (∀ c a e, (c > 0.85)%R → classify c a e = (circle, Rmin 0.99 c))
  ∧ (∀ c a e, ¬ (c > 0.85)%R → (Rabs (a - 1) < 0.2)%R → (e > 0.7)%R →
       classify c a e = (square, (0.85 * e)%R))
  ∧ (∀ c a e, ¬ (c > 0.85)%R → ¬ ((Rabs (a - 1) < 0.2)%R ∧ (e > 0.7)%R) →
       (e > 0.6)%R → classify c a e = (rectangle, (0.8 * e)%R))
  ∧ (∀ c a e, ¬ (c > 0.85)%R → ¬ ((Rabs (a - 1) < 0.2)%R ∧ (e > 0.7)%R) →
       ¬ (e > 0.6)%R → (e < 0.6)%R →
       classify c a e = (triangle, (0.7 * (1 - e))%R))
  ∧ (∀ c a e, ¬ (c > 0.85)%R → ¬ ((Rabs (a - 1) < 0.2)%R ∧ (e > 0.7)%R) →
       ¬ (e > 0.6)%R → ¬ (e < 0.6)%R →
       classify c a e = (pentagon, 0.6%R))
  ∧ (∀ a e, (classify 0.85 a e).1 ≠ circle)
  ∧ (∀ c a, (c <= 0.85)%R → classify c a 0.6 = (pentagon, 0.6%R)).
Proof.
  unfold classify. split_and!; intros;
    repeat (case_bool_decide; simpl); try done; try lra; tauto.
Qed.

(** C2 at a feature vector on both boundaries: circularity 0.85, aspect
    ratio 1, extent 0.6. *)
Lemma C2_classifier_chain_witness :
  classify 0.85 1 0.6 = (pentagon, 0.6%R).
Proof.
  apply (proj2 (proj2 (proj2 (proj2 (proj2 (proj2 C2_classifier_chain)))))
           0.85%R 1%R).
  lra.
Defined.

(** ** C3: the confidence of an emitted shape *)

(** C3. Every shape [detectShapes] returns has a confidence between 0.6
    and 0.99.  The confidence [analyzeShape] ends with is the one the
    chain chose, times [min(1, log10(area / 100) / 2 + 0.8)], clamped to
    [[0.1, 0.99]]; when it is below 0.6 [analyzeShape] returns nothing, and
    otherwise it is the confidence of the shape returned. *)
Theorem C3_confidence_bounds :
  (∀ s img t0 t1, ∃ s' res,
     detectShapes s img t0 t1 = Some (s', res)
     ∧ Forall (fun sh => (0.6 <= confidence sh <= 0.99)%R) (shapes res))
  ∧ (∀ s pixels,
       l_confidence (analyzeLocals s pixels)
       = Rmax 0.1 (Rmin 0.99
           (l_rawConfidence (analyzeLocals s pixels)
            * Rmin 1 (ln (IZR (Z.of_nat (length pixels)) / 100) / ln 10 / 2
                      + 0.8))))
  ∧ (∀ s pixels, (l_confidence (analyzeLocals s pixels) < 0.6)%R →
       analyzeShape s pixels = None)
  ∧ (∀ s pixels sh, analyzeShape s pixels = Some sh →
       confidence sh = l_confidence (analyzeLocals s pixels)
       ∧ (0.6 <= confidence sh <= 0.99)%R).
Proof.
  assert (Hsome : ∀ s pixels sh, analyzeShape s pixels = Some sh →
    confidence sh = l_confidence (analyzeLocals s pixels)
    ∧ (0.6 <= confidence sh <= 0.99)%R).
  { intros s pixels sh Hsh. apply analyzeShape_Some in Hsh as (_ & Hc & ->).
    cbn [confidence]. pose proof (l_confidence_bounds s pixels).
    split; [done|lra]. }
  split_and!.
  - intros s img t0 t1.
    destruct (runScan_spec s img) as (st & Hrun & _).
    rewrite (detectShapes_runScan s img t0 t1 st Hrun). do 2 eexists.
    split; [done|]. simpl. apply Forall_forall. intros sh Hsh.
    apply list_elem_of_omap in Hsh as (r & _ & Hsh).
    by destruct (Hsome _ _ _ Hsh).
  - done.
  - intros s pixels Hlt. apply analyzeShape_None. by right.
  - done.
Qed.

(** C3 at the disk image on a fresh detector, where one shape is
    returned. *)
Lemma C3_confidence_bounds_witness :
  ∃ s' res,
    detectShapes newDetector diskImage 0 1 = Some (s', res)
    ∧ Forall (fun sh => (0.6 <= confidence sh <= 0.99)%R) (shapes res).
Proof.
  apply (proj1 C3_confidence_bounds newDetector diskImage 0%R 1%R).
Defined.

(** ** C4: the size filter of [detectShapes] *)

(** C4 (the code at the boundary).  On the row of 20 black pixels, on any
    detector, the scan finds one region of exactly 20 pixels and does not
    pass it to [analyzeShape]: the test is [length > minShapeSize], so a
    region of [minShapeSize] pixels is dropped.  On every image the regions
    passed to [analyzeShape] are those of more than 20 pixels, in the
    order found. *)
Theorem C4_region_of_20_not_handed (s : Detector) :
  (∃ st r, runScan s stripe20 = Some st
     ∧ sc_filled st = [r] ∧ length r = 20%nat
     ∧ sc_handed st = [] ∧ sc_shapes st = [])
  ∧ (∀ img, ∃ st, runScan s img = Some st
       ∧ sc_handed st
         = filter (fun r => (20 < length r)%nat) (sc_filled st)).
Proof.
  split.
  - unfold runScan. rewrite (initial_state_independent s newDetector).
    do 2 eexists. split; [vm_compute; reflexivity|].
    cbn [sc_filled sc_handed sc_shapes]. by split_and!.
  - intros img. destruct (runScan_spec s img) as (st & Hrun & _).
    exists st. split; [done|]. by apply (scan_handed s img).
Qed.

(** ** C5: the binarizer *)

(** C5. The mask that [initializeBinaryMatrix] builds marks a cell of the
    image as foreground exactly when the red, the green or the blue byte of
    its pixel is below 240; and the alpha byte is never read: two images of
    the same size whose buffers agree everywhere but at the alpha positions
    (every fourth byte) get the same mask. *)
Theorem C5_binarizer_threshold :
  (∀ s img p r g b,
     inBounds (img_width img) (img_height img) p →
     img_data img !! Z.to_nat ((py p * img_width img + px p) * 4) = Some r →
     img_data img !! Z.to_nat ((py p * img_width img + px p) * 4 + 1) = Some g →
     img_data img !! Z.to_nat ((py p * img_width img + px p) * 4 + 2) = Some b →
     at_pixel (binaryMatrix (initializeBinaryMatrix (loadImageData s img))) p
       = true
     ↔ r < 240 ∨ g < 240 ∨ b < 240)
  ∧ (∀ s img img',
       img_width img = img_width img' →
       img_height img = img_height img' →
       (∀ i : nat, (i mod 4 ≠ 3)%nat →
          img_data img !! i = img_data img' !! i) →
       binaryMatrix (initializeBinaryMatrix (loadImageData s img))
       = binaryMatrix (initializeBinaryMatrix (loadImageData s img'))).
Proof.
  split.
  - intros s img p r g b Hin Hr Hg Hb.
    change (binaryMatrix (initializeBinaryMatrix (loadImageData s img)))
      with (foregroundMask img).
    rewrite at_pixel_foregroundMask by done.
    unfold foreground, isForegroundAt. destruct Hin as [Hx Hy].
    assert (0 ≤ py p * img_width img + px p) by nia.
    rewrite !byteAt_nonneg by lia. rewrite Hr, Hg, Hb.
    rewrite !orb_true_iff, !lt240_Some. tauto.
  - intros s img img' Hw Hh Hagree.
    change (foregroundMask img = foregroundMask img').
    unfold foregroundMask. rewrite <- Hw, <- Hh.
    apply map_ext_in. intros y Hy. apply map_ext_in. intros x Hx.
    apply list_elem_of_In, elem_of_seqZ in Hx, Hy.
    unfold isForegroundAt.
    assert (0 ≤ y * img_width img + x) by nia.
    rewrite !byteAt_nonneg by lia.
    rewrite !Hagree; [done|..].
    + replace (Z.to_nat ((y * img_width img + x) * 4 + 2))
        with (2 + Z.to_nat (y * img_width img + x) * 4)%nat by lia.
      by rewrite Nat.Div0.mod_add.
    + replace (Z.to_nat ((y * img_width img + x) * 4 + 1))
        with (1 + Z.to_nat (y * img_width img + x) * 4)%nat by lia.
      by rewrite Nat.Div0.mod_add.
    + replace (Z.to_nat ((y * img_width img + x) * 4))
        with (0 + Z.to_nat (y * img_width img + x) * 4)%nat by lia.
      by rewrite Nat.Div0.mod_add.
Qed.

(** C5 at a one-pixel image whose red byte is 10 and whose other colour
    bytes are 250, with alpha 0. *)
Lemma C5_binarizer_threshold_witness :
  at_pixel (binaryMatrix (initializeBinaryMatrix
              (loadImageData newDetector (mkImageData 1 1 [10; 250; 250; 0]))))
           (mkPixel 0 0) = true
  ↔ 10 < 240 ∨ 250 < 240 ∨ 250 < 240.
Proof.
  apply (proj1 C5_binarizer_threshold newDetector
           (mkImageData 1 1 [10; 250; 250; 0]) (mkPixel 0 0) 10 250 250).
  - split; simpl; lia.
  - reflexivity.
  - reflexivity.
  - reflexivity.
Defined.

(** ** C6: the regions partition the foreground *)

(** C6. On every image the scan of [detectShapes] returns, and then: every
    foreground cell of the image lies in exactly one of the regions that
    [floodFill] returned (those dropped for their size included); no cell
    occurs twice in the regions, and each of their cells is a foreground
    cell of the image; the sizes of the regions add up to the number of
    foreground cells; and over any stretch of the scan a cell marked
    visited stays marked and the regions already returned stay as they
    are. *)
Theorem C6_partition (s : Detector) (img : ImageData) :
  ∃ st, runScan s img = Some st
    ∧ (∀ p, inBounds (img_width img) (img_height img) p →
            foreground img p = true →
            ∃ i r, sc_filled st !! i = Some r ∧ p ∈ r
              ∧ ∀ j r', sc_filled st !! j = Some r' → p ∈ r' → j = i)
    ∧ NoDup (mjoin (sc_filled st))
    ∧ (∀ p, p ∈ mjoin (sc_filled st) →
            inBounds (img_width img) (img_height img) p
            ∧ foreground img p = true)
    ∧ sum_list (length <$> sc_filled st)
      = length (filter (fun p => foreground img p = true)
                       (raster (img_width img) (img_height img)))
    ∧ (∀ cells st1 st2, forEach scanPixel cells st1 = Some st2 →
         grid_le (visited (sc_det st1)) (visited (sc_det st2))
         ∧ sc_filled st1 `prefix_of` sc_filled st2).
Proof.
  destruct (runScan_spec s img) as (st & Hrun & HI & Hall).
  exists st. split_and!; [done| | | | |].
  - intros p Hin Hfg. pose proof (Hall p Hin Hfg) as Hp.
    apply list_elem_of_join in Hp as (r & Hpr & Hr).
    apply list_elem_of_lookup in Hr as [i Hi].
    exists i, r. split_and!; [done..|].
    intros j r' Hj Hpr'.
    apply (NoDup_join_unique (sc_filled st) j i r' r p); try done.
    apply (si_nodup _ _ _ _ HI).
  - apply (si_nodup _ _ _ _ HI).
  - intros p Hp. destruct (si_fg _ _ _ _ HI p Hp) as [Hin Hfg].
    by rewrite at_pixel_foregroundMask in Hfg.
  - rewrite <- length_join. apply Permutation_length.
    by eapply regions_Permutation.
  - apply scan_grows.
Qed.

(** C6 at the disk image: the centre of the disk is a foreground cell and
    lies in a region. *)
Lemma C6_partition_witness :
  ∃ st i r, runScan newDetector diskImage = Some st
    ∧ sc_filled st !! i = Some r ∧ mkPixel 100 100 ∈ r.
Proof.
  destruct (C6_partition newDetector diskImage) as (st & Hrun & Hex & _).
  destruct (Hex (mkPixel 100 100)) as (i & r & Hi & Hp & _).
  - change (inBounds 200 200 (mkPixel 100 100)). split; cbn [px py]; lia.
  - unfold diskImage. rewrite foreground_paint by (split; cbn [px py]; lia).
    reflexivity.
  - exists st, i, r. exact (conj Hrun (conj Hi Hp)).
Defined.

(** ** C7: perimeter and circularity *)

(** C7. The perimeter [analyzeShape] computes for a list of pixels is the
    sum of the Euclidean distances between consecutive pixels of the list,
    the last one followed by the first; the circularity is
    [4 * PI * area / perimeter²] when the perimeter is positive and 0
    otherwise, where the area is the number of pixels. *)
Theorem C7_perimeter_circularity (s : Detector) (pixels : list Pixel) :
  l_perimeter (analyzeLocals s pixels) = closedWalkLength pixels
  ∧ l_area (analyzeLocals s pixels) = Z.of_nat (length pixels)
  ∧ ((l_perimeter (analyzeLocals s pixels) > 0)%R →
       l_circularity (analyzeLocals s pixels)
       = (4 * PI * IZR (l_area (analyzeLocals s pixels))
          / (l_perimeter (analyzeLocals s pixels)
             * l_perimeter (analyzeLocals s pixels)))%R)
  ∧ (¬ (l_perimeter (analyzeLocals s pixels) > 0)%R →
       l_circularity (analyzeLocals s pixels) = 0%R).
Proof.
  split_and!.
  - apply perimeterOf_closedWalk.
  - done.
  - intros Hpos. cbn [analyzeLocals l_circularity l_perimeter l_area] in *.
    unfold circularityOf. by rewrite decide_True.
  - intros Hneg. cbn [analyzeLocals l_circularity l_perimeter] in *.
    unfold circularityOf. by rewrite decide_False.
Qed.

(** C7 at two neighbouring pixels: the walk there and back has positive
    length, so the circularity is the quotient. *)
Lemma C7_perimeter_circularity_witness :
  l_circularity (analyzeLocals newDetector [mkPixel 0 0; mkPixel 1 0])
  = (4 * PI * IZR (l_area (analyzeLocals newDetector [mkPixel 0 0; mkPixel 1 0]))
     / (l_perimeter (analyzeLocals newDetector [mkPixel 0 0; mkPixel 1 0])
        * l_perimeter (analyzeLocals newDetector [mkPixel 0 0; mkPixel 1 0])))%R.
Proof.
  destruct (C7_perimeter_circularity newDetector [mkPixel 0 0; mkPixel 1 0])
    as (Hper & _ & Hpos & _).
  apply Hpos. rewrite Hper. unfold closedWalkLength. simpl.
  pose proof (euclid_ge_1 (mkPixel 0 0) (mkPixel 1 0) ltac:(done)).
  pose proof (euclid_nonneg (mkPixel 1 0) (mkPixel 0 0)).
  lra.
Defined.

(** ** C8: centroid and bounding box *)

(** C8. For every region that a run of [detectShapes] passes to
    [analyzeShape], the bounding box computed is the least and the
    greatest x and y over the pixels of the region, with
    [width = maxX - minX + 1] and [height = maxY - minY + 1], and the
    centre is the mean of the x and the mean of the y of the pixels; a shape
    returned for the region carries this box and this centre. *)
Theorem C8_centroid_bounding_box (s : Detector) (img : ImageData) :
  ∃ st, runScan s img = Some st
    ∧ ∀ r, r ∈ sc_handed st →
        is_min (minX (l_bounds (analyzeLocals (sc_det st) r))) (px <$> r)
        ∧ is_max (maxX (l_bounds (analyzeLocals (sc_det st) r))) (px <$> r)
        ∧ is_min (minY (l_bounds (analyzeLocals (sc_det st) r))) (py <$> r)
        ∧ is_max (maxY (l_bounds (analyzeLocals (sc_det st) r))) (py <$> r)
        ∧ l_width (analyzeLocals (sc_det st) r)
          = maxX (l_bounds (analyzeLocals (sc_det st) r))
            - minX (l_bounds (analyzeLocals (sc_det st) r)) + 1
        ∧ l_height (analyzeLocals (sc_det st) r)
          = maxY (l_bounds (analyzeLocals (sc_det st) r))
            - minY (l_bounds (analyzeLocals (sc_det st) r)) + 1
        ∧ l_centerX (analyzeLocals (sc_det st) r) = mean (px <$> r)
        ∧ l_centerY (analyzeLocals (sc_det st) r) = mean (py <$> r)
        ∧ ∀ sh, analyzeShape (sc_det st) r = Some sh →
            boundingBox sh
            = mkBoundingBox (minX (l_bounds (analyzeLocals (sc_det st) r)))
                            (minY (l_bounds (analyzeLocals (sc_det st) r)))
                            (l_width (analyzeLocals (sc_det st) r))
                            (l_height (analyzeLocals (sc_det st) r))
            ∧ center sh = (mean (px <$> r), mean (py <$> r)).
Proof.
  destruct (runScan_spec s img) as (st & Hrun & _).
  exists st. split; [done|]. intros r Hr.
  destruct (handed_region s img st r Hrun Hr) as (Hlen & _ & Hin).
  destruct (scan_dims s img st Hrun) as [Hw Hh].
  assert (Hne : r ≠ []).
  { intros ->. simpl in Hlen. lia. }
  destruct (boundsOf_in_bounds (img_width img) (img_height img) r Hne)
    as (HminX & HminY & HmaxX & HmaxY).
  { intros p Hp. by destruct (Hin p Hp). }
  destruct (boundsOf_sums r (mkBounds (img_width img) (img_height img) 0 0 0 0))
    as [HsumX HsumY].
  assert (HcX : l_centerX (analyzeLocals (sc_det st) r) = mean (px <$> r)).
  { cbn [analyzeLocals l_centerX]. unfold mean, boundsOf.
    rewrite Hw, Hh, HsumX, length_fmap. simpl. by rewrite Z.add_0_l. }
  assert (HcY : l_centerY (analyzeLocals (sc_det st) r) = mean (py <$> r)).
  { cbn [analyzeLocals l_centerY]. unfold mean, boundsOf.
    rewrite Hw, Hh, HsumY, length_fmap. simpl. by rewrite Z.add_0_l. }
  cbn [analyzeLocals l_bounds l_width l_height]. rewrite Hw, Hh.
  split_and!; try done.
  intros sh Hsh. apply analyzeShape_Some in Hsh as (_ & _ & ->).
  cbn [boundingBox center]. rewrite HcX, HcY.
  cbn [analyzeLocals l_bounds l_width l_height]. by rewrite Hw, Hh.
Qed.

(** C8 at the disk image: its region is passed to [analyzeShape], and the
    box and the centre computed for it are the extrema and the means. *)
Lemma C8_centroid_bounding_box_witness :
  ∃ st r, runScan newDetector diskImage = Some st ∧ r ∈ sc_handed st
    ∧ is_min (minX (l_bounds (analyzeLocals (sc_det st) r))) (px <$> r)
    ∧ is_max (maxX (l_bounds (analyzeLocals (sc_det st) r))) (px <$> r)
    ∧ l_centerX (analyzeLocals (sc_det st) r) = mean (px <$> r)
    ∧ l_centerY (analyzeLocals (sc_det st) r) = mean (py <$> r).
Proof.
  destruct (C8_centroid_bounding_box newDetector diskImage)
    as (st & Hrun & Hall).
  destruct (disk_handed newDetector st Hrun) as (r & Hhanded & _).
  assert (Hr : r ∈ sc_handed st) by (rewrite Hhanded; left).
  destruct (Hall r Hr) as (H1 & H2 & _ & _ & _ & _ & H7 & H8 & _).
  exists st, r. exact (conj Hrun (conj Hr (conj H1 (conj H2 (conj H7 H8))))).
Defined.

(** The centre is the mean of the pixels, not the middle of the box: on
    an L-shaped list of four pixels in a 3 by 2 image the mean x is 3/4
    while the box, of width 3 from x = 0, has its middle at x = 1. *)
Lemma centroid_not_box_centre :
  let s := mkDetector None 3 2 None [] [] in
  let r := [mkPixel 0 0; mkPixel 1 0; mkPixel 2 0; mkPixel 0 1] in
  l_centerX (analyzeLocals s r) = (3 / 4)%R
  ∧ minX (l_bounds (analyzeLocals s r)) = 0
  ∧ l_width (analyzeLocals s r) = 3
  ∧ (l_centerX (analyzeLocals s r)
     ≠ IZR (minX (l_bounds (analyzeLocals s r)))
       + (IZR (l_width (analyzeLocals s r)) - 1) / 2)%R.
Proof.
  intros s r. cbn [analyzeLocals l_centerX l_bounds l_width].
  change (boundsOf (width s) (height s) r) with (mkBounds 0 0 2 1 3 1).
  cbn [sumX minX maxX]. change (length r) with 4%nat.
  change (2 - 0 + 1) with 3. simpl INR. split_and!; [lra|done|done|lra].
Qed.

(** ** C9: a run does not depend on earlier runs *)

(** C9. [detectShapes] returns on every image, and the shapes it returns
    depend on the image only: not on the state of the detector it is
    called on, not on the clock.  So a second run on the same image, on the
    detector as the first run left it, returns the same shapes. *)
Theorem C9_deterministic (s : Detector) (img : ImageData) (t0 t1 t2 t3 : R) :
  ∃ s1 r1 s2 r2,
    detectShapes s img t0 t1 = Some (s1, r1)
    ∧ detectShapes s1 img t2 t3 = Some (s2, r2)
    ∧ shapes r1 = shapes r2
    ∧ s1 = s2
    ∧ ∀ s' t0' t1', ∃ r', detectShapes s' img t0' t1' = Some (s1, r')
                          ∧ shapes r' = shapes r1.
Proof.
  destruct (runScan_spec s img) as (st & Hrun & _).
  assert (Hany : ∀ s', runScan s' img = Some st).
  { intros s'. unfold runScan in *.
    by rewrite (initial_state_independent s' s). }
  unfold detectShapes. rewrite Hrun. do 4 eexists.
  split; [done|]. rewrite Hany. split; [done|]. split_and!; [done..|].
  intros s' t0' t1'. rewrite Hany. by eexists.
Qed.

(** ** C10: the size test at the head of [analyzeShape] *)

(** C10. In a run of [detectShapes], every region passed to
    [analyzeShape] has more than 20 pixels, so the test for fewer than 10
    pixels at its head is false there, and [analyzeShape] returns nothing
    for such a region exactly when the final confidence is below 0.6.  The
    shapes returned are the results of these calls, in call order. *)
Theorem C10_small_region_branch_unreachable (s : Detector) (img : ImageData) :
  ∃ st, runScan s img = Some st
    ∧ sc_shapes st = omap (analyzeShape (sc_det st)) (sc_handed st)
    ∧ ∀ r, r ∈ sc_handed st →
        (20 < length r)%nat
        ∧ (length r <? 10)%nat = false
        ∧ (analyzeShape (sc_det st) r = None
           ↔ (l_confidence (analyzeLocals (sc_det st) r) < 0.6)%R).
Proof.
  destruct (runScan_spec s img) as (st & Hrun & HI & _).
  exists st. split_and!; [done| |].
  - apply (si_shapes _ _ _ _ HI);
      [apply (si_width _ _ _ _ HI)|apply (si_height _ _ _ _ HI)].
  - intros r Hr. destruct (handed_region s img st r Hrun Hr) as (Hlen & _).
    unfold minShapeSize in Hlen. split_and!; [done| |].
    + apply Nat.ltb_ge. lia.
    + rewrite analyzeShape_None. split; [|by right].
      intros [Hsmall|Hconf]; [lia|done].
Qed.

(** C10 at the disk image: its region is passed to [analyzeShape] and has
    more than 20 pixels. *)
Lemma C10_small_region_branch_unreachable_witness :
  ∃ st r, runScan newDetector diskImage = Some st ∧ r ∈ sc_handed st
    ∧ (20 < length r)%nat ∧ (length r <? 10)%nat = false.
Proof.
  destruct (C10_small_region_branch_unreachable newDetector diskImage)
    as (st & Hrun & _ & Hall).
  destruct (disk_handed newDetector st Hrun) as (r & Hhanded & _).
  assert (Hr : r ∈ sc_handed st) by (rewrite Hhanded; left).
  destruct (Hall r Hr) as (H1 & H2 & _).
  exists st, r. exact (conj Hrun (conj Hr (conj H1 H2))).
Defined.

(** * Further properties of the code, X1 onwards *)

(** ** [floodFill] and [detectShapes]: regions and emitted shapes *)

(** X1. In every run of [detectShapes], each region that [floodFill]
    returns is an 8-connected component of the foreground: for a pixel [p]
    of the region, the pixels of the region are exactly the cells linked to
    [p] by steps between neighbouring foreground cells of the image. *)
Theorem X1_regions_are_connected_components (s : Detector) (img : ImageData) :
  ∃ st, runScan s img = Some st
    ∧ ∀ r p, r ∈ sc_filled st → p ∈ r →
        ∀ q, q ∈ r
             ↔ reach (img_width img) (img_height img) (foreground img) p q.
Proof.
  destruct (runScan_spec s img) as (st & Hrun & HI & _).
  exists st. split; [done|]. intros r p Hr Hp q.
  assert (Hink : ∀ c, inBounds (img_width img) (img_height img) c →
            at_pixel (foregroundMask img) c = foreground img c)
    by apply at_pixel_foregroundMask.
  assert (Hmember : ∀ c, c ∈ r →
            inBounds (img_width img) (img_height img) c
            ∧ foreground img c = true).
  { intros c Hc. destruct (si_fg _ _ _ _ HI c) as [Hin Hfg].
    - apply list_elem_of_join. by exists r.
    - by rewrite Hink in Hfg. }
  split.
  - intros Hq.
    destruct (runScan_connected s img st Hrun r Hr) as (p0 & Hp0 & Hall).
    destruct (Hmember p0 Hp0) as [Hin0 Hfg0].
    apply (reach_trans _ _ _ p p0 q).
    + apply reach_sym; [done..|]. eapply reach_ext; [exact Hink|]. by apply Hall.
    + eapply reach_ext; [exact Hink|]. by apply Hall.
  - intros Hreach.
    apply (closed_reach (img_width img) (img_height img) (foregroundMask img) (foreground img) r p q);
      [by apply (si_closed _ _ _ _ HI)|exact Hink|done..].
Qed.

(** X1 at the disk image: the centre of the disk lies in a region, and
    the cell at the top of the disk lies in the same region exactly when it
    is linked to the centre. *)
Lemma X1_regions_are_connected_components_witness :
  ∃ st r, runScan newDetector diskImage = Some st
    ∧ r ∈ sc_filled st ∧ mkPixel 100 100 ∈ r
    ∧ (mkPixel 100 50 ∈ r
       ↔ reach 200 200 (foreground diskImage)
               (mkPixel 100 100) (mkPixel 100 50)).
Proof.
  destruct (X1_regions_are_connected_components newDetector diskImage)
    as (st & Hrun & Hall).
  destruct (disk_one_region newDetector st Hrun) as (r & Hfilled & Hperm).
  assert (Hr : r ∈ sc_filled st) by (rewrite Hfilled; left).
  assert (Hc : mkPixel 100 100 ∈ r).
  { rewrite Hperm. apply list_elem_of_filter. split; [reflexivity|].
    apply elem_of_raster. split; cbn [px py]; lia. }
  exists st, r.
  exact (conj Hrun (conj Hr (conj Hc (Hall r _ Hr Hc (mkPixel 100 50))))).
Defined.

(** X2. No shape that [detectShapes] returns is a circle, and none has a
    confidence above 0.85: the perimeter loop of [analyzeShape] walks all
    pixels of the region, so the perimeter is at least the pixel count and
    the circularity stays below the circle threshold. *)
Theorem X2_never_circle_confidence_cap
    (s : Detector) (img : ImageData) (t0 t1 : R) :
  ∃ s' res, detectShapes s img t0 t1 = Some (s', res)
    ∧ Forall (fun sh => shape_type sh ≠ circle
                        ∧ (confidence sh <= 0.85)%R) (shapes res).
Proof.
  destruct (runScan_spec s img) as (st & Hrun & _).
  destruct (emitted_shape s img t0 t1 st Hrun) as (res & Hres & _ & _ & Hall).
  exists (sc_det st), res. split; [done|].
  apply Forall_forall. intros sh Hsh.
  destruct (Hall sh Hsh) as (r & Hr & Han).
  destruct (handed_region s img st r Hrun Hr) as (Hlen & Hnd & Hin).
  destruct (scan_dims s img st Hrun) as [Hw Hh].
  unfold minShapeSize in Hlen.
  destruct (region_locals (sc_det st) r Hnd ltac:(lia)) as (Ht & Hc & _).
  { intros p Hp. rewrite Hw, Hh. by destruct (Hin p Hp). }
  apply analyzeShape_Some in Han as (_ & _ & ->). done.
Qed.

(** X3. Every shape that [detectShapes] returns has a bounding box of at
    least one cell that lies inside the image, a centre inside that box,
    and an area (its pixel count) of at least 64 and at most the area of
    the box: regions of fewer than 64 pixels never yield a shape. *)
Theorem X3_emitted_shape_geometry
    (s : Detector) (img : ImageData) (t0 t1 : R) :
  ∃ s' res, detectShapes s img t0 t1 = Some (s', res)
    ∧ Forall (fun sh =>
        0 ≤ bb_x (boundingBox sh) ∧ 0 ≤ bb_y (boundingBox sh)
        ∧ 1 ≤ bb_width (boundingBox sh) ∧ 1 ≤ bb_height (boundingBox sh)
        ∧ bb_x (boundingBox sh) + bb_width (boundingBox sh) ≤ img_width img
        ∧ bb_y (boundingBox sh) + bb_height (boundingBox sh) ≤ img_height img
        ∧ 64 ≤ area sh
        ∧ area sh ≤ bb_width (boundingBox sh) * bb_height (boundingBox sh)
        ∧ (IZR (bb_x (boundingBox sh)) <= (center sh).1
           <= IZR (bb_x (boundingBox sh) + bb_width (boundingBox sh) - 1))%R
        ∧ (IZR (bb_y (boundingBox sh)) <= (center sh).2
           <= IZR (bb_y (boundingBox sh) + bb_height (boundingBox sh) - 1))%R)
        (shapes res).
Proof.
  destruct (runScan_spec s img) as (st & Hrun & _).
  destruct (emitted_shape s img t0 t1 st Hrun) as (res & Hres & _ & _ & Hall).
  exists (sc_det st), res. split; [done|].
  apply Forall_forall. intros sh Hsh.
  destruct (Hall sh Hsh) as (r & Hr & Han).
  destruct (handed_region s img st r Hrun Hr) as (Hlen & Hnd & Hin).
  destruct (scan_dims s img st Hrun) as [Hw Hh].
  unfold minShapeSize in Hlen.
  destruct (region_locals (sc_det st) r Hnd ltac:(lia))
    as (_ & _ & Hsmall & Hx & Hy & Hbw & Hbh & Hxw & Hyh & Harea & HcX & HcY).
  { intros p Hp. rewrite Hw, Hh. by destruct (Hin p Hp). }
  apply analyzeShape_Some in Han as (_ & Hconf & ->).
  cbn [boundingBox bb_x bb_y bb_width bb_height area center fst snd].
  rewrite Hw in Hxw. rewrite Hh in Hyh.
  assert (Hbig : 64 ≤ l_area (analyzeLocals (sc_det st) r)).
  { destruct (Z.le_gt_cases 64 (Z.of_nat (length r))) as [Hge|Hlt]; [done|].
    exfalso. apply Hconf, Hsmall. lia. }
  assert (HmaxX : minX (l_bounds (analyzeLocals (sc_det st) r))
                  + l_width (analyzeLocals (sc_det st) r) - 1
                  = maxX (l_bounds (analyzeLocals (sc_det st) r))).
  { cbn [analyzeLocals l_bounds l_width]. lia. }
  assert (HmaxY : minY (l_bounds (analyzeLocals (sc_det st) r))
                  + l_height (analyzeLocals (sc_det st) r) - 1
                  = maxY (l_bounds (analyzeLocals (sc_det st) r))).
  { cbn [analyzeLocals l_bounds l_height]. lia. }
  rewrite HmaxX, HmaxY. destruct HcX, HcY. by split_and!.
Qed.

(** X4. An image in which no cell is foreground (every colour byte at
    least 240, or missing) yields no shape; [detectShapes] still returns,
    with the size of the image in its statistics. *)
Theorem X4_blank_image_no_shapes
    (s : Detector) (img : ImageData) (t0 t1 : R) :
  (∀ p, inBounds (img_width img) (img_height img) p →
        foreground img p = false) →
  ∃ s', detectShapes s img t0 t1
        = Some (s', mkDetectionResult []
                      (mkImageStats (img_width img) (img_height img)
                                    (t1 - t0)%R)).
Proof. apply no_foreground_no_shapes. Qed.

(** X4 at the white 3 by 3 image. *)
Lemma X4_blank_image_no_shapes_witness :
  ∃ s', detectShapes newDetector (paint 3 3 (fun _ => false)) 0 1
        = Some (s', mkDetectionResult [] (mkImageStats 3 3 (1 - 0)%R)).
Proof.
  apply (X4_blank_image_no_shapes newDetector (paint 3 3 (fun _ => false))
           0%R 1%R).
  intros p Hp. by apply (foreground_paint 3 3 (fun _ => false) p).
Defined.






(** X8. The size penalty of [analyzeShape] is 1 exactly from 252 pixels
    on: the confidence of a smaller region is scaled down, that of a region
    of 252 pixels or more is not. *)
Theorem X8_size_penalty_threshold (areaN : Z) :
  0 < areaN → (sizePenalty areaN = 1%R ↔ 252 ≤ areaN).
Proof.
  intros Hpos. split.
  - intros Hone. destruct (Z.le_gt_cases 252 areaN) as [|Hlt]; [done|].
    pose proof (sizePenalty_below_one areaN ltac:(lia)). lra.
  - apply sizePenalty_one.
Qed.

(** X8 at 252 pixels. *)
Lemma X8_size_penalty_threshold_witness :
  sizePenalty 252 = 1%R ↔ 252 ≤ 252.
Proof. apply (X8_size_penalty_threshold 252). lia. Defined.

(** ** [calculateIoU] and [calculateMetrics] *)





(** X11. [calculateMetrics] returns on every test case and every list of
    detected shapes (no counter is read under a missing key, no expected
    shape is read outside the list).  Its counts fit together: one entry of
    [details] per detected shape, true positives at most the number of
    expected shapes, true plus false positives at most the number of
    detected shapes, false negatives the expected shapes that are not true
    positives; the test passes exactly when there is no false positive and
    every expected shape is a true positive. *)
Theorem X11_metrics_counts
    (testCase : TestCase) (detectedShapes : list Detection) :
  ∃ r, calculateMetrics testCase detectedShapes = Some r
    ∧ testCaseId r = tc_id testCase
    ∧ er_detectedShapes r = Z.of_nat (length detectedShapes)
    ∧ er_expectedShapes r = Z.of_nat (length (tc_expectedShapes testCase))
    ∧ length (details r) = length detectedShapes
    ∧ 0 ≤ truePositives r ≤ er_expectedShapes r
    ∧ 0 ≤ falsePositives r
    ∧ truePositives r + falsePositives r ≤ er_detectedShapes r
    ∧ falseNegatives r = er_expectedShapes r - truePositives r
    ∧ (passed r = true
       ↔ falsePositives r = 0 ∧ truePositives r = er_expectedShapes r).
Proof.
  destruct (calculateMetrics_spec testCase detectedShapes)
    as (r & Hr & Hid & Hdet & Hexp & Hlen & Htp & Htpn & Hfp & Hsum & Hfn
        & Hpass & _).
  exists r. rewrite Hdet, Hexp, Hpass.
  split_and!; try done.
  rewrite andb_true_iff, !bool_decide_eq_true. lia.
Qed.

(** X12. Precision, recall and F1 score of [calculateMetrics] are always
    numbers between 0 and 1, never [NaN]: where a quotient is 0 / 0, the
    code's [|| 0] applies.  They are all 1 when the test passes with at
    least one expected shape, and recall and F1 score are 0 when nothing is
    expected, even though that test may pass. *)
Theorem X12_metrics_ratios
    (testCase : TestCase) (detectedShapes : list Detection) :
  ∃ r, calculateMetrics testCase detectedShapes = Some r
    ∧ isRatio (precision r) ∧ isRatio (recall r) ∧ isRatio (f1Score r)
    ∧ (passed r = true → tc_expectedShapes testCase ≠ [] →
       precision r = Finite 1 ∧ recall r = Finite 1 ∧ f1Score r = Finite 1)
    ∧ (tc_expectedShapes testCase = [] →
       recall r = Finite 0 ∧ f1Score r = Finite 0).
Proof.
  destruct (calculateMetrics_spec testCase detectedShapes)
    as (r & Hr & _ & _ & _ & _ & Htp & Htpn & Hfp & _ & Hfn & Hpass
        & Hp & Hq & Hf & _).
  exists r. split; [done|].
  destruct (calculateMetrics_ratios _ _ _ Hr) as (HP & HQ & HF).
  split_and!; try done.
  - intros Hpassed Hne. rewrite Hpass in Hpassed.
    apply andb_prop in Hpassed as [Hfp0 Hfn0].
    apply bool_decide_eq_true in Hfp0, Hfn0.
    assert (Hpos : 0 < truePositives r).
    { destruct (tc_expectedShapes testCase); [done|]. cbn [length] in Hfn. lia. }
    destruct (ratio_spec (truePositives r) (falsePositives r) Htp Hfp)
      as (p & Hp' & _ & _ & Hp1 & _).
    destruct (ratio_spec (truePositives r) (falseNegatives r) Htp ltac:(lia))
      as (q & Hq' & _ & _ & Hq1 & _).
    rewrite Hp' in Hp. rewrite Hq' in Hq.
    rewrite (Hp1 Hpos Hfp0) in Hp. rewrite (Hq1 Hpos Hfn0) in Hq.
    destruct (f1_spec 1 1 ltac:(lra) ltac:(lra)) as (f & Hf' & _ & Hf1).
    rewrite Hp, Hq, Hf', (Hf1 eq_refl eq_refl) in Hf. done.
  - intros Hnil. rewrite Hnil in *. cbn [length] in *.
    assert (Htp0 : truePositives r = 0) by lia.
    destruct (ratio_spec (truePositives r) (falseNegatives r) Htp ltac:(lia))
      as (q & Hq' & _ & Hq0 & _).
    rewrite Hq', (Hq0 Htp0) in Hq.
    destruct HP as (p & HP & Hp01).
    rewrite HP, Hq in Hf. rewrite Hq. split; [done|]. rewrite Hf.
    cbn [jsMul jsAdd]. unfold jsDiv.
    rewrite Rmult_0_r, Rmult_0_r, Rplus_0_r.
    destruct (decide (p = 0%R)) as [Hp0|Hp0].
    + by rewrite !bool_decide_eq_true_2.
    + rewrite (bool_decide_eq_false_2 (p = 0%R)) by done.
      cbn. f_equal. unfold Rdiv. lra.
Qed.

(** X13. A test that passes has found a detected shape of the type of
    every expected shape, and at least as many detected shapes as expected
    ones. *)
Theorem X13_passed_covers_expected_types
    (testCase : TestCase) (detectedShapes : list Detection) :
  ∃ r, calculateMetrics testCase detectedShapes = Some r
    ∧ (passed r = true →
       (length (tc_expectedShapes testCase) ≤ length detectedShapes)%nat
       ∧ ∀ e, e ∈ tc_expectedShapes testCase →
              ∃ d, d ∈ detectedShapes ∧ det_type d = ex_type e).
Proof.
  destruct (calculateMetrics_spec testCase detectedShapes)
    as (r & Hr & _ & _ & _ & _ & Htp & Htpn & Hfp & Hsum & Hfn & Hpass
        & _ & _ & _ & Hcover).
  exists r. split; [done|]. intros Hpassed. rewrite Hpass in Hpassed.
  apply andb_prop in Hpassed as [Hfp0 Hfn0].
  apply bool_decide_eq_true in Hfp0, Hfn0.
  split; [lia|]. by apply Hcover.
Qed.

(** X14. The pixel pipeline never passes a test case of
    [calculateMetrics] that expects a circle: on every image,
    [detectShapes] returns shapes on which the test case has at least one
    false negative. *)
Theorem X14_expected_circle_never_passes
    (s : Detector) (img : ImageData) (t0 t1 : R)
    (testCase : TestCase) (e : ExpectedShape) :
  e ∈ tc_expectedShapes testCase → ex_type e = "circle" →
  ∃ s' res r, detectShapes s img t0 t1 = Some (s', res)
    ∧ calculateMetrics testCase (detectionOf <$> shapes res) = Some r
    ∧ passed r = false ∧ 1 ≤ falseNegatives r.
Proof.
  intros He Hcircle.
  destruct (detectShapes_never_circle s img t0 t1) as (s' & res & Hres & Hnc).
  destruct (calculateMetrics_spec testCase (detectionOf <$> shapes res))
    as (r & Hr & _ & _ & _ & _ & Htp & Htpn & Hfp & Hsum & Hfn & Hpass
        & _ & _ & _ & Hcover).
  exists s', res, r. split_and!; [done|done| |].
  - rewrite Hpass. apply andb_false_iff. right.
    apply bool_decide_eq_false_2. intros Hfn0.
    destruct (Hcover Hfn0 e He) as (d & Hd & Hde).
    apply list_elem_of_fmap in Hd as (sh & -> & Hsh).
    rewrite Forall_forall in Hnc. apply (Hnc sh Hsh).
    apply typeName_circle. cbn [detectionOf det_type] in Hde. congruence.
  - destruct (decide (falseNegatives r = 0)) as [Hfn0|]; [|lia]. exfalso.
    destruct (Hcover Hfn0 e He) as (d & Hd & Hde).
    apply list_elem_of_fmap in Hd as (sh & -> & Hsh).
    rewrite Forall_forall in Hnc. apply (Hnc sh Hsh).
    apply typeName_circle. cbn [detectionOf det_type] in Hde. congruence.
Qed.

(** X14 at the test case of the example in src/evaluation.ts (a circle in
    the box of side 100 at (50, 50)) and a white 3 by 3 image. *)
Lemma X14_expected_circle_never_passes_witness :
  ∃ s' res r,
    detectShapes newDetector (paint 3 3 (fun _ => false)) 0 1
    = Some (s', res)
    ∧ calculateMetrics
        (mkTestCase "test-1" "Single circle detection"
           "/test-images/circle.png"
           [mkExpectedShape "circle" (100, 100)%R (mkBox 50 50 100 100)])
        (detectionOf <$> shapes res) = Some r
    ∧ passed r = false ∧ 1 ≤ falseNegatives r.
Proof.
  apply (X14_expected_circle_never_passes newDetector
           (paint 3 3 (fun _ => false)) 0%R 1%R
           (mkTestCase "test-1" "Single circle detection"
              "/test-images/circle.png"
              [mkExpectedShape "circle" (100, 100)%R (mkBox 50 50 100 100)])
           (mkExpectedShape "circle" (100, 100)%R (mkBox 50 50 100 100))).
  - cbn [tc_expectedShapes]. left.
  - reflexivity.
Defined.

(** ** [EvaluationManager] *)

(** X15. [evaluate] called without a test case id, or with the empty
    string, always throws ['No test case found']: the field
    [currentTestCaseIndex] starts at -1 and no method assigns it, so after
    any calls of [addTestCase] and [evaluate] there is no current test
    case. *)
Theorem X15_evaluate_without_id_throws
    (cases : list TestCase) (calls : list Call)
    (detectedShapes : list Detection) :
  getCurrentTestCase (managerAfter cases calls) = None
  ∧ evaluate (managerAfter cases calls) detectedShapes None
    = inl NoTestCaseFound
  ∧ evaluate (managerAfter cases calls) detectedShapes (Some EmptyString)
    = inl NoTestCaseFound.
Proof.
  assert (Hcur : getCurrentTestCase (managerAfter cases calls) = None).
  { unfold getCurrentTestCase, jsIndex. by rewrite managerAfter_index. }
  split_and!; [done|..]; unfold evaluate, selectTestCase.
  - by rewrite Hcur.
  - rewrite bool_decide_eq_true_2 by done. by rewrite Hcur.
Qed.

(** X16. [evaluate] with a test case id that is not empty throws exactly
    when no test case has the id.  Otherwise it takes the first test case
    with the id, appends the one result of [calculateMetrics] on it to the
    results and returns it; test cases and earlier results stay as they
    are. *)
Theorem X16_evaluate_with_id
    (m : Manager) (detectedShapes : list Detection) (id : string) :
  id ≠ EmptyString →
  match find (fun tc => bool_decide (tc_id tc = id)) (testCases m) with
  | None => evaluate m detectedShapes (Some id) = inl NoTestCaseFound
  | Some testCase =>
      ∃ r, calculateMetrics testCase detectedShapes = Some r
        ∧ testCaseId r = id
        ∧ evaluate m detectedShapes (Some id)
          = inr (mkManager (testCases m) (results m ++ [r])
                           (currentTestCaseIndex m), r)
  end.
Proof.
  intros Hid. unfold evaluate, selectTestCase.
  rewrite bool_decide_eq_false_2 by done.
  destruct (find _ (testCases m)) as [tc|] eqn:Hfind; [|done].
  destruct (calculateMetrics_spec tc detectedShapes) as (r & Hr & Hrid & _).
  exists r. rewrite Hr. split_and!; [done| |done].
  apply find_some in Hfind as [_ Htc]. apply bool_decide_eq_true in Htc.
  by rewrite Hrid.
Qed.

(** X16 on a manager without test cases. *)
Lemma X16_evaluate_with_id_witness :
  evaluate (newManager []) [] (Some "test-1") = inl NoTestCaseFound.
Proof.
  apply (X16_evaluate_with_id (newManager []) [] "test-1"). discriminate.
Defined.

(** X17. After any calls on a new manager, [getOverallMetrics] counts the
    stored results, counts the passed ones among them, and its success
    rate and three averages are numbers between 0 and 1. *)
Theorem X17_overall_metrics_bounded
    (cases : list TestCase) (calls : list Call) :
  totalTests (getOverallMetrics (managerAfter cases calls))
  = Z.of_nat (length (results (managerAfter cases calls)))
  ∧ 0 ≤ passedTests (getOverallMetrics (managerAfter cases calls))
    ≤ totalTests (getOverallMetrics (managerAfter cases calls))
  ∧ isRatio (successRate (getOverallMetrics (managerAfter cases calls)))
  ∧ isRatio (averagePrecision (getOverallMetrics (managerAfter cases calls)))
  ∧ isRatio (averageRecall (getOverallMetrics (managerAfter cases calls)))
  ∧ isRatio (averageF1Score (getOverallMetrics (managerAfter cases calls))).
Proof.
  pose proof (managerAfter_results cases calls) as Hres.
  generalize dependent (managerAfter cases calls). intros m Hres.
  unfold getOverallMetrics. case_bool_decide as Hempty.
  - cbn. rewrite Hempty.
    split_and!; [done|lia|lia|..]; exists 0%R; split; (done || lra).
  - destruct (sum_ratios (results m)) with (a := 0%R) (b := 0%R) (c := 0%R)
      as (a & b & c & -> & Ha & Hb & Hc).
    { intros r Hr. destruct (Hres r Hr) as (tc & ds & Hcalc).
      by apply (calculateMetrics_ratios tc ds). }
    cbn [totalTests passedTests successRate averagePrecision averageRecall
         averageF1Score fst snd].
    pose proof (length_filter (fun r => passed r = true) (results m)) as Hle.
    set (n := length (results m)) in *.
    set (k := length (filter (fun r => passed r = true) (results m))) in *.
    assert (Hn : (0 < IZR (Z.of_nat n))%R) by (apply IZR_lt; lia).
    assert (Hk : (0 <= IZR (Z.of_nat k) <= IZR (Z.of_nat n))%R).
    { split; apply IZR_le; lia. }
    rewrite INR_IZR_INZ in Ha, Hb, Hc.
    assert (Hdiv : ∀ x, (0 <= x <= IZR (Z.of_nat n))%R →
              isRatio (jsDiv (Finite x) (Finite (IZR (Z.of_nat n))))).
    { intros x Hx. unfold jsDiv. rewrite bool_decide_eq_false_2 by lra.
      eexists. split; [done|]. split.
      - apply Rmult_le_pos; [lra|]. left. by apply Rinv_0_lt_compat.
      - apply (Rmult_le_reg_r (IZR (Z.of_nat n))); [done|].
        unfold Rdiv. rewrite Rmult_assoc, Rinv_l by lra. lra. }
    split_and!; [done|lia|lia|..]; apply Hdiv; lra.
Qed.

(** ** [evaluateResult] of the test runner *)

(** X18. [evaluateResult] holds exactly when, for every expected entry,
    the number of returned shapes of its type is its [count], and every
    returned shape has an area within the range of the first expected
    entry of its type, if there is one.  Shapes of a type that is not
    listed are not looked at. *)
Theorem X18_evaluateResult_characterised
    (testCase : TestImage) (result : DetectionResult) :
  evaluateResult testCase result = true
  ↔ (∀ e, e ∈ ti_expectedShapes testCase →
          countOfType (ec_type e) (shapes result) = count e)
    ∧ (∀ sh e, sh ∈ shapes result →
         find (fun s => bool_decide (ec_type s = typeName (shape_type sh)))
              (ti_expectedShapes testCase) = Some e →
         minArea e ≤ area sh ≤ maxArea e).
Proof. apply evaluateResult_true. Qed.

(** X19. The test runner fails every test case that expects a circle
    (with a count other than 0), whatever the image: [detectShapes] returns
    no circle. *)
Theorem X19_runTest_expecting_circle_fails
    (s : Detector) (testCase : TestImage) (img : ImageData) (t0 t1 : R)
    (e : ExpectedCount) :
  e ∈ ti_expectedShapes testCase → ec_type e = "circle" → count e ≠ 0 →
  runTestPassed s testCase img t0 t1 = Some false.
Proof.
  intros He Hcircle Hcount. unfold runTestPassed.
  destruct (detectShapes_never_circle s img t0 t1) as (s' & res & -> & Hnc).
  f_equal. apply not_true_is_false. intros Htrue.
  apply evaluateResult_true in Htrue as [Hc _].
  specialize (Hc e He). rewrite Hcircle in Hc. apply Hcount. rewrite <- Hc.
  by rewrite (countOfType_circle (shapes res) Hnc).
Qed.

(** X19 at the test case [single_circle] of the repository (one circle
    of 8000 to 12000 pixels) and the image of the disk. *)
Lemma X19_runTest_expecting_circle_fails_witness :
  runTestPassed newDetector
    (mkTestImage "single_circle" "Single circle"
                 [mkExpectedCount "circle" 8000 12000 1])
    diskImage 0 1 = Some false.
Proof.
  apply (X19_runTest_expecting_circle_fails newDetector
           (mkTestImage "single_circle" "Single circle"
                        [mkExpectedCount "circle" 8000 12000 1])
           diskImage 0%R 1%R (mkExpectedCount "circle" 8000 12000 1)).
  - cbn [ti_expectedShapes]. left.
  - reflexivity.
  - cbn [count]. lia.
Defined.

(** X20. A test case that expects nothing passes on every image, also
    when shapes are found: the test runner cannot detect a spurious
    shape. *)
Theorem X20_runTest_expecting_nothing_passes
    (s : Detector) (testCase : TestImage) (img : ImageData) (t0 t1 : R) :
  ti_expectedShapes testCase = [] →
  runTestPassed s testCase img t0 t1 = Some true.
Proof.
  intros Hnil. unfold runTestPassed.
  destruct (detectShapes_never_circle s img t0 t1) as (s' & res & -> & _).
  f_equal. apply evaluateResult_true. rewrite Hnil. split.
  - intros e He. by apply elem_of_nil in He.
  - intros sh e _ Hfind. done.
Qed.

(** X20 at the test case [no_shapes] of the repository, on the image of
    the disk, where one shape is found. *)
Lemma X20_runTest_expecting_nothing_passes_witness :
  runTestPassed newDetector (mkTestImage "no_shapes" "No Shapes" [])
                diskImage 0 1 = Some true.
Proof.
  apply (X20_runTest_expecting_nothing_passes newDetector
           (mkTestImage "no_shapes" "No Shapes" []) diskImage 0%R 1%R).
  reflexivity.
Defined.

(** ** More on [detectShapes] *)

(** X21. When [detectShapes] returns, the detector holds the size of the
    image, and its matrices [visited] and [binaryMatrix] both mark exactly
    the foreground cells: the scan has visited every foreground cell and no
    background cell. *)
Theorem X21_visited_marks_foreground
    (s : Detector) (img : ImageData) (t0 t1 : R) :
  ∃ s' res, detectShapes s img t0 t1 = Some (s', res)
    ∧ width s' = img_width img ∧ height s' = img_height img
    ∧ ∀ p, inBounds (img_width img) (img_height img) p →
           at_pixel (visited s') p = foreground img p
           ∧ at_pixel (binaryMatrix s') p = foreground img p.
Proof.
  destruct (runScan_spec s img) as (st & Hrun & _).
  destruct (emitted_shape s img t0 t1 st Hrun) as (res & Hres & _).
  destruct (scan_dims s img st Hrun) as [Hw Hh].
  exists (sc_det st), res. split_and!; [done..|].
  intros p Hp. by apply (scan_visited s img st p Hrun).
Qed.

(** X22. The areas of the shapes that [detectShapes] returns sum to at
    most the number of foreground cells of the image, which is at most
    width times height, and to at least 64 times the number of shapes: the
    shapes stand for regions that share no pixel. *)
Theorem X22_areas_sum_bounded
    (s : Detector) (img : ImageData) (t0 t1 : R) :
  ∃ s' res, detectShapes s img t0 t1 = Some (s', res)
    ∧ 64 * Z.of_nat (length (shapes res)) ≤ sumAreas (shapes res)
    ∧ sumAreas (shapes res) ≤ foregroundCount img
    ∧ foregroundCount img
      ≤ Z.max 0 (img_width img) * Z.max 0 (img_height img).
Proof.
  destruct (runScan_spec s img) as (st & Hrun & _).
  exists (sc_det st). eexists.
  split; [apply (detectShapes_runScan s img t0 t1 st Hrun)|].
  cbn [shapes]. rewrite <- (scan_handed s img st Hrun).
  destruct (scan_dims s img st Hrun) as [Hw Hh].
  destruct (omap_areas (analyzeShape (sc_det st)) (sc_handed st))
    as [Hlow Hup].
  { intros r sh Hr Han.
    destruct (handed_region s img st r Hrun Hr) as (Hlen & Hnd & Hin).
    unfold minShapeSize in Hlen.
    destruct (region_locals (sc_det st) r Hnd ltac:(lia))
      as (_ & _ & Hsmall & _).
    { intros p Hp. rewrite Hw, Hh. by destruct (Hin p Hp). }
    apply analyzeShape_Some in Han as (_ & Hconf & ->). cbn [area].
    assert (Harea : l_area (analyzeLocals (sc_det st) r)
                    = Z.of_nat (length r)) by done.
    split; [done|]. rewrite Harea.
    destruct (Z.le_gt_cases 64 (Z.of_nat (length r))) as [|Hlt]; [done|].
    exfalso. apply Hconf, Hsmall. lia. }
  split_and!; [done| |].
  - etrans; [exact Hup|]. unfold foregroundCount.
    rewrite <- (Permutation_length (regions_Permutation s img st Hrun)).
    rewrite (scan_handed s img st Hrun).
    apply Nat2Z.inj_le, length_join_filter.
  - unfold foregroundCount.
    pose proof (length_filter (fun p => foreground img p = true)
                  (raster (img_width img) (img_height img))) as Hle.
    rewrite length_raster in Hle. apply Nat2Z.inj_le in Hle.
    rewrite Nat2Z.inj_mul, !ZifyInst.of_nat_to_nat_eq in Hle. lia.
Qed.

(** X23. The confidence of a returned shape is the value of its branch
    of the chain times the size penalty, with [e] the area over the area of
    the bounding box: 0.85 e for a square, 0.8 e for a rectangle,
    0.7 (1 - e) for a triangle, 0.6 for a pentagon; the clamp to
    [0.1, 0.99] never changes it. *)
Theorem X23_confidence_closed_form
    (s : Detector) (img : ImageData) (t0 t1 : R) :
  ∃ s' res, detectShapes s img t0 t1 = Some (s', res)
    ∧ Forall (fun sh =>
        confidence sh
        = (rawConfidence (shape_type sh)
             (IZR (area sh)
              / IZR (bb_width (boundingBox sh) * bb_height (boundingBox sh)))
           * sizePenalty (area sh))%R) (shapes res).
Proof.
  destruct (runScan_spec s img) as (st & Hrun & _).
  destruct (emitted_shape s img t0 t1 st Hrun) as (res & Hres & _ & _ & Hall).
  exists (sc_det st), res. split; [done|].
  apply Forall_forall. intros sh Hsh.
  destruct (Hall sh Hsh) as (r & Hr & Han).
  destruct (handed_region s img st r Hrun Hr) as (Hlen & Hnd & Hin).
  destruct (scan_dims s img st Hrun) as [Hw Hh].
  unfold minShapeSize in Hlen.
  apply analyzeShape_Some in Han as (_ & Hconf & ->).
  cbn [boundingBox bb_width bb_height area shape_type confidence].
  apply region_confidence; [done|lia| |done].
  intros p Hp. rewrite Hw, Hh. by destruct (Hin p Hp).
Qed.

(** ** More on [calculateMetrics] and [isShapeMatch] *)

(** X24. The list [details] of [calculateMetrics] runs along the detected
    shapes: entry by entry it holds the type and the confidence of the
    detected shape.  The entries marked correct are as many as the true
    positives, and each has the same expected and detected type.  Unless
    an expected shape is itself of a type named ['none'], the entries with
    expected type ['none'] are as many as the false positives. *)
Theorem X24_details_follow_detected
    (testCase : TestCase) (detectedShapes : list Detection) :
  ∃ r, calculateMetrics testCase detectedShapes = Some r
    ∧ d_detected <$> details r = det_type <$> detectedShapes
    ∧ d_confidence <$> details r = det_confidence <$> detectedShapes
    ∧ Z.of_nat (length (filter (fun d => d_isCorrect d = true) (details r)))
      = truePositives r
    ∧ Forall (fun d => d_isCorrect d = true → d_expected d = d_detected d)
             (details r)
    ∧ ((∀ e, e ∈ tc_expectedShapes testCase → ex_type e ≠ "none") →
       Z.of_nat (length (filter (fun d => d_expected d = "none") (details r)))
       = falsePositives r).
Proof.
  destruct (calculateMetrics_spec testCase detectedShapes) as (r & Hr & _).
  exists r. split; [done|]. by apply calculateMetrics_details.
Qed.

(** X25. [shapeWiseResults] has an entry for exactly the type names that
    occur among the expected or the detected shapes.  The entry of a type
    counts the detected shapes and the expected shapes of that type, and
    its [correct] count is between 0 and its [detected] count. *)
Theorem X25_shapeWiseResults_counts
    (testCase : TestCase) (detectedShapes : list Detection) :
  ∃ r, calculateMetrics testCase detectedShapes = Some r
    ∧ ∀ type,
        match shapeWiseResults r !! type with
        | Some c =>
            type ∈ occurringTypes testCase detectedShapes
            ∧ c_detected c = countDetected type detectedShapes
            ∧ c_expected c = countExpected type (tc_expectedShapes testCase)
            ∧ 0 ≤ c_correct c ≤ c_detected c
        | None => type ∉ occurringTypes testCase detectedShapes
        end.
Proof.
  destruct (calculateMetrics_spec testCase detectedShapes) as (r & Hr & _).
  exists r. split; [done|]. by apply calculateMetrics_shapeWise.
Qed.

(** X26. A detected shape of a wrong type that lies on an expected shape
    is not a false positive.  When no detected shape has the type of any
    expected shape, and each detected shape has an intersection over union
    of at least 0.5 with some expected shape, then [calculateMetrics]
    counts no true positive and no false positive, all expected shapes are
    false negatives, precision, recall and F1 score are 0 and no entry of
    [details] is correct. *)
Theorem X26_wrong_types_are_no_false_positives
    (testCase : TestCase) (detectedShapes : list Detection) :
  (∀ d e, d ∈ detectedShapes → e ∈ tc_expectedShapes testCase →
          det_type d ≠ ex_type e) →
  (∀ d, d ∈ detectedShapes →
        ∃ e, e ∈ tc_expectedShapes testCase
             ∧ jsGe (calculateIoU (det_boundingBox d) (ex_boundingBox e))
                    (Finite 0.5) = true) →
  ∃ r, calculateMetrics testCase detectedShapes = Some r
    ∧ truePositives r = 0 ∧ falsePositives r = 0
    ∧ falseNegatives r = Z.of_nat (length (tc_expectedShapes testCase))
    ∧ precision r = Finite 0 ∧ recall r = Finite 0 ∧ f1Score r = Finite 0
    ∧ Forall (fun d => d_isCorrect d = false ∧ d_expected d ≠ d_detected d)
             (details r)
    ∧ (detectedShapes ≠ [] → passed r = false).
Proof.
  intros Htypes Hover.
  destruct (calculateMetrics_spec testCase detectedShapes)
    as (r & Hr & _ & _ & _ & _ & Htp & _ & Hfp & _ & Hfn & Hpass
        & Hp & Hq & Hf & _).
  exists r. split; [done|].
  destruct (calculateMetrics_unfold _ _ _ Hr)
    as (sw & t & _ & Hloop & Etp & Efp & _ & _ & Edet).
  destruct (wrongTypes_loop testCase detectedShapes sw t Htypes Hover Hloop)
    as (Htp0 & Hfp0 & _ & Hdet).
  rewrite <- Etp in Htp0. rewrite <- Efp in Hfp0. rewrite <- Edet in Hdet.
  assert (Hfn' : falseNegatives r
                 = Z.of_nat (length (tc_expectedShapes testCase))) by lia.
  destruct (ratio_spec (truePositives r) (falsePositives r) Htp Hfp)
    as (p & Hp' & _ & Hp0 & _).
  destruct (ratio_spec (truePositives r) (falseNegatives r) Htp ltac:(lia))
    as (q & Hq' & _ & Hq0 & _).
  rewrite Hp', (Hp0 Htp0) in Hp. rewrite Hq', (Hq0 Htp0) in Hq.
  split_and!; try done.
  - rewrite Hf, Hp, Hq. cbn [jsMul jsAdd]. unfold jsDiv.
    rewrite !bool_decide_eq_true_2 by lra. done.
  - intros Hne. rewrite Hpass. apply andb_false_iff. right.
    apply bool_decide_eq_false_2. rewrite Hfn'.
    destruct detectedShapes as [|d ds]; [done|].
    destruct (Hover d) as (e & He & _); [left|].
    destruct (tc_expectedShapes testCase); [by apply elem_of_nil in He|].
    cbn [length]. lia.
Qed.

(** X26 at a test case that expects a circle in the box of side 100 at
    (50, 50), and a square detected in that very box. *)
Lemma X26_wrong_types_are_no_false_positives_witness :
  ∃ r, calculateMetrics
         (mkTestCase "test-1" "Single circle detection"
            "/test-images/circle.png"
            [mkExpectedShape "circle" (100, 100)%R (mkBox 50 50 100 100)])
         [mkDetection "square" 0.85 (mkBox 50 50 100 100) (100, 100)%R]
       = Some r
    ∧ truePositives r = 0 ∧ falsePositives r = 0
    ∧ falseNegatives r = 1
    ∧ precision r = Finite 0 ∧ recall r = Finite 0 ∧ f1Score r = Finite 0
    ∧ Forall (fun d => d_isCorrect d = false ∧ d_expected d ≠ d_detected d)
             (details r)
    ∧ ([mkDetection "square" 0.85 (mkBox 50 50 100 100) (100, 100)%R] ≠ [] →
       passed r = false).
Proof.
  apply (X26_wrong_types_are_no_false_positives
           (mkTestCase "test-1" "Single circle detection"
              "/test-images/circle.png"
              [mkExpectedShape "circle" (100, 100)%R (mkBox 50 50 100 100)])
           [mkDetection "square" 0.85 (mkBox 50 50 100 100) (100, 100)%R]).
  - intros d e Hd He. cbn [tc_expectedShapes] in He.
    apply list_elem_of_singleton in Hd as ->.
    apply list_elem_of_singleton in He as ->. discriminate.
  - intros d Hd. apply list_elem_of_singleton in Hd as ->.
    exists (mkExpectedShape "circle" (100, 100)%R (mkBox 50 50 100 100)).
    split; [cbn [tc_expectedShapes]; left|].
    cbn [det_boundingBox ex_boundingBox].
    rewrite calculateIoU_self by (cbn; lra).
    cbn. apply bool_decide_eq_true_2. lra.
Defined.



(** ** The order of the results *)

(** X28. Every region that [floodFill] returns in a run of
    [detectShapes] starts with the pixel of the region that comes first
    row by row and from left to right (its top-most pixel, the left-most of
    these), and the regions are found in the order of these first
    pixels. *)
Theorem X28_regions_in_scan_order (s : Detector) (img : ImageData) :
  ∃ st, runScan s img = Some st
    ∧ (∀ r, r ∈ sc_filled st →
            ∃ q rest, r = q :: rest ∧ ∀ c, c ∈ rest → rasterBefore q c)
    ∧ StronglySorted startsBefore (sc_filled st).
Proof.
  destruct (runScan_spec s img) as (st & Hrun & _).
  exists st. split; [done|]. by apply (runScan_order s img).
Qed.

(** X29. [detectShapes] returns its shapes from top to bottom: along the
    list, the top edge [y] of the bounding box never decreases. *)
Theorem X29_shapes_top_to_bottom
    (s : Detector) (img : ImageData) (t0 t1 : R) :
  ∃ s' res, detectShapes s img t0 t1 = Some (s', res)
    ∧ StronglySorted (fun a b => bb_y (boundingBox a) ≤ bb_y (boundingBox b))
                     (shapes res).
Proof.
  destruct (runScan_spec s img) as (st & Hrun & HI & _).
  destruct (runScan_order s img st Hrun) as [Hstart Hsorted].
  destruct (scan_dims s img st Hrun) as [Hw Hh].
  exists (sc_det st). eexists.
  split; [apply (detectShapes_runScan s img t0 t1 st Hrun)|].
  cbn [shapes].
  apply (StronglySorted_omap startsBefore); [|by apply StronglySorted_filter].
  intros r r' a b Hr Hr' Hbefore Ha Hb.
  apply list_elem_of_filter in Hr as [_ Hr].
  apply list_elem_of_filter in Hr' as [_ Hr'].
  assert (Htop : ∀ r sh, r ∈ sc_filled st →
            analyzeShape (sc_det st) r = Some sh →
            ∃ q, head r = Some q ∧ bb_y (boundingBox sh) = py q).
  { intros r0 sh Hr0 Hsh.
    destruct (Hstart r0 Hr0) as (q & rest & -> & Hfirst).
    exists q. split; [done|].
    apply analyzeShape_Some in Hsh as (_ & _ & ->).
    cbn [boundingBox bb_y analyzeLocals l_bounds]. rewrite Hw, Hh.
    apply region_minY; [|done].
    intros c Hc. apply (si_fg _ _ _ _ HI).
    apply list_elem_of_join. by exists (q :: rest). }
  destruct (Htop r a Hr Ha) as (q & Hq & ->).
  destruct (Htop r' b Hr' Hb) as (q' & Hq' & ->).
  destruct (Hbefore q q' Hq Hq') as [?|[? _]]; lia.
Qed.
